(** * Rate-adaptive execution scheduler of the volume bot

    A shallow embedding of the three leaf components the trading loops share:

    - [QuoteCache]    (src/utils/quoteCache.ts): the TTL cache of quotes;
    - [RequestQueue]  (src/unnamed/part_003, second document): the paced,
      two-tier request queue behind [jupiterQueue];
    - [Cooldown]      (src/usage-tracker.mjs, "COOLDOWN SYSTEM FUNCTIONS"):
      the process-wide cooldown coordinator;

    and of the code around them:

    - [Adaptive]      (src/usage-tracker.mjs): [recordSuccess] and
      [recordFailure], which move the rate of the queue;
    - [SellQueue]     (src/usage-tracker.mjs): [buildSellQueue] and
      [processSellQueue], awaited by the coordinator;
    - [WalletCache]   (src/usage-tracker.mjs): the cache of balances and
      token accounts behind [walletCacheMap];
    - [Diagnostic]    (src/unnamed/part_003, first document): the retries
      of the diagnostic script.

    JavaScript runs these on one thread: a function body runs to completion
    up to its next [await], and everything that can happen in between
    (another caller, a timer, a finished request) is an event.  The models
    below are therefore deterministic step functions over explicit states,
    driven by a list of events that carries every choice of the environment
    (the clock readings, which timer fires, which request finishes).

    Numbers.  [Date.now()] is an integer number of milliseconds and amounts
    are integer lamports: both are [Z].  The queue divides ([1000 /
    requestsPerSecond]) and the rate may be fractional (3.5 req/s), so its
    delays are exact rationals [Q]; so is the time at which its timers
    fire, of which [Date.now()] reads the whole milliseconds.  The
    rounding of IEEE doubles is modelled where a result depends on it
    (the hit rate of the cache, with the Standard Library's [SpecFloat]),
    and not for the delays of the queue. *)

From Stdlib Require Import ZArith QArith Qminmax Qround Lqa Lia Sorted SpecFloat.
From stdpp Require Import gmap strings list fin_maps pretty.

Open Scope Z_scope.

(** ** Quote cache (src/utils/quoteCache.ts) *)

Module QuoteCache.

Section WithPayload.

(** The Jupiter quote response, [quote: any] in the source. *)
Context {any : Type}.

Record CachedQuote : Type := mkCachedQuote {
  quote : any;
  timestamp : Z;
  inputMint : string;
  outputMint : string;
  amount : Z
}.

(** The object's fields: [cache = new Map<string, CachedQuote>()], [hits],
    [misses].  [TTL] is the read-only constant below. *)
Record t : Type := mkCache {
  cache : gmap string CachedQuote;
  hits : nat;
  misses : nat
}.

Definition TTL : Z := 20000.

Definition new_QuoteCache : t :=
  {| cache := ∅; hits := 0; misses := 0 |}.

(** [Math.floor(amount / 1000000) * 1000000]; on integers [Z.div] is the
    floor of the quotient. *)
Definition roundedAmount (amount : Z) : Z := amount / 1000000 * 1000000.

(** The template literal [`${inputMint}-${outputMint}-${roundedAmount}`]. *)
Definition getCacheKey (inputMint outputMint : string) (amount : Z) : string :=
  inputMint +:+ "-" +:+ outputMint +:+ "-" +:+ pretty (roundedAmount amount).


(** [get] returns the payload or [null] ([None]) and updates the counters;
    [now] is the reading of [Date.now()].  The console line of a hit is
    not modelled. *)
Definition get (now : Z) (inputMint outputMint : string) (amount : Z) (c : t)
  : option any * t :=
  let key := getCacheKey inputMint outputMint amount in
  match cache c !! key with
  | None =>
      (None, {| cache := cache c; hits := hits c; misses := S (misses c) |})
  | Some cached =>
      let age := now - timestamp cached in
      if decide (age > TTL) then
        (None, {| cache := delete key (cache c);
                  hits := hits c; misses := S (misses c) |})
      else
        (Some (quote cached),
         {| cache := cache c; hits := S (hits c); misses := misses c |})
  end.

Definition set (now : Z) (inputMint outputMint : string) (amount : Z)
  (quote : any) (c : t) : t :=
  let key := getCacheKey inputMint outputMint amount in
  {| cache := <[key := mkCachedQuote quote now inputMint outputMint amount]> (cache c);
     hits := hits c; misses := misses c |}.

(** What a call evaluates to at its call site: a function declared
    [: void] yields [undefined]. *)
Inductive Returned : Type :=
| Undefined
| Num (n : Z).

Inductive LogLine : Type :=
| CleanedUp (removed : nat).

(** One iteration of [for (const [key, cached] of this.cache.entries())]:
    the accumulator is the map being mutated and the local [removed]. *)
Definition cleanup_visit (now : Z) (key : string) (cached : CachedQuote)
  (acc : gmap string CachedQuote * nat) : gmap string CachedQuote * nat :=
  if decide (now - timestamp cached > TTL) then (delete key acc.1, S acc.2)
  else acc.

Record CleanupResult : Type := mkCleanupResult {
  returned : Returned;
  after : t;
  removed : nat;
  console : list LogLine
}.

(** [cleanup(): void].  Deleting from a [Map] while iterating it is
    well defined in JavaScript: every entry present at the start is
    visited unless it was deleted first, and only the visited entry is
    deleted here, so the loop is a fold over the initial entries. *)
Definition cleanup (now : Z) (c : t) : CleanupResult :=
  let r := map_fold (cleanup_visit now) (cache c, 0%nat) (cache c) in
  {| returned := Undefined;
     after := {| cache := r.1; hits := hits c; misses := misses c |};
     removed := r.2;
     console := if decide (0 < r.2)%nat then [CleanedUp r.2] else [] |}.

Definition clear (c : t) : t := new_QuoteCache.

Definition resetStats (c : t) : t :=
  {| cache := cache c; hits := 0; misses := 0 |}.

(** An entry is expired at [now] when [now - timestamp > TTL]. *)
Definition expired (now : Z) (cached : CachedQuote) : Prop :=
  now - timestamp cached > TTL.

#[global] Instance expired_dec (now : Z) (cached : CachedQuote) :
  Decision (expired now cached) := Z_gt_dec _ _.

(** JavaScript numbers are IEEE 754 doubles ([binary64]: 53 bits of
    precision, exponents below 1024), computed here by the Standard
    Library's [SpecFloat].  [number z] is the double nearest to the
    integer [z], which is [z] itself up to [2^53]. *)
Definition double : Type := spec_float.

Definition number (z : Z) : double := binary_normalize 53 1024 z 0 false.

(** The value of a finite double. *)
Definition value (x : double) : Q :=
  match x with
  | S754_finite s m e =>
      ((if s then -1 else 1) * inject_Z (Z.pos m) * 2 ^ e)%Q
  | _ => 0%Q
  end.

(** [Math.round(x)]: [x] itself when it is not finite or is an integer;
    otherwise the integer nearest to [x], a half going up, with the sign
    of [x] when that integer is 0. *)
Definition Math_round (x : double) : double :=
  match x with
  | S754_finite s m e =>
      if 0 <=? e then x
      else
        let n := Qfloor (value x + (1 # 2)) in
        if n =? 0 then S754_zero s else number n
  | _ => x
  end.

(** [getHitRate()]: [total > 0 ? Math.round((hits / total) * 100) : 0];
    the quotient and the product are rounded to doubles, so that 23 hits
    out of 40 give 57 (the product is 57.49999999999999), not 58. *)
Definition getHitRate (c : t) : double :=
  let total := (hits c + misses c)%nat in
  if (0 <? total)%nat
  then Math_round
         (SFmul 53 1024
            (SFdiv 53 1024 (number (Z.of_nat (hits c))) (number (Z.of_nat total)))
            (number 100))
  else number 0.

(** The object [getStats()] returns. *)
Record Stats : Type := mkStats {
  stats_hits : nat;
  stats_misses : nat;
  stats_hitRate : double;
  stats_size : nat
}.

Definition getStats (c : t) : Stats :=
  mkStats (hits c) (misses c) (getHitRate c) (size (cache c)).

(** A call of one of the public methods by a user of the cache; the
    readings of [Date.now()] come with the call. *)
Inductive Call : Type :=
| CallGet (now : Z) (inputMint outputMint : string) (amount : Z)
| CallSet (now : Z) (inputMint outputMint : string) (amount : Z) (quote : any)
| CallCleanup (now : Z)
| CallClear
| CallResetStats.

Definition call (c : t) (op : Call) : t :=
  match op with
  | CallGet now inputMint outputMint amount =>
      (get now inputMint outputMint amount c).2
  | CallSet now inputMint outputMint amount quote =>
      set now inputMint outputMint amount quote c
  | CallCleanup now => after (cleanup now c)
  | CallClear => clear c
  | CallResetStats => resetStats c
  end.

Definition calls (c : t) (ops : list Call) : t := fold_left call ops c.

Definition is_get (op : Call) : bool :=
  match op with CallGet _ _ _ _ => true | _ => false end.

Definition is_set (op : Call) : bool :=
  match op with CallSet _ _ _ _ _ => true | _ => false end.

(** The calls that put the two counters back to 0. *)
Definition zeroes_stats (op : Call) : bool :=
  match op with CallClear | CallResetStats => true | _ => false end.

End WithPayload.

(** The character ["-"] that separates the parts of a cache key. *)
Definition dash : Ascii.ascii := Ascii.ascii_of_nat 45.

(** No character of [s] is a dash; the base58 text of a mint address
    has none. *)
Fixpoint no_dash (s : string) : bool :=
  match s with
  | EmptyString => true
  | String c rest => negb (Ascii.eqb c dash) && no_dash rest
  end.

Arguments CachedQuote : clear implicits.
Arguments t : clear implicits.
Arguments CleanupResult : clear implicits.
Arguments Call : clear implicits.

End QuoteCache.

(** ** Request queue (src/unnamed/part_003, [class RequestQueue]) *)

Module RequestQueue.

Inductive Priority : Type :=
| high
| normal.

(** How the work of a dispatched item ended: [fn()] fulfilled with a
    result or threw.  [wrappedFn] passes it to [resolve] or [reject]. *)
Inductive Outcome (any : Type) : Type :=
| resolved (result : any)
| rejected (error : any).

Arguments resolved {any} result.
Arguments rejected {any} error.

(** An entry of [this.queue]: the closure [wrappedFn] that [add] builds.
    Closures have identity; [id] numbers them in order of creation.  The
    priority is kept with the entry for the statements below; the code
    does not store it. *)
Record Item : Type := mkItem {
  id : nat;
  priority : Priority
}.

#[global] Instance Priority_eq_dec : EqDecision Priority.
Proof. solve_decision. Defined.

#[global] Instance Item_eq_dec : EqDecision Item.
Proof. solve_decision. Defined.

(** The three places at which an invocation of [process()] gives up the
    thread and is resumed by a timer. *)
Inductive Await : Type :=
| AtMaxConcurrent   (* [await sleep(100)] in the [while] loop *)
| AtMinDelay        (* [await sleep(this.minDelay - timeSinceLastRequest)] *)
| NextProcess.      (* [setTimeout(() => this.process(), 10)] *)

(** A pending timer: it fires no earlier than the time [due], in
    milliseconds and fractions, and then runs the continuation [resume]. *)
Record Timer : Type := mkTimer {
  due : Q;
  resume : Await
}.

(** One dispatch: the item whose [fn()] was called and the value stored
    in [lastRequestTime] at that moment, a reading of [Date.now()]. *)
Record Dispatch : Type := mkDispatch {
  item : Item;
  at_time : Q
}.

(** [x] stands in [l] at an earlier position than [y]. *)
Definition before {A : Type} (x y : A) (l : list A) : Prop :=
  ∃ i j, (i < j)%nat ∧ l !! i = Some x ∧ l !! j = Some y.

(** Any two dispatches of the history are at least [d] apart. *)
Definition paced (d : Q) (log : list Dispatch) : Prop :=
  ∀ i j d1 d2, (i < j)%nat → log !! i = Some d1 → log !! j = Some d2 →
    (at_time d1 + d <= at_time d2)%Q.

(** In [l], a normal item stands before later submissions only. *)
Definition normal_keeps_turn (l : list Item) : Prop :=
  ∀ n x, before n x l → priority n = normal → (id n < id x)%nat.

(** Two dispatched items of priority [p] were dispatched in the order
    of their submission. *)
Definition fifo_for (p : Priority) (log : list Dispatch) : Prop :=
  ∀ i j d1 d2, log !! i = Some d1 → log !! j = Some d2 →
    priority (item d1) = p → priority (item d2) = p →
    (id (item d1) < id (item d2))%nat → (i < j)%nat.

Definition fifo_within_tier (log : list Dispatch) : Prop :=
  ∀ p, fifo_for p log.

Section WithResult.

Context {any : Type}.

(** The first seven fields are the object's.  The others are the part of
    the JavaScript runtime the object is observed through: the time
    [clock], in milliseconds and fractions of one, the timers of
    suspended [process()] invocations, the works that were started
    ([running]), those whose promise is settled and whose [.finally]
    callback has not run yet ([finishing]), and the two histories
    [dispatched] and [settled] (oldest first). *)
Record t : Type := mkQueue {
  queue : list Item;
  processing : bool;
  requestsPerSecond : Q;
  minDelay : Q;
  lastRequestTime : Q;
  activeRequests : Z;
  maxConcurrent : Z;
  clock : Q;
  timers : list Timer;
  nextId : nat;
  running : list nat;
  finishing : list nat;
  dispatched : list Dispatch;
  settled : list (nat * Outcome any)
}.

(** [new RequestQueue()] created at time [t0]. *)
Definition new_RequestQueue (t0 : Q) : t :=
  {| queue := []; processing := false;
     requestsPerSecond := 4%Q; minDelay := (1000 / 4)%Q;
     lastRequestTime := 0%Q; activeRequests := 0; maxConcurrent := 1;
     clock := t0; timers := []; nextId := 0;
     running := []; finishing := []; dispatched := []; settled := [] |}.

(** [Date.now()]: the time in whole milliseconds. *)
Definition Date_now (s : t) : Q := inject_Z (Qfloor (clock s)).

Definition Qltb (x y : Q) : bool := negb (Qle_bool y x).

(** Modelled from the spec: [sleep] is imported from './utils', which is
    not among the sources.  As the pacing rule of the spec has it ("wait
    until [now - lastDispatchTime ≥ minDelay]"), and as the other
    definitions of [sleep] in the repository do ([new Promise(res =>
    setTimeout(res, ms))]), [sleep(ms)] resumes its caller no earlier than
    [ms] after the call; so does [setTimeout(f, ms)] with [f].  Both are
    a timer due [ms] from now, [ms] being a fraction when [minDelay] is
    one. *)
Definition schedule (ms : Q) (k : Await) (s : t) : t :=
  {| queue := queue s; processing := processing s;
     requestsPerSecond := requestsPerSecond s; minDelay := minDelay s;
     lastRequestTime := lastRequestTime s; activeRequests := activeRequests s;
     maxConcurrent := maxConcurrent s;
     clock := clock s;
     timers := timers s ++ [mkTimer (clock s + ms)%Q k];
     nextId := nextId s;
     running := running s; finishing := finishing s;
     dispatched := dispatched s; settled := settled s |}.

(** Lines 212-216 of [process], taken when [shift] found [fn] at the head
    of the queue: count the request, stamp [lastRequestTime], call
    [fn()].  [fn()] runs the caller's function up to its first [await];
    whatever that does to the queue is an event of its own. *)
Definition start (fn : Item) (rest : list Item) (s : t) : t :=
  {| queue := rest; processing := processing s;
     requestsPerSecond := requestsPerSecond s; minDelay := minDelay s;
     lastRequestTime := Date_now s;
     activeRequests := activeRequests s + 1;
     maxConcurrent := maxConcurrent s;
     clock := clock s; timers := timers s; nextId := nextId s;
     running := running s ++ [id fn]; finishing := finishing s;
     dispatched := dispatched s ++ [mkDispatch fn (Date_now s)];
     settled := settled s |}.

(** Lines 212-223: [shift], start the work if there is one, schedule the
    next invocation. *)
Definition dispatch (s : t) : t :=
  schedule 10%Q NextProcess
    match queue s with
    | [] => s
    | fn :: rest => start fn rest s
    end.

(** Lines 204-210: the pacing check. *)
Definition enforce_min_delay (s : t) : t :=
  let now := Date_now s in
  let timeSinceLastRequest := (now - lastRequestTime s)%Q in
  if Qltb timeSinceLastRequest (minDelay s)
  then schedule (minDelay s - timeSinceLastRequest)%Q AtMinDelay s
  else dispatch s.

(** Lines 200-202: one evaluation of the [while] condition. *)
Definition wait_max_concurrent (s : t) : t :=
  if activeRequests s >=? maxConcurrent s
  then schedule 100%Q AtMaxConcurrent s
  else enforce_min_delay s.

Definition set_processing (b : bool) (s : t) : t :=
  {| queue := queue s; processing := b;
     requestsPerSecond := requestsPerSecond s; minDelay := minDelay s;
     lastRequestTime := lastRequestTime s; activeRequests := activeRequests s;
     maxConcurrent := maxConcurrent s;
     clock := clock s; timers := timers s; nextId := nextId s;
     running := running s; finishing := finishing s;
     dispatched := dispatched s; settled := settled s |}.

(** [process()], from its entry to its first suspension. *)
Definition process (s : t) : t :=
  match queue s with
  | [] => set_processing false s
  | _ :: _ => wait_max_concurrent (set_processing true s)
  end.

(** A timer of [process] fires: run from the [await] it was waiting at. *)
Definition continue (k : Await) (s : t) : t :=
  match k with
  | AtMaxConcurrent => wait_max_concurrent s
  | AtMinDelay => dispatch s
  | NextProcess => process s
  end.

(** Lines 179-183 of [add]: [unshift] or [push] of the new closure. *)
Definition enqueue (p : Priority) (s : t) : t :=
  let wrappedFn := mkItem (nextId s) p in
  {| queue := match p with
              | high => wrappedFn :: queue s
              | normal => queue s ++ [wrappedFn]
              end;
     processing := processing s;
     requestsPerSecond := requestsPerSecond s; minDelay := minDelay s;
     lastRequestTime := lastRequestTime s; activeRequests := activeRequests s;
     maxConcurrent := maxConcurrent s;
     clock := clock s; timers := timers s; nextId := S (nextId s);
     running := running s; finishing := finishing s;
     dispatched := dispatched s; settled := settled s |}.

(** [add(fn, priority)]: enqueue, then start a drain loop unless one is
    marked as running. *)
Definition add (p : Priority) (s : t) : t :=
  let s1 := enqueue p s in
  if processing s1 then s1 else process s1.

Definition getQueueLength (s : t) : nat := length (queue s).

Definition getActiveRequests (s : t) : Z := activeRequests s.

(** [Math.max(1, Math.min(rate, 10))]. *)
Definition clamp (rate : Q) : Q := Qmax 1%Q (Qmin rate 10%Q).

Definition setRequestsPerSecond (rate : Q) (s : t) : t :=
  {| queue := queue s; processing := processing s;
     requestsPerSecond := clamp rate; minDelay := (1000 / clamp rate)%Q;
     lastRequestTime := lastRequestTime s; activeRequests := activeRequests s;
     maxConcurrent := maxConcurrent s;
     clock := clock s; timers := timers s; nextId := nextId s;
     running := running s; finishing := finishing s;
     dispatched := dispatched s; settled := settled s |}.

Definition clearQueue (s : t) : t :=
  {| queue := []; processing := processing s;
     requestsPerSecond := requestsPerSecond s; minDelay := minDelay s;
     lastRequestTime := lastRequestTime s; activeRequests := activeRequests s;
     maxConcurrent := maxConcurrent s;
     clock := clock s; timers := timers s; nextId := nextId s;
     running := running s; finishing := finishing s;
     dispatched := dispatched s; settled := settled s |}.

(** *** The runtime around the object *)

Definition tick (d : Q) (s : t) : t :=
  {| queue := queue s; processing := processing s;
     requestsPerSecond := requestsPerSecond s; minDelay := minDelay s;
     lastRequestTime := lastRequestTime s; activeRequests := activeRequests s;
     maxConcurrent := maxConcurrent s;
     clock := (clock s + d)%Q; timers := timers s; nextId := nextId s;
     running := running s; finishing := finishing s;
     dispatched := dispatched s; settled := settled s |}.

Definition drop_timer (n : nat) (s : t) : t :=
  {| queue := queue s; processing := processing s;
     requestsPerSecond := requestsPerSecond s; minDelay := minDelay s;
     lastRequestTime := lastRequestTime s; activeRequests := activeRequests s;
     maxConcurrent := maxConcurrent s;
     clock := clock s; timers := delete n (timers s); nextId := nextId s;
     running := running s; finishing := finishing s;
     dispatched := dispatched s; settled := settled s |}.

Definition remove_id (i : nat) (l : list nat) : list nat :=
  filter (λ j, j ≠ i) l.

(** The work of item [i] ends with [o]: [wrappedFn] calls [resolve] or
    [reject] with it and returns; the [.finally] callback is queued. *)
Definition finish (i : nat) (o : Outcome any) (s : t) : t :=
  {| queue := queue s; processing := processing s;
     requestsPerSecond := requestsPerSecond s; minDelay := minDelay s;
     lastRequestTime := lastRequestTime s; activeRequests := activeRequests s;
     maxConcurrent := maxConcurrent s;
     clock := clock s; timers := timers s; nextId := nextId s;
     running := remove_id i (running s); finishing := finishing s ++ [i];
     dispatched := dispatched s; settled := settled s ++ [(i, o)] |}.

(** The [.finally] callback of item [i]: [this.activeRequests--]. *)
Definition release (i : nat) (s : t) : t :=
  {| queue := queue s; processing := processing s;
     requestsPerSecond := requestsPerSecond s; minDelay := minDelay s;
     lastRequestTime := lastRequestTime s;
     activeRequests := activeRequests s - 1;
     maxConcurrent := maxConcurrent s;
     clock := clock s; timers := timers s; nextId := nextId s;
     running := running s; finishing := remove_id i (finishing s);
     dispatched := dispatched s; settled := settled s |}.

(** Everything that can happen to the queue between two runs of its
    code.  An event that cannot happen in the state it meets (time going
    backwards, a timer that does not exist or is not due, the end of a
    work that is not running) leaves the state as it is. *)
Inductive Event : Type :=
| Tick (d : Q)
| Add (p : Priority)
| Fire (n : nat)
| Finish (i : nat) (o : Outcome any)
| Release (i : nat)
| SetRequestsPerSecond (rate : Q)
| ClearQueue.

Definition step (s : t) (e : Event) : t :=
  match e with
  | Tick d => if Qle_bool 0%Q d then tick d s else s
  | Add p => add p s
  | Fire n =>
      match timers s !! n with
      | Some tm =>
          if Qle_bool (due tm) (clock s)
          then continue (resume tm) (drop_timer n s)
          else s
      | None => s
      end
  | Finish i o => if decide (i ∈ running s) then finish i o s else s
  | Release i => if decide (i ∈ finishing s) then release i s else s
  | SetRequestsPerSecond rate => setRequestsPerSecond rate s
  | ClearQueue => clearQueue s
  end.

Definition run (s : t) (evs : list Event) : t := fold_left step evs s.

(** *** Vocabulary of the statements *)

Definition dispatched_items (s : t) : list Item := item <$> dispatched s.

(** Dispatched items, oldest first, then the queue from its head: the
    order in which the drain loop has taken and will take the items. *)
Definition service_items (s : t) : list Item := dispatched_items s ++ queue s.

Definition dispatched_ids (s : t) : list nat := id <$> dispatched_items s.

Definition queued_ids (s : t) : list nat := id <$> queue s.

Definition service_order (s : t) : list nat := id <$> service_items s.

(** What holds of the books of the queue whatever its drain loop is
    doing.  [d] is a lower bound, chosen by the reader, of the delays the
    queue is asked to keep, in whole milliseconds as the stamps are. *)
Record sound (d : Q) (s : t) : Prop := mkSound {
  sound_nodup : NoDup (service_order s);
  sound_fresh : ∀ i, i ∈ service_order s → (i < nextId s)%nat;
  sound_turns : normal_keeps_turn (service_items s);
  sound_accounted : dispatched_ids s ≡ₚ running s ++ (settled s).*1;
  sound_finishing : NoDup (finishing s) ∧ finishing s ⊆ (settled s).*1;
  sound_active :
    activeRequests s = Z.of_nat (length (running s) + length (finishing s));
  sound_max : maxConcurrent s = 1;
  sound_bounded : activeRequests s ≤ maxConcurrent s;
  sound_floor : (0 <= d)%Q ∧ (d <= minDelay s)%Q;
  sound_stamp : ∀ e, e ∈ dispatched s → (at_time e <= lastRequestTime s)%Q;
  sound_paced : paced d (dispatched s);
  sound_delay : (minDelay s == 1000 / requestsPerSecond s)%Q;
  sound_whole : (∃ z, d = inject_Z z) ∧ ∃ z, lastRequestTime s = inject_Z z
}.

(** The drain loop between two events: not running, with nothing
    queued, or suspended on exactly one timer; when that timer is the
    pacing sleep, a slot is free and the sleep ends no earlier than [d]
    after the last dispatch. *)
Definition one_loop (d : Q) (s : t) : Prop :=
  match timers s with
  | [] => processing s = false ∧ queue s = []
  | [tm] =>
      processing s = true ∧
      (resume tm = AtMinDelay →
         activeRequests s < maxConcurrent s ∧
         (lastRequestTime s + d <= due tm)%Q)
  | _ => False
  end.

Definition invariant (d : Q) (s : t) : Prop := sound d s ∧ one_loop d s.

(** What a run of the drain loop, from a timer or from [add] to its next
    suspension, does to the state [s]: it takes the items in the order
    they stand in, creates and settles nothing, and every dispatch it
    adds to the history is stamped with the present reading of
    [Date.now()], which is then at least [d] after the previous stamp. *)
Definition drained (d : Q) (s s' : t) : Prop :=
  service_items s' = service_items s ∧
  nextId s' = nextId s ∧
  settled s' = settled s ∧
  minDelay s' = minDelay s ∧
  requestsPerSecond s' = requestsPerSecond s ∧
  ∀ x, x ∈ dispatched s' →
    x ∈ dispatched s ∨
    (at_time x = Date_now s ∧ (lastRequestTime s + d <= Date_now s)%Q).

(** A rate change keeps the delay at or above [d]. *)
Definition keeps_floor (d : Q) (e : Event) : Prop :=
  match e with
  | SetRequestsPerSecond rate => (d <= 1000 / clamp rate)%Q
  | _ => True
  end.

(** Every item submitted so far is in the queue or was dispatched. *)
Definition none_lost (s : t) : Prop :=
  ∀ i, (i < nextId s)%nat → i ∈ service_order s.

(** Waiting for the pending timer [tm] and letting it fire. *)
Definition await_timer (tm : Timer) (s : t) : list Event :=
  [Tick (Qmax 0 (due tm - clock s)); Fire 0].

(** The events of the runtime alone: time passes, a timer fires, a work
    ends, a [.finally] callback runs; nobody calls the queue. *)
Definition is_runtime (e : Event) : Prop :=
  match e with
  | Tick _ | Fire _ | Finish _ _ | Release _ => True
  | Add _ | SetRequestsPerSecond _ | ClearQueue => False
  end.

Definition is_rate_change (e : Event) : bool :=
  match e with SetRequestsPerSecond _ => true | _ => false end.

Definition is_clear (e : Event) : bool :=
  match e with ClearQueue => true | _ => false end.

Definition is_add (e : Event) : bool :=
  match e with Add _ => true | _ => false end.

(** The drain loop has run out of work: no invocation of [process] is
    suspended, the flag is down and the queue is empty. *)
Definition at_rest (s : t) : Prop :=
  processing s = false ∧ timers s = [] ∧ queue s = [].

End WithResult.

Arguments t : clear implicits.
Arguments Event : clear implicits.

End RequestQueue.

(** ** Cooldown coordinator (src/usage-tracker.mjs, lines 2592-2882) *)

Module Cooldown.

(** The two fields of [UserSession] the coordinator reads or writes. *)
Record UserSession : Type := mkSession {
  chatId : Z;
  botRunning : bool
}.

(** A session after [session.botRunning = false]. *)
Definition halted (session : UserSession) : UserSession :=
  mkSession (chatId session) false.

(** The texts handed to [safeSendMessage]. *)
Inductive Message : Type :=
| BotAutoStopped (consecutive : nat)   (* "🛑 BOT AUTO-STOPPED ..." *)
| CooldownComplete.                    (* "✅ COOLDOWN COMPLETE ..." *)

(** The callback given to [setTimeout] at line 2810. *)
Inductive Callback : Type :=
| RestoreRate.                         (* [jupiterQueue.setRequestsPerSecond(4)] *)

Record Timeout : Type := mkTimeout {
  fires_at : Z;
  callback : Callback
}.

(** An entry of [sellQueue]: wallet number and token amount. *)
Record WalletWithTokens : Type := mkWalletWithTokens {
  walletNumber : nat;
  tokenAmount : Z
}.

Definition MAX_CONSECUTIVE_COOLDOWNS : nat := 3.
Definition RATE_LIMIT_THRESHOLD : nat := 2.
Definition FAILURE_WINDOW : Z := 10000.
Definition COOLDOWN_DURATION : Z := 60000.

Section WithResult.

Context {any : Type}.

(** The module-level variables the coordinator works on, the shared
    queue, the pending [setTimeout] callbacks and the messages sent.
    [bot] tells whether the Telegram client is set ([bot !== null]);
    [activeTraders] is a [Set], iterated in insertion order; [TEST_MODE]
    is a constant imported from the configuration, kept here as a field
    that nothing writes.  Writing the session file ([saveSessions]) is
    not modelled. *)
Record t : Type := mkState {
  COOLDOWN_MODE : bool;
  cooldownStartTime : Z;
  rateLimitFailureCount : nat;
  lastFailureTime : Z;
  consecutiveCooldowns : nat;
  apiCallsSinceLastReset : nat;
  lastResetTime : Z;
  testModeSuccessfulTrades : nat;
  TEST_MODE : bool;
  sellQueue : list WalletWithTokens;
  activeTraders : list nat;
  userSessions : gmap nat UserSession;
  bot : bool;
  jupiterQueue : RequestQueue.t any;
  timeouts : list Timeout;
  sent : list (Z * Message)
}.

(** The state when the module is loaded at time [t0]. *)
Definition initial (t0 : Z) (test_mode : bool) : t :=
  {| COOLDOWN_MODE := false; cooldownStartTime := 0;
     rateLimitFailureCount := 0; lastFailureTime := 0;
     consecutiveCooldowns := 0;
     apiCallsSinceLastReset := 0; lastResetTime := t0;
     testModeSuccessfulTrades := 0; TEST_MODE := test_mode;
     sellQueue := []; activeTraders := []; userSessions := ∅; bot := false;
     jupiterQueue := RequestQueue.new_RequestQueue (inject_Z t0);
     timeouts := []; sent := [] |}.

(** *** Field updates *)

Definition set_COOLDOWN_MODE (v : bool) (s : t) : t :=
  mkState v (cooldownStartTime s) (rateLimitFailureCount s) (lastFailureTime s)
    (consecutiveCooldowns s) (apiCallsSinceLastReset s) (lastResetTime s)
    (testModeSuccessfulTrades s) (TEST_MODE s) (sellQueue s) (activeTraders s)
    (userSessions s) (bot s) (jupiterQueue s) (timeouts s) (sent s).

Definition set_cooldownStartTime (v : Z) (s : t) : t :=
  mkState (COOLDOWN_MODE s) v (rateLimitFailureCount s) (lastFailureTime s)
    (consecutiveCooldowns s) (apiCallsSinceLastReset s) (lastResetTime s)
    (testModeSuccessfulTrades s) (TEST_MODE s) (sellQueue s) (activeTraders s)
    (userSessions s) (bot s) (jupiterQueue s) (timeouts s) (sent s).

Definition set_rateLimitFailureCount (v : nat) (s : t) : t :=
  mkState (COOLDOWN_MODE s) (cooldownStartTime s) v (lastFailureTime s)
    (consecutiveCooldowns s) (apiCallsSinceLastReset s) (lastResetTime s)
    (testModeSuccessfulTrades s) (TEST_MODE s) (sellQueue s) (activeTraders s)
    (userSessions s) (bot s) (jupiterQueue s) (timeouts s) (sent s).

Definition set_lastFailureTime (v : Z) (s : t) : t :=
  mkState (COOLDOWN_MODE s) (cooldownStartTime s) (rateLimitFailureCount s) v
    (consecutiveCooldowns s) (apiCallsSinceLastReset s) (lastResetTime s)
    (testModeSuccessfulTrades s) (TEST_MODE s) (sellQueue s) (activeTraders s)
    (userSessions s) (bot s) (jupiterQueue s) (timeouts s) (sent s).

Definition set_consecutiveCooldowns (v : nat) (s : t) : t :=
  mkState (COOLDOWN_MODE s) (cooldownStartTime s) (rateLimitFailureCount s)
    (lastFailureTime s) v (apiCallsSinceLastReset s) (lastResetTime s)
    (testModeSuccessfulTrades s) (TEST_MODE s) (sellQueue s) (activeTraders s)
    (userSessions s) (bot s) (jupiterQueue s) (timeouts s) (sent s).

Definition set_apiCalls (calls : nat) (reset_at : Z) (s : t) : t :=
  mkState (COOLDOWN_MODE s) (cooldownStartTime s) (rateLimitFailureCount s)
    (lastFailureTime s) (consecutiveCooldowns s) calls reset_at
    (testModeSuccessfulTrades s) (TEST_MODE s) (sellQueue s) (activeTraders s)
    (userSessions s) (bot s) (jupiterQueue s) (timeouts s) (sent s).

Definition set_testModeSuccessfulTrades (v : nat) (s : t) : t :=
  mkState (COOLDOWN_MODE s) (cooldownStartTime s) (rateLimitFailureCount s)
    (lastFailureTime s) (consecutiveCooldowns s) (apiCallsSinceLastReset s)
    (lastResetTime s) v (TEST_MODE s) (sellQueue s) (activeTraders s)
    (userSessions s) (bot s) (jupiterQueue s) (timeouts s) (sent s).

Definition set_userSessions (v : gmap nat UserSession) (s : t) : t :=
  mkState (COOLDOWN_MODE s) (cooldownStartTime s) (rateLimitFailureCount s)
    (lastFailureTime s) (consecutiveCooldowns s) (apiCallsSinceLastReset s)
    (lastResetTime s) (testModeSuccessfulTrades s) (TEST_MODE s) (sellQueue s)
    (activeTraders s) v (bot s) (jupiterQueue s) (timeouts s) (sent s).

Definition set_jupiterQueue (v : RequestQueue.t any) (s : t) : t :=
  mkState (COOLDOWN_MODE s) (cooldownStartTime s) (rateLimitFailureCount s)
    (lastFailureTime s) (consecutiveCooldowns s) (apiCallsSinceLastReset s)
    (lastResetTime s) (testModeSuccessfulTrades s) (TEST_MODE s) (sellQueue s)
    (activeTraders s) (userSessions s) (bot s) v (timeouts s) (sent s).

Definition set_timeouts (v : list Timeout) (s : t) : t :=
  mkState (COOLDOWN_MODE s) (cooldownStartTime s) (rateLimitFailureCount s)
    (lastFailureTime s) (consecutiveCooldowns s) (apiCallsSinceLastReset s)
    (lastResetTime s) (testModeSuccessfulTrades s) (TEST_MODE s) (sellQueue s)
    (activeTraders s) (userSessions s) (bot s) (jupiterQueue s) v (sent s).

Definition set_sent (v : list (Z * Message)) (s : t) : t :=
  mkState (COOLDOWN_MODE s) (cooldownStartTime s) (rateLimitFailureCount s)
    (lastFailureTime s) (consecutiveCooldowns s) (apiCallsSinceLastReset s)
    (lastResetTime s) (testModeSuccessfulTrades s) (TEST_MODE s) (sellQueue s)
    (activeTraders s) (userSessions s) (bot s) (jupiterQueue s) (timeouts s) v.

Definition safeSendMessage (chat : Z) (m : Message) (s : t) : t :=
  if bot s then set_sent (sent s ++ [(chat, m)]) s else s.

(** *** [triggerCooldown] (lines 2658-2695) *)

(** The body of [activeTraders.forEach(userId => ...)] in the ceiling
    branch. *)
Definition stop_trader (s : t) (userId : nat) : t :=
  match userSessions s !! userId with
  | Some session =>
      if bot s then
        safeSendMessage (chatId session)
          (BotAutoStopped (consecutiveCooldowns s))
          (set_userSessions
             (<[userId := halted session]> (userSessions s)) s)
      else s
  | None => s
  end.

Definition triggerCooldown (now : Z) (s : t) : t :=
  let s1 :=
    set_consecutiveCooldowns (S (consecutiveCooldowns s))
      (set_rateLimitFailureCount 0
         (set_cooldownStartTime now (set_COOLDOWN_MODE true s))) in
  if (MAX_CONSECUTIVE_COOLDOWNS <=? consecutiveCooldowns s1)%nat
  then fold_left stop_trader (activeTraders s1) s1
  else s1.

(** *** [recordRateLimitFailure] (lines 2609-2625)

    [now] is the reading of [Date.now()]; the second reading, taken by
    [triggerCooldown] in the same synchronous call, is taken to be the
    same. *)
Definition recordRateLimitFailure (now : Z) (s : t) : t :=
  let s1 :=
    if decide (now - lastFailureTime s > FAILURE_WINDOW)
    then set_rateLimitFailureCount 0 s
    else s in
  let s2 :=
    set_lastFailureTime now
      (set_rateLimitFailureCount (S (rateLimitFailureCount s1)) s1) in
  if (RATE_LIMIT_THRESHOLD <=? rateLimitFailureCount s2)%nat
     && negb (COOLDOWN_MODE s2)
  then triggerCooldown now s2
  else s2.

Definition resetCooldownCounters (s : t) : t :=
  set_lastFailureTime 0 (set_rateLimitFailureCount 0 s).

(** *** [checkAndExitCooldown] (lines 2749-2843)

    An [async] function: it runs to its next [await], and is resumed with
    what the awaited operation produced.  The awaited operations
    ([sleep], [testRateLimitRecovery], [buildSellQueue],
    [processSellQueue], [testResumptionWithOneWallet]) are collaborators:
    their verdicts are inputs, and what they and the other workers do to
    the state while the call is suspended happens between two resumptions. *)
Inductive ExitAwait : Type :=
| VerifyDelay        (* [await sleep(5000)], line 2768 *)
| RateLimitTest      (* [await testRateLimitRecovery()] *)
| BuildSellQueue     (* [await buildSellQueue(...)] *)
| ProcessSellQueue   (* [await processSellQueue(...)] *)
| FinalWait          (* [await sleep(30000)] *)
| ResumptionTest.    (* [await testResumptionWithOneWallet(...)] *)

Inductive Progress : Type :=
| Returned (result : bool)
| Awaiting (k : ExitAwait).

(** Lines 2803-2842: the part after the resumption test passed. *)
Definition notify_cooldown_complete (s : t) (userId : nat) : t :=
  match userSessions s !! userId with
  | Some userSession =>
      if bot s then safeSendMessage (chatId userSession) CooldownComplete s
      else s
  | None => s
  end.

Definition leave_cooldown (now : Z) (s : t) : t :=
  let s1 :=
    set_jupiterQueue (RequestQueue.setRequestsPerSecond 2%Q (jupiterQueue s)) s in
  let s2 := set_timeouts (timeouts s1 ++ [mkTimeout (now + 120000) RestoreRate]) s1 in
  let s3 :=
    set_consecutiveCooldowns 0
      (set_apiCalls 0 now
         (set_rateLimitFailureCount 0 (set_COOLDOWN_MODE false s2))) in
  let s4 := if TEST_MODE s3 then set_testModeSuccessfulTrades 0 s3 else s3 in
  fold_left notify_cooldown_complete (activeTraders s4) s4.

(** From the call to the first [await] or [return]. *)
Definition checkAndExitCooldown (now : Z) (s : t) : Progress * t :=
  if negb (COOLDOWN_MODE s) then (Returned true, s)
  else
    let cooldownElapsed := now - cooldownStartTime s in
    if cooldownElapsed <? COOLDOWN_DURATION then (Returned false, s)
    else (Awaiting VerifyDelay, s).

(** From the [await] [k], resumed at time [now] with the verdict
    [passed] of the awaited test (ignored by the other awaits), to the
    next [await] or [return]. *)
Definition resume_exit (k : ExitAwait) (passed : bool) (now : Z) (s : t)
  : Progress * t :=
  match k with
  | VerifyDelay => (Awaiting RateLimitTest, s)
  | RateLimitTest =>
      if negb passed then (Returned false, set_cooldownStartTime now s)
      else (Awaiting BuildSellQueue, s)
  | BuildSellQueue =>
      if (0 <? length (sellQueue s))%nat then (Awaiting ProcessSellQueue, s)
      else (Awaiting FinalWait, s)
  | ProcessSellQueue => (Awaiting FinalWait, s)
  | FinalWait => (Awaiting ResumptionTest, s)
  | ResumptionTest =>
      if negb passed then (Returned false, set_cooldownStartTime now s)
      else (Returned true, leave_cooldown now s)
  end.

(** One call seen from outside: the resumptions of the call, and
    between them anything the rest of the program does to the state. *)
Inductive ExitStep : Type :=
| Meanwhile (f : t → t)
| Resumed (passed : bool) (now : Z).

Definition exit_step (p : Progress * t) (e : ExitStep) : Progress * t :=
  match p.1, e with
  | Returned _, _ => p
  | Awaiting k, Meanwhile f => (Awaiting k, f p.2)
  | Awaiting k, Resumed passed now => resume_exit k passed now p.2
  end.

Definition exit_run (p : Progress * t) (steps : list ExitStep) : Progress * t :=
  fold_left exit_step steps p.

(** A pending timeout runs (line 2810-2813). *)
Definition run_callback (c : Callback) (s : t) : t :=
  match c with
  | RestoreRate =>
      set_jupiterQueue (RequestQueue.setRequestsPerSecond 4%Q (jupiterQueue s)) s
  end.

Definition run_timeout (n : nat) (now : Z) (s : t) : t :=
  match timeouts s !! n with
  | Some tm =>
      if fires_at tm <=? now
      then run_callback (callback tm) (set_timeouts (delete n (timeouts s)) s)
      else s
  | None => s
  end.


(** What the coordinator keeps true: outside Cooldown the
    consecutive-cooldown counter is 0, and it never exceeds 1. *)
Definition counter_bounded (s : t) : Prop :=
  (COOLDOWN_MODE s = false → consecutiveCooldowns s = 0%nat) ∧
  (consecutiveCooldowns s ≤ 1)%nat.

(** *** The coordinator among the workers

    The calls the trading loops make on the coordinator, in the order
    in which the single thread runs them.  Several loops may be inside
    [checkAndExitCooldown] at once, each suspended at one of its awaits:
    [suspended] lists them.  [Elsewhere f] is any other code of the
    program, running between two of these calls. *)
Inductive Op : Type :=
| RateLimitFailure (now : Z)                  (* [recordRateLimitFailure()] *)
| TradeSucceeded                              (* [resetCooldownCounters()] *)
| CallExit (now : Z)                          (* [checkAndExitCooldown(...)] *)
| ResumeExit (n : nat) (passed : bool) (now : Z)
| TimeoutFires (n : nat) (now : Z)
| Elsewhere (f : t → t).

Record System : Type := mkSystem {
  globals : t;
  suspended : list ExitAwait
}.

Definition system_step (w : System) (op : Op) : System :=
  match op with
  | RateLimitFailure now =>
      mkSystem (recordRateLimitFailure now (globals w)) (suspended w)
  | TradeSucceeded =>
      mkSystem (resetCooldownCounters (globals w)) (suspended w)
  | CallExit now =>
      match checkAndExitCooldown now (globals w) with
      | (Returned _, g) => mkSystem g (suspended w)
      | (Awaiting k, g) => mkSystem g (suspended w ++ [k])
      end
  | ResumeExit n passed now =>
      match suspended w !! n with
      | Some k =>
          match resume_exit k passed now (globals w) with
          | (Returned _, g) => mkSystem g (delete n (suspended w))
          | (Awaiting k', g) => mkSystem g (<[n := k']> (suspended w))
          end
      | None => w
      end
  | TimeoutFires n now =>
      mkSystem (run_timeout n now (globals w)) (suspended w)
  | Elsewhere f => mkSystem (f (globals w)) (suspended w)
  end.

Definition system_run (w : System) (ops : list Op) : System :=
  fold_left system_step ops w.

(** No "BOT AUTO-STOPPED" message was sent. *)
Definition no_stop_sent (s : t) : Prop :=
  ∀ chat n, (chat, BotAutoStopped n) ∉ sent s.

(** The mode and the counter of consecutive cooldowns are written by
    [triggerCooldown] and [checkAndExitCooldown] only, and the
    auto-stop message is sent by [triggerCooldown] only: code elsewhere
    leaves them as they are. *)
Definition elsewhere (op : Op) : Prop :=
  match op with
  | Elsewhere f =>
      ∀ s, COOLDOWN_MODE (f s) = COOLDOWN_MODE s ∧
           consecutiveCooldowns (f s) = consecutiveCooldowns s ∧
           (no_stop_sent s → no_stop_sent (f s))
  | _ => True
  end.

(** The awaits a call went through, oldest first, each with the verdict
    and the time it was resumed with. *)
Fixpoint exit_trace (p : Progress * t) (steps : list ExitStep)
  : list (ExitAwait * bool * Z) :=
  match steps with
  | [] => []
  | e :: rest =>
      match p.1, e with
      | Awaiting k, Resumed passed now =>
          (k, passed, now) :: exit_trace (exit_step p e) rest
      | _, _ => exit_trace (exit_step p e) rest
      end
  end.

(** The awaits of the recovery protocol from [k] on; [sells] tells
    whether [buildSellQueue] found tokens to sell. *)
Definition protocol_from (k : ExitAwait) (sells : bool) : list ExitAwait :=
  let tail := [FinalWait; ResumptionTest] in
  let selling := if sells then ProcessSellQueue :: tail else tail in
  match k with
  | VerifyDelay => VerifyDelay :: RateLimitTest :: BuildSellQueue :: selling
  | RateLimitTest => RateLimitTest :: BuildSellQueue :: selling
  | BuildSellQueue => BuildSellQueue :: selling
  | ProcessSellQueue => ProcessSellQueue :: tail
  | FinalWait => tail
  | ResumptionTest => [ResumptionTest]
  end.

(** The whole protocol, from the first await. *)
Definition protocol (sells : bool) : list ExitAwait :=
  protocol_from VerifyDelay sells.

End WithResult.

Arguments t : clear implicits.
Arguments ExitStep : clear implicits.
Arguments Op : clear implicits.
Arguments System : clear implicits.

End Cooldown.

(** ** Adaptive rate (src/usage-tracker.mjs, lines 2575-2579 and 2627-2656) *)

Module Adaptive.

Definition ADAPTIVE_CHECK_INTERVAL : Z := 60000.

Section WithResult.

Context {any : Type}.

(** The module-level variables [recordSuccess] and [recordFailure] work
    on, and the shared queue.  Nothing in the program writes
    [recentFailureRate]. *)
Record t : Type := mkAdaptive {
  consecutiveSuccesses : nat;
  recentFailureRate : Q;
  lastAdaptiveCheck : Z;
  jupiterQueue : RequestQueue.t any
}.

(** The state when the module is loaded at time [t0]. *)
Definition initial (t0 : Z) : t :=
  {| consecutiveSuccesses := 0; recentFailureRate := 0%Q;
     lastAdaptiveCheck := t0;
     jupiterQueue := RequestQueue.new_RequestQueue (inject_Z t0) |}.

(** [recordSuccess()]; [now] is the reading of [Date.now()], taken to be
    the same at both places of the call. *)
Definition recordSuccess (now : Z) (s : t) : t :=
  let successes := S (consecutiveSuccesses s) in
  if (10 <=? successes)%nat && (ADAPTIVE_CHECK_INTERVAL <? now - lastAdaptiveCheck s)
  then
    let currentRate := 3%Q in
    {| consecutiveSuccesses := 0;
       recentFailureRate := recentFailureRate s;
       lastAdaptiveCheck := now;
       jupiterQueue :=
         if RequestQueue.Qltb (recentFailureRate s) (5 # 100)
         then RequestQueue.setRequestsPerSecond
                (Qmin (currentRate + (1 # 2)) 5) (jupiterQueue s)
         else jupiterQueue s |}
  else
    {| consecutiveSuccesses := successes;
       recentFailureRate := recentFailureRate s;
       lastAdaptiveCheck := lastAdaptiveCheck s;
       jupiterQueue := jupiterQueue s |}.

(** [recordFailure()]. *)
Definition recordFailure (now : Z) (s : t) : t :=
  if ADAPTIVE_CHECK_INTERVAL <? now - lastAdaptiveCheck s
  then
    let currentRate := 3%Q in
    {| consecutiveSuccesses := 0;
       recentFailureRate := recentFailureRate s;
       lastAdaptiveCheck := now;
       jupiterQueue :=
         RequestQueue.setRequestsPerSecond
           (Qmax (currentRate - (1 # 2)) 1) (jupiterQueue s) |}
  else
    {| consecutiveSuccesses := 0;
       recentFailureRate := recentFailureRate s;
       lastAdaptiveCheck := lastAdaptiveCheck s;
       jupiterQueue := jupiterQueue s |}.

(** The outcome of a trade, as the trading code reports it. *)
Inductive Report : Type :=
| Success (now : Z)
| Failure (now : Z).

Definition report (s : t) (r : Report) : t :=
  match r with
  | Success now => recordSuccess now s
  | Failure now => recordFailure now s
  end.

Definition reports (s : t) (rs : list Report) : t := fold_left report rs s.

End WithResult.

Arguments t : clear implicits.

End Adaptive.

(** ** Sell queue of the recovery (src/usage-tracker.mjs, lines 2887-3029)

    [buildSellQueue] and [processSellQueue] are awaited by
    [checkAndExitCooldown].  Each is a loop over the wallets with
    requests awaited in its body; what the requests gave is an input
    here.  The two functions are the only code that writes [sellQueue],
    and the model is of one call at a time: no other call of them runs
    while one is suspended.  The sleeps between the requests (500 ms,
    3 s, 5 s) change no variable and are left out. *)

Module SellQueue.

(** An entry of [sellQueue] ([interface WalletWithTokens]); the wallet
    is named by the base58 text of its address. *)
Record WalletWithTokens : Type := mkWalletWithTokens {
  wallet : string;
  walletNumber : nat;
  shortWallet : string;
  tokenAmount : Q;
  tokenBalance : string
}.

(** What the two requests made for one wallet gave: no token account
    ([getCachedTokenAccount] returned [null]), the [uiAmount] (which may
    be [null]) and the raw [amount] of [getTokenAccountBalance], or an
    error thrown by one of them. *)
Inductive Inventory : Type :=
| NoTokenAccount
| TokenBalance (uiAmount : option Q) (amount : string)
| InventoryFailed.

(** How the sell of one wallet went. *)
Inductive SellOutcome : Type :=
| NoTransaction   (* no [sellTx] was built *)
| Sold            (* [execute] returned a signature *)
| NotExecuted     (* [execute] returned none *)
| NoRoute         (* an error with "COULD_NOT_FIND_ANY_ROUTE" *)
| SellFailed.     (* any other error *)

Inductive Message : Type :=
| InventoryComplete (withTokens checked : nat)
| SellComplete (successfulSells failedSells processed : nat) (warning : bool).

(** [sellQueue], [isSellQueueProcessing], the two counters of
    [session.tradingStats] the sells move, the Telegram client and the
    messages sent to the chat of the session. *)
Record t : Type := mkState {
  sellQueue : list WalletWithTokens;
  isSellQueueProcessing : bool;
  totalSells : nat;
  successfulTxs : nat;
  bot : bool;
  sent : list Message
}.

Definition safeSendMessage (m : Message) (s : t) : t :=
  if bot s
  then mkState (sellQueue s) (isSellQueueProcessing s) (totalSells s)
         (successfulTxs s) (bot s) (sent s ++ [m])
  else s.

(** [address.substring(0, 6) + '...' + address.substring(address.length - 4)]. *)
Definition short (address : string) : string :=
  String.substring 0 6 address +:+ "..." +:+
  String.substring (String.length address - 4) 4 address.

(** The body of the loop of [buildSellQueue] for the wallet at index
    [i]: the entry it pushes, if it pushes one. *)
Definition inventory_entry (i : nat) (address : string) (found : Inventory)
  : option WalletWithTokens :=
  match found with
  | TokenBalance uiAmount amount =>
      let tokenAmount := default 0%Q uiAmount in
      if RequestQueue.Qltb 0 tokenAmount
      then Some (mkWalletWithTokens address (i + 1) (short address)
                   tokenAmount amount)
      else None
  | NoTokenAccount | InventoryFailed => None
  end.

(** [for (let i = 0; i < tradingWallets.length; i++)], from [i] on, on
    the wallets left; [queue] is [sellQueue]. *)
Fixpoint inventory (i : nat) (wallets : list string) (found : nat → Inventory)
    (queue : list WalletWithTokens) : list WalletWithTokens :=
  match wallets with
  | [] => queue
  | address :: rest =>
      inventory (S i) rest found
        match inventory_entry i address (found i) with
        | Some entry => queue ++ [entry]
        | None => queue
        end
  end.

Definition buildSellQueue (tradingWallets : list string)
    (found : nat → Inventory) (s : t) : t :=
  let queue := inventory 0 tradingWallets found [] in
  let s1 := mkState queue (isSellQueueProcessing s) (totalSells s)
              (successfulTxs s) (bot s) (sent s) in
  if (0 <? length queue)%nat
  then safeSendMessage (InventoryComplete (length queue) (length tradingWallets)) s1
  else s1.

(** The locals [successfulSells] and [failedSells] and the two counters
    of the session. *)
Record Tally : Type := mkTally {
  successfulSells : nat;
  failedSells : nat;
  sells : nat;
  txs : nat
}.

(** The body of the loop of [processSellQueue] for one wallet. *)
Definition sell_one (outcome : SellOutcome) (n : Tally) : Tally :=
  match outcome with
  | Sold =>
      mkTally (S (successfulSells n)) (failedSells n) (S (sells n)) (S (txs n))
  | NoTransaction | NotExecuted | SellFailed =>
      mkTally (successfulSells n) (S (failedSells n)) (sells n) (txs n)
  | NoRoute => n
  end.

(** [for (let i = 0; i < sellQueue.length; i++)], from [i] on. *)
Fixpoint sell_all (i : nat) (items : list WalletWithTokens)
    (outcome : nat → SellOutcome) (n : Tally) : Tally :=
  match items with
  | [] => n
  | _ :: rest => sell_all (S i) rest outcome (sell_one (outcome i) n)
  end.

(** [processSellQueue], from the call to its first [await]: it returns
    at once on an empty queue and raises the flag otherwise. *)
Definition processSellQueue_start (s : t) : bool * t :=
  match sellQueue s with
  | [] => (false, s)
  | _ :: _ =>
      (true, mkState (sellQueue s) true (totalSells s) (successfulTxs s)
               (bot s) (sent s))
  end.

(** The loop and what follows it. *)
Definition processSellQueue_finish (outcome : nat → SellOutcome) (s : t) : t :=
  let n := sell_all 0 (sellQueue s) outcome
             (mkTally 0 0 (totalSells s) (successfulTxs s)) in
  let s1 := mkState (sellQueue s) (isSellQueueProcessing s) (sells n) (txs n)
              (bot s) (sent s) in
  let s2 := safeSendMessage
              (SellComplete (successfulSells n) (failedSells n)
                 (length (sellQueue s)) (0 <? failedSells n)%nat) s1 in
  mkState [] false (totalSells s2) (successfulTxs s2) (bot s2) (sent s2).

Definition processSellQueue (outcome : nat → SellOutcome) (s : t) : t :=
  let r := processSellQueue_start s in
  if r.1 then processSellQueue_finish outcome r.2 else r.2.

(** The outcomes of the first [n] sells that satisfy [p]. *)
Definition count (p : SellOutcome → bool) (outcome : nat → SellOutcome)
    (n : nat) : nat :=
  length (filter (λ i, p (outcome i)) (seq 0 n)).

Definition is_sold (o : SellOutcome) : bool :=
  match o with Sold => true | _ => false end.

Definition is_failed (o : SellOutcome) : bool :=
  match o with NoTransaction | NotExecuted | SellFailed => true | _ => false end.

Definition is_dust (o : SellOutcome) : bool :=
  match o with NoRoute => true | _ => false end.

End SellQueue.

(** ** Wallet cache (src/usage-tracker.mjs, lines 2550-2561, 2603-2605,
       3064-3199, 5118-5123 and 5306-5312)

    [walletCacheMap] maps the address of a wallet to an object that the
    functions below mutate in place, through the reference they read
    from the map before their [await]: an object may have been replaced
    in the map by the time the call that holds it is resumed.  The
    objects live in [objects], in the order of their creation, and the
    map holds their indices. *)

Module WalletCache.

Definition TOKEN_ACCOUNT_CACHE_TTL : Z := 60000.
Definition BALANCE_CACHE_TTL : Z := 15000.

(** The constant of the Solana library: lamports in one SOL. *)
Definition LAMPORTS_PER_SOL : Z := 1000000000.

Record CachedTokenAccount : Type := mkCachedTokenAccount {
  address : string;
  mint : string;
  owner : string;
  lastUpdated : Z
}.

(** [interface WalletCache]. *)
Record Entry : Type := mkEntry {
  tokenAccounts : gmap string CachedTokenAccount;
  lastBalanceCheck : Z;
  balance : Q
}.

Record t : Type := mkStore {
  objects : list Entry;
  walletCacheMap : gmap string nat
}.

Definition new_walletCacheMap : t := mkStore [] ∅.

(** The object a reference read from the map points to. *)
Definition deref (h : t) (cached : option nat) : option Entry :=
  cached ≫= λ r, objects h !! r.

(** [walletCacheMap.get(key)], dereferenced. *)
Definition entry_of (h : t) (key : string) : option Entry :=
  deref h (walletCacheMap h !! key).

(** A call suspended at its request: the key, the reference [cached]
    and the reading [now] it took before. *)
Record Pending : Type := mkPending {
  pending_key : string;
  pending_mint : string;
  pending_cached : option nat;
  pending_now : Z
}.

(** [getCachedBalance(publicKey, forceRefresh)] up to its [await]: the
    cached balance, or the suspended call. *)
Definition getCachedBalance (now : Z) (key : string) (forceRefresh : bool)
    (h : t) : Q + Pending :=
  let cached := walletCacheMap h !! key in
  match deref h cached with
  | Some entry =>
      if negb forceRefresh && (now - lastBalanceCheck entry <? BALANCE_CACHE_TTL)
      then inl (balance entry)
      else inr (mkPending key "" cached now)
  | None => inr (mkPending key "" cached now)
  end.

(** The rest of the call: [fetched] is the number of lamports
    [getBalance] returned, or [None] when it threw. *)
Definition getCachedBalance_resume (p : Pending) (fetched : option Z) (h : t)
  : Q * t :=
  match fetched with
  | Some lamports =>
      let solBalance := (inject_Z lamports / inject_Z LAMPORTS_PER_SOL)%Q in
      (solBalance,
       match pending_cached p with
       | None =>
           mkStore (objects h ++ [mkEntry ∅ (pending_now p) solBalance])
             (<[pending_key p := length (objects h)]> (walletCacheMap h))
       | Some r =>
           mkStore
             (alter (λ e, mkEntry (tokenAccounts e) (pending_now p) solBalance)
                r (objects h))
             (walletCacheMap h)
       end)
  | None =>
      (match deref h (pending_cached p) with
       | Some entry => balance entry
       | None => 0%Q
       end, h)
  end.

(** [getCachedTokenAccount(wallet, mint, forceRefresh)] up to its
    [await]: the cached address, or the suspended call. *)
Definition getCachedTokenAccount (now : Z) (walletKey mintKey : string)
    (forceRefresh : bool) (h : t) : string + Pending :=
  let cached := walletCacheMap h !! walletKey in
  let pending := mkPending walletKey mintKey cached now in
  match deref h cached with
  | Some entry =>
      if forceRefresh then inr pending
      else
        match tokenAccounts entry !! mintKey with
        | Some cachedAccount =>
            if now - lastUpdated cachedAccount <? TOKEN_ACCOUNT_CACHE_TTL
            then inl (address cachedAccount)
            else inr pending
        | None => inr pending
        end
  | None => inr pending
  end.

(** The rest of the call: [fetched] is the address
    [getAssociatedTokenAddress] returned, or [None] when it threw. *)
Definition getCachedTokenAccount_resume (p : Pending) (fetched : option string)
    (h : t) : option string * t :=
  match fetched with
  | Some tokenAccount =>
      let account :=
        mkCachedTokenAccount tokenAccount (pending_mint p) (pending_key p)
          (pending_now p) in
      (Some tokenAccount,
       match pending_cached p with
       | None =>
           mkStore (objects h ++ [mkEntry {[ pending_mint p := account ]} 0 0%Q])
             (<[pending_key p := length (objects h)]> (walletCacheMap h))
       | Some r =>
           mkStore
             (alter (λ e, mkEntry (<[pending_mint p := account]> (tokenAccounts e))
                            (lastBalanceCheck e) (balance e))
                r (objects h))
             (walletCacheMap h)
       end)
  | None => (None, h)
  end.

(** Lines 5119-5123 of [performBuy], after a buy:
    [if (cached) cached.lastBalanceCheck = 0]. *)
Definition invalidate_balance (key : string) (h : t) : t :=
  match walletCacheMap h !! key with
  | Some r =>
      mkStore (alter (λ e, mkEntry (tokenAccounts e) 0 (balance e)) r (objects h))
        (walletCacheMap h)
  | None => h
  end.

(** Lines 5307-5312 of [performSell], after a sell: the same, and
    [cached.tokenAccounts.delete(baseMint.toBase58())]. *)
Definition invalidate_after_sell (key mintKey : string) (h : t) : t :=
  match walletCacheMap h !! key with
  | Some r =>
      mkStore
        (alter (λ e, mkEntry (delete mintKey (tokenAccounts e)) 0 (balance e))
           r (objects h))
        (walletCacheMap h)
  | None => h
  end.

(** Every reference of the map points to an object, and no two keys
    share one. *)
Definition well_formed (h : t) : Prop :=
  (∀ key r, walletCacheMap h !! key = Some r → (r < length (objects h))%nat) ∧
  (∀ key1 key2 r, walletCacheMap h !! key1 = Some r →
     walletCacheMap h !! key2 = Some r → key1 = key2).

(** The reference a suspended call holds points to an object. *)
Definition holds_object (h : t) (p : Pending) : Prop :=
  ∀ r, pending_cached p = Some r → (r < length (objects h))%nat.

(** The body of [accountInfos.forEach] in [batchCheckBalances] (lines
    3118-3136) for one wallet: [info] is the number of lamports of the
    account, or [None] for an account that does not exist.  The map is
    read again here, after the request. *)
Definition batch_write (now : Z) (h : t) (answer : string * option Z) : t :=
  let balance :=
    match answer.2 with
    | Some lamports => (inject_Z lamports / inject_Z LAMPORTS_PER_SOL)%Q
    | None => 0%Q
    end in
  match walletCacheMap h !! answer.1 with
  | Some r =>
      mkStore (alter (λ e, mkEntry (tokenAccounts e) now balance) r (objects h))
        (walletCacheMap h)
  | None =>
      mkStore (objects h ++ [mkEntry ∅ now balance])
        (<[answer.1 := length (objects h)]> (walletCacheMap h))
  end.

(** *** The cache among its callers

    Every way the program writes the cache, in the order in which the
    single thread runs it: the calls of the two functions and their
    resumptions, in any interleaving, the invalidations after a buy and
    after a sell, and the writes of [batchCheckBalances] when its
    request succeeded (when it failed it calls [getCachedBalance] for
    each wallet). *)
Inductive Event : Type :=
| CallBalance (now : Z) (key : string) (forceRefresh : bool)
| ResumeBalance (n : nat) (fetched : option Z)
| CallTokenAccount (now : Z) (walletKey mintKey : string) (forceRefresh : bool)
| ResumeTokenAccount (n : nat) (fetched : option string)
| Invalidate (key : string)
| InvalidateAfterSell (key mintKey : string)
| BatchWrites (now : Z) (answers : list (string * option Z)).

(** The cache and the calls suspended at their request. *)
Record World : Type := mkWorld {
  store : t;
  balance_calls : list Pending;
  token_calls : list Pending
}.

Definition step (w : World) (e : Event) : World :=
  match e with
  | CallBalance now key forceRefresh =>
      match getCachedBalance now key forceRefresh (store w) with
      | inl _ => w
      | inr p => mkWorld (store w) (balance_calls w ++ [p]) (token_calls w)
      end
  | ResumeBalance n fetched =>
      match balance_calls w !! n with
      | Some p =>
          mkWorld (getCachedBalance_resume p fetched (store w)).2
            (delete n (balance_calls w)) (token_calls w)
      | None => w
      end
  | CallTokenAccount now walletKey mintKey forceRefresh =>
      match getCachedTokenAccount now walletKey mintKey forceRefresh (store w) with
      | inl _ => w
      | inr p => mkWorld (store w) (balance_calls w) (token_calls w ++ [p])
      end
  | ResumeTokenAccount n fetched =>
      match token_calls w !! n with
      | Some p =>
          mkWorld (getCachedTokenAccount_resume p fetched (store w)).2
            (balance_calls w) (delete n (token_calls w))
      | None => w
      end
  | Invalidate key =>
      mkWorld (invalidate_balance key (store w)) (balance_calls w) (token_calls w)
  | InvalidateAfterSell key mintKey =>
      mkWorld (invalidate_after_sell key mintKey (store w))
        (balance_calls w) (token_calls w)
  | BatchWrites now answers =>
      mkWorld (fold_left (batch_write now) answers (store w))
        (balance_calls w) (token_calls w)
  end.

Definition run (w : World) (evs : list Event) : World := fold_left step evs w.

Definition new_World : World := mkWorld new_walletCacheMap [] [].

(** What every write keeps: the references valid, the objects in place
    and the keys in the map. *)
Definition kept (h h' : t) : Prop :=
  well_formed h' ∧
  (length (objects h) ≤ length (objects h'))%nat ∧
  ∀ key, is_Some (walletCacheMap h !! key) → is_Some (walletCacheMap h' !! key).

End WalletCache.

(** ** Diagnostic script (src/unnamed/part_003, first document) *)

Module Diagnostic.

Definition MAX_RETRIES : nat := 3.
Definition RETRY_DELAY_MS : Z := 1500.

Section WithTransaction.

(** A signed [VersionedTransaction]. *)
Context {transaction : Type}.

(** How the [try] block of one attempt ends: with the signed
    transaction, or with an error; [rate_limited] is the value of
    [/429|Rate limit/i.test(err.message)]. *)
Inductive Attempt : Type :=
| Built (tx : transaction)
| Threw (rate_limited : bool).

(** What a call has done so far: the back-off sleeps it took, oldest
    first, and its result if it has returned: the transaction or
    [null].  A call whose request has not been answered has no result
    yet. *)
Record Call : Type := mkCall {
  sleeps : list Z;
  result : option (option transaction)
}.

(** [getBuyTx(wallet, amount, retries)], and [getSellTx], which differs
    in the requests it sends only.  [attempts] lists how the attempts
    the network has answered ended, the attempt of this call first. *)
Fixpoint getBuyTx (attempts : list Attempt) (retries : nat) : Call :=
  match attempts with
  | [] => mkCall [] None
  | Built tx :: _ => mkCall [] (Some (Some tx))
  | Threw rate_limited :: rest =>
      if (retries <? MAX_RETRIES)%nat && rate_limited then
        let delay := RETRY_DELAY_MS * (Z.of_nat retries + 1) in
        let again := getBuyTx rest (S retries) in
        mkCall (delay :: sleeps again) (result again)
      else mkCall [] (Some None)
  end.

(** The result of [sendTx(wallet, transaction)]: [sent] tells whether
    [sendAndConfirmTransaction] was called. *)
Record SendResult : Type := mkSendResult {
  success : bool;
  sent : bool
}.

(** [sendTx]; [confirmed] tells whether [sendAndConfirmTransaction]
    returns a signature or throws. *)
Definition sendTx (tx : option transaction) (confirmed : bool) : SendResult :=
  match tx with
  | None => mkSendResult false false
  | Some _ => mkSendResult confirmed true
  end.

End WithTransaction.

Arguments Attempt : clear implicits.
Arguments Call : clear implicits.

End Diagnostic.

(** ** States and runs used as instances *)

Module Scenario.

(** The state used by the instances below: in Cooldown since time 0,
    counter at [n], one active trader (user 7, chat 42). *)
Definition cooling (n : nat) : Cooldown.t nat :=
  Cooldown.mkState true 0 0 0 n 0 0 0 false [] [7%nat]
    {[ 7%nat := Cooldown.mkSession 42 true ]} true
    (RequestQueue.new_RequestQueue 0) [] [].

(** The awaits of one successful recovery, with a rate-limit failure
    recorded by another worker while the call waits. *)
Definition recovery : list (Cooldown.ExitStep nat) :=
  [ Cooldown.Resumed true 65000;
    Cooldown.Resumed true 65400;
    Cooldown.Meanwhile (Cooldown.recordRateLimitFailure 65500);
    Cooldown.Resumed true 66000;
    Cooldown.Resumed true 96000;
    Cooldown.Resumed true 110000 ].





(** A queue created when the clock reads 1000 ms. *)
Definition jupiterQueue : RequestQueue.t nat := RequestQueue.new_RequestQueue 1000.

(** While item [i] is running and another item waits: the next
    [process()] finds the slot taken and sleeps 100 ms; the work of [i]
    ends and its [.finally] callback runs; the loop wakes up, finds the
    last dispatch 110 ms old, sleeps the 140 ms that are missing and
    dispatches the head of the queue. *)
Definition serve_after (i : nat) : list (RequestQueue.Event nat) :=
  [ RequestQueue.Tick 10; RequestQueue.Fire 0;
    RequestQueue.Finish i (RequestQueue.resolved 0%nat); RequestQueue.Release i;
    RequestQueue.Tick 100; RequestQueue.Fire 0;
    RequestQueue.Tick 140; RequestQueue.Fire 0 ].

(** Three sells submitted in a row with priority [high]: the first is
    dispatched at once, the other two wait. *)
Definition three_sells : list (RequestQueue.Event nat) :=
  [ RequestQueue.Add RequestQueue.high; RequestQueue.Add RequestQueue.high;
    RequestQueue.Add RequestQueue.high ] ++ serve_after 0 ++ serve_after 2.

(** Two quotes are submitted, then the queue is cleared. *)
Definition cleared : list (RequestQueue.Event nat) :=
  [ RequestQueue.Add RequestQueue.normal; RequestQueue.Add RequestQueue.normal;
    RequestQueue.ClearQueue ].

(** Two quotes are submitted; the second waits. *)
Definition two_quotes : list (RequestQueue.Event nat) :=
  [ RequestQueue.Add RequestQueue.normal; RequestQueue.Add RequestQueue.normal ].



End Scenario.

(** * Properties *)

(** ** Quote cache *)

Section QuoteCacheFacts.

Import QuoteCache.

Context {any : Type}.

Implicit Types (c : QuoteCache.t any) (cached : CachedQuote any).

Lemma getCacheKey_bucket inputMint outputMint (a1 a2 : Z) :
  a1 / 1000000 = a2 / 1000000 →
  getCacheKey inputMint outputMint a1 = getCacheKey inputMint outputMint a2.
Proof. unfold getCacheKey, roundedAmount. by intros ->. Qed.

Lemma get_hit now inputMint outputMint a c cached :
  cache c !! getCacheKey inputMint outputMint a = Some cached →
  now - timestamp cached ≤ TTL →
  (get now inputMint outputMint a c).1 = Some (quote cached).
Proof.
  intros Hlook Hage. unfold get. rewrite Hlook. cbn.
  destruct (decide _) as [Hold|_]; [lia | done].
Qed.


(** What the loop of [cleanup] has done after visiting the entries of
    [seen], started on the map [m0] with [removed = 0]. *)
Lemma cleanup_loop now (m0 seen : gmap string (CachedQuote any)) :
  let r := map_fold (cleanup_visit now) (m0, 0%nat) seen in
  (∀ key, r.1 !! key =
          match seen !! key with
          | Some cached => if decide (expired now cached) then None else m0 !! key
          | None => m0 !! key
          end) ∧
  r.2 = size (filter (λ kv, expired now kv.2) seen).
Proof.
  cbn. revert seen.
  apply (map_fold_weak_ind (λ r seen,
    (∀ key, r.1 !! key =
            match seen !! key with
            | Some cached => if decide (expired now cached) then None else m0 !! key
            | None => m0 !! key
            end) ∧
    r.2 = size (filter (λ kv, expired now kv.2) seen))).
  - split; [done|]. by rewrite map_filter_empty, map_size_empty.
  - intros key cached seen [m n] Hfresh [IHm IHn]. cbn in IHm, IHn.
    unfold cleanup_visit, expired in *. cbn.
    destruct (decide (now - timestamp cached > TTL)) as [Hold|Hyoung]; cbn.
    + split.
      * intros k. destruct (decide (key = k)) as [->|Hne].
        -- rewrite lookup_delete_eq, lookup_insert_eq.
           by rewrite decide_True.
        -- rewrite lookup_delete_ne, lookup_insert_ne by done. apply IHm.
      * rewrite map_filter_insert_True by done.
        rewrite map_size_insert_None; [by rewrite IHn|].
        apply map_lookup_filter_None; by left.
    + split.
      * intros k. destruct (decide (key = k)) as [->|Hne].
        -- rewrite lookup_insert_eq, decide_False by done.
           by rewrite IHm, Hfresh.
        -- rewrite lookup_insert_ne by done. apply IHm.
      * rewrite map_filter_insert_not'; [done | done |].
        intros y. by rewrite Hfresh.
Qed.

(** C7.  An entry older than the TTL is never returned as a hit.  If the
    entry stored under the key of the request is older than 20000 ms,
    [get] returns [null], counts a miss and deletes that entry (and
    nothing else); conversely every payload [get] returns comes from an
    entry stored under the key whose age is at most the TTL. *)
Theorem get_never_returns_expired now inputMint outputMint a c :
  let key := getCacheKey inputMint outputMint a in
  let r := get now inputMint outputMint a c in
  (∀ cached, cache c !! key = Some cached → expired now cached →
     r.1 = None ∧
     cache r.2 = delete key (cache c) ∧ cache r.2 !! key = None ∧
     misses r.2 = S (misses c) ∧ hits r.2 = hits c) ∧
  (∀ payload, r.1 = Some payload →
     ∃ cached, cache c !! key = Some cached ∧ quote cached = payload ∧
               now - timestamp cached ≤ TTL ∧ ¬ expired now cached).
Proof.
  cbn. unfold get, expired. split.
  - intros cached -> Hold. cbn. rewrite decide_True by done. cbn.
    by rewrite lookup_delete_eq.
  - intros payload. destruct (cache c !! _) as [cached|]; [|done]. cbn.
    destruct (decide _) as [|Hyoung]; [done|]. cbn. intros [= <-].
    exists cached. repeat split; [lia | done].
Qed.


(** C10 (amended).  [cleanup] deletes exactly the entries older than
    the TTL and keeps every other entry as it is.  The number of deleted
    entries is the value of its local [removed], printed when it is
    positive; the call itself returns nothing ([cleanup(): void]). *)
Theorem cleanup_evicts_expired now c :
  let r := cleanup now c in
  cache (after r) = filter (λ kv, ¬ expired now kv.2) (cache c) ∧
  (∀ key, cache (after r) !! key =
          match cache c !! key with
          | Some cached => if decide (expired now cached) then None else Some cached
          | None => None
          end) ∧
  removed r = size (filter (λ kv, expired now kv.2) (cache c)) ∧
  (size (cache (after r)) + removed r = size (cache c))%nat ∧
  console r = (if decide (0 < removed r)%nat then [CleanedUp (removed r)] else []) ∧
  returned r = Undefined ∧
  hits (after r) = hits c ∧ misses (after r) = misses c.
Proof.
  cbn. destruct (cleanup_loop now (cache c) (cache c)) as [Hm Hn]. cbn in Hm, Hn.
  assert (Hlook : ∀ key,
    (map_fold (cleanup_visit now) (cache c, 0%nat) (cache c)).1 !! key =
    match cache c !! key with
    | Some cached => if decide (expired now cached) then None else Some cached
    | None => None
    end).
  { intros key. rewrite Hm. by destruct (cache c !! key) eqn:E. }
  assert (Hfilter :
    (map_fold (cleanup_visit now) (cache c, 0%nat) (cache c)).1
    = filter (λ kv, ¬ expired now kv.2) (cache c)).
  { apply map_eq. intros key. rewrite Hlook, map_lookup_filter.
    destruct (cache c !! key) as [cached|]; [|done]. cbn.
    destruct (decide (expired now cached)).
    - by rewrite option_guard_False by tauto.
    - by rewrite option_guard_True. }
  repeat split; try done.
  rewrite Hfilter, Hn.
  pose proof (map_filter_union_complement (λ kv, expired now kv.2) (cache c)) as Hu.
  rewrite <- Hu at 3.
  rewrite map_size_disj_union by apply map_disjoint_filter_complement. lia.
Qed.

End QuoteCacheFacts.

Section QuoteCacheInstances.

Import QuoteCache.



(** The hit rate is computed in doubles: 23 hits and 17 misses give 57,
    where the exact quotient would give 57.5 and round to 58; 1 hit in 3
    gives 33 and 3 in 3 give 100. *)
Lemma getHitRate_in_doubles :
  getHitRate (mkCache (any:=nat) ∅ 23 17) = number 57 ∧
  getHitRate (mkCache (any:=nat) ∅ 1 2) = number 33 ∧
  getHitRate (mkCache (any:=nat) ∅ 3 0) = number 100 ∧
  getHitRate (mkCache (any:=nat) ∅ 0 0) = number 0.
Proof. repeat split; vm_compute; reflexivity. Qed.

(** On an instance: an entry stored at time 0 and read at 20001 ms. *)
Lemma get_never_returns_expired_witness :
  let c := set 0 "SOL" "USDC" 1000000 7%nat new_QuoteCache in
  (get 20001 "SOL" "USDC" 1000000 c).1 = None ∧
  cache (get 20001 "SOL" "USDC" 1000000 c).2
    !! getCacheKey "SOL" "USDC" 1000000 = None.
Proof.
  cbn zeta.
  pose proof (proj1 (get_never_returns_expired 20001 "SOL" "USDC" 1000000
    (set 0 "SOL" "USDC" 1000000 7%nat new_QuoteCache))
    (mkCachedQuote 7%nat 0 "SOL" "USDC" 1000000)) as H.
  cbn zeta in H.
  destruct H as (Hmiss & _ & Hgone & _).
  - unfold set. cbn. apply lookup_insert_eq.
  - unfold expired, TTL. cbn. lia.
  - split; [exact Hmiss | exact Hgone].
Defined.

(** The count is not returned: on a cache whose only entry is expired,
    [cleanup] deletes one entry and the call returns [undefined], not 1. *)
Lemma cleanup_returns_no_count :
  let c := set 0 "SOL" "USDC" 1000000 7%nat new_QuoteCache in
  size (filter (λ kv, expired 30000 kv.2) (cache c)) = 1%nat ∧
  removed (cleanup 30000 c) = 1%nat ∧
  returned (cleanup 30000 c) ≠ Num 1.
Proof.
  cbn zeta. split; [|split].
  - vm_compute. reflexivity.
  - vm_compute. reflexivity.
  - discriminate.
Qed.

End QuoteCacheInstances.

(** ** Request queue *)

Section ListFacts.

Import RequestQueue.

Lemma remove_id_cons (i x : nat) (l : list nat) :
  remove_id i (x :: l) =
    if decide (x = i) then remove_id i l else x :: remove_id i l.
Proof.
  unfold remove_id. rewrite filter_cons.
  destruct (decide (x ≠ i)), (decide (x = i)); done.
Qed.

Lemma remove_id_absent (i : nat) (l : list nat) : i ∉ l → remove_id i l = l.
Proof.
  induction l as [|x l IH]; intros Hnin; [done|].
  apply not_elem_of_cons in Hnin as [Hne Hnin].
  rewrite remove_id_cons, decide_False by done. by rewrite IH.
Qed.

Lemma remove_id_present (i : nat) (l : list nat) :
  NoDup l → i ∈ l → l ≡ₚ i :: remove_id i l.
Proof.
  induction l as [|x l IH]; intros Hnd Hin; [by apply elem_of_nil in Hin|].
  apply NoDup_cons in Hnd as [Hx Hnd]. rewrite remove_id_cons.
  destruct (decide (x = i)) as [->|Hne].
  - by rewrite remove_id_absent.
  - apply elem_of_cons in Hin as [->|Hin]; [done|].
    rewrite (IH Hnd Hin) at 1. apply Permutation_swap.
Qed.

Lemma remove_id_length (i : nat) (l : list nat) :
  NoDup l → i ∈ l → length l = S (length (remove_id i l)).
Proof. intros Hnd Hin. by rewrite (remove_id_present i l Hnd Hin) at 1. Qed.

Lemma before_app_l {A} (x y : A) l k : before x y l → before x y (l ++ k).
Proof.
  intros (i & j & Hlt & Hi & Hj). exists i, j.
  split; [done|]. split; by apply lookup_app_l_Some.
Qed.

Lemma before_insert {A} (x y z : A) l k :
  before x y (l ++ k) → before x y (l ++ z :: k).
Proof.
  intros (i & j & Hlt & Hi & Hj).
  assert (Hshift : ∀ n a, (l ++ k) !! n = Some a →
    (l ++ z :: k) !! (if decide (n < length l)%nat then n else S n) = Some a).
  { intros n a Hn. destruct (decide (n < length l)%nat).
    - rewrite lookup_app_l in Hn |- * by done. done.
    - rewrite lookup_app_r in Hn |- * by lia.
      replace (S n - length l)%nat with (S (n - length l)) by lia. done. }
  exists (if decide (i < length l)%nat then i else S i),
         (if decide (j < length l)%nat then j else S j).
  split; [repeat case_decide; lia|]. split; by apply Hshift.
Qed.

Lemma before_prefix {A} (x y : A) l k :
  NoDup (l ++ k) → before x y (l ++ k) → y ∈ l → before x y l.
Proof.
  intros Hnd (i & j & Hlt & Hi & Hj) Hy.
  apply list_elem_of_lookup in Hy as (j' & Hj').
  assert (j' = j) as ->.
  { eapply NoDup_lookup; [exact Hnd | | exact Hj]. by apply lookup_app_l_Some. }
  apply lookup_lt_Some in Hj'. exists i, j.
  split; [done|]. split.
  - rewrite lookup_app_l in Hi by lia. done.
  - rewrite lookup_app_l in Hj by lia. done.
Qed.

Lemma before_snoc {A} (x y : A) l : x ∈ l → before x y (l ++ [y]).
Proof.
  intros (i & Hi)%list_elem_of_lookup. exists i, (length l).
  split; [by apply lookup_lt_Some in Hi|].
  split; [by apply lookup_app_l_Some | by apply list_lookup_middle].
Qed.

Lemma before_head {A} (x y : A) l k : y ∈ k → before x y (l ++ x :: k).
Proof.
  intros (j & Hj)%list_elem_of_lookup. exists (length l), (length l + S j)%nat.
  split; [lia|]. split; [by apply list_lookup_middle|].
  rewrite lookup_app_r by lia.
  replace (length l + S j - length l)%nat with (S j) by lia. done.
Qed.

Lemma before_elem {A} (x y : A) l : before x y l → x ∈ l ∧ y ∈ l.
Proof.
  intros (i & j & _ & Hi & Hj). split; by eapply list_elem_of_lookup_2.
Qed.

Lemma before_snoc_inv {A} (x y z : A) l :
  before x y (l ++ [z]) → before x y l ∨ (y = z ∧ x ∈ l).
Proof.
  intros (i & j & Hlt & Hi & Hj).
  apply lookup_snoc_Some in Hj as [[Hjlt Hj]|[-> <-]].
  - left. exists i, j. split; [done|]. split; [|done].
    rewrite lookup_app_l in Hi by lia. done.
  - right. split; [done|]. rewrite lookup_app_l in Hi by lia.
    by eapply list_elem_of_lookup_2.
Qed.

Lemma before_insert_inv {A} (x y z : A) l k :
  before x y (l ++ z :: k) →
  before x y (l ++ k) ∨ (y = z ∧ x ∈ l) ∨ x = z.
Proof.
  intros (i & j & Hlt & Hi & Hj).
  assert (Hcase : ∀ n a, (l ++ z :: k) !! n = Some a →
    (n < length l ∧ (l ++ k) !! n = Some a)%nat ∨
    (n = length l ∧ a = z) ∨
    (length l < n ∧ (l ++ k) !! (n - 1)%nat = Some a)%nat).
  { intros n a Hn. destruct (decide (n < length l)%nat).
    - left. rewrite lookup_app_l in Hn |- * by done. done.
    - right. rewrite lookup_app_r in Hn by lia.
      destruct (n - length l)%nat as [|m] eqn:Hm; cbn in Hn.
      + left. split; [lia | congruence].
      + right. split; [lia|]. rewrite lookup_app_r by lia.
        replace (n - 1 - length l)%nat with m by lia. done. }
  destruct (Hcase i x Hi) as [[Hil Hi']|[[Hil ->]|[Hil Hi']]]; [| by right; right |].
  - destruct (Hcase j y Hj) as [[Hjl Hj']|[[Hjl ->]|[Hjl Hj']]].
    + left. by exists i, j.
    + right. left. split; [done|]. rewrite lookup_app_l in Hi' by done.
      by eapply list_elem_of_lookup_2.
    + left. exists i, (j - 1)%nat. split; [lia | done].
  - destruct (Hcase j y Hj) as [[Hjl Hj']|[[Hjl ->]|[Hjl Hj']]]; [lia | lia |].
    left. exists (i - 1)%nat, (j - 1)%nat. split; [lia | done].
Qed.

Lemma before_fmap {A B} (f : A → B) (x y : A) l :
  before x y l → before (f x) (f y) (f <$> l).
Proof.
  intros (i & j & Hlt & Hi & Hj). exists i, j.
  split; [done|]. by rewrite !list_lookup_fmap, Hi, Hj.
Qed.

Lemma paced_snoc d log e :
  paced d log → (∀ e', e' ∈ log → (at_time e' + d <= at_time e)%Q) →
  paced d (log ++ [e]).
Proof.
  intros Hp Hnew i j d1 d2 Hlt Hi Hj.
  apply lookup_snoc_Some in Hj as [[Hjlt Hj]|[-> <-]].
  - apply (Hp i j); [done| |done]. rewrite lookup_app_l in Hi by lia. done.
  - apply Hnew. rewrite lookup_app_l in Hi by lia.
    by apply list_elem_of_lookup_2 in Hi.
Qed.

End ListFacts.

Section RationalFacts.

Import RequestQueue.

Lemma Qltb_true (x y : Q) : Qltb x y = true → (x < y)%Q.
Proof.
  unfold Qltb. intros H%negb_true_iff. apply Qnot_le_lt. intros Hle.
  apply Qle_bool_iff in Hle. congruence.
Qed.

Lemma Qltb_false (x y : Q) : Qltb x y = false → (y <= x)%Q.
Proof.
  unfold Qltb. intros H%negb_false_iff. by apply Qle_bool_iff.
Qed.

Lemma clamp_band (rate : Q) : (1 <= clamp rate)%Q ∧ (clamp rate <= 10)%Q.
Proof.
  unfold clamp. split.
  - apply Q.le_max_l.
  - apply Q.max_lub; [done|]. apply Q.le_min_r.
Qed.

(** Whatever rate is asked for, the delay stays between 100 ms and 1 s. *)
Lemma clamp_delay (rate : Q) :
  (100 <= 1000 / clamp rate)%Q ∧ (1000 / clamp rate <= 1000)%Q.
Proof.
  destruct (clamp_band rate) as [Hlo Hhi].
  assert (Hpos : (0 < clamp rate)%Q) by lra.
  split.
  - apply Qle_shift_div_l; [done|]. lra.
  - apply Qle_shift_div_r; [done|]. lra.
Qed.

(** A whole number of milliseconds that has passed has passed on the
    clock read in whole milliseconds. *)
Lemma whole_le_floor (a b : Q) (q : Q) :
  (∃ z, a = inject_Z z) → (∃ z, b = inject_Z z) →
  (a + b <= q)%Q → (a + b <= inject_Z (Qfloor q))%Q.
Proof.
  intros [x ->] [y ->] Hle. rewrite <- inject_Z_plus in Hle |- *.
  rewrite <- Zle_Qle. apply Qfloor_resp_le in Hle. by rewrite Qfloor_Z in Hle.
Qed.

End RationalFacts.

Section QueueFacts.

Import RequestQueue.

Context {any : Type}.

Implicit Types (s : RequestQueue.t any) (e : Event any) (d : Q).
Implicit Types (evs : list (Event any)).

(** *** The books of the queue *)

Lemma sound_schedule d ms k s : sound d s → sound d (schedule ms k s).
Proof. intros []. by split. Qed.

Lemma sound_set_processing d b s : sound d s → sound d (set_processing b s).
Proof. intros []. by split. Qed.

Lemma sound_drop_timer d n s : sound d s → sound d (drop_timer n s).
Proof. intros []. by split. Qed.

Lemma sound_tick d dt s : sound d s → sound d (tick dt s).
Proof. intros []. by split. Qed.

Lemma service_order_app s : service_order s = dispatched_ids s ++ queued_ids s.
Proof. apply fmap_app. Qed.

Lemma service_items_start fn rest s :
  queue s = fn :: rest → service_items (start fn rest s) = service_items s.
Proof.
  intros Hq. unfold service_items, dispatched_items. cbn.
  rewrite Hq, fmap_app. cbn. by rewrite <- (assoc_L (++)).
Qed.

Lemma service_items_enqueue p s :
  service_items (enqueue p s) =
    match p with
    | high => dispatched_items s ++ mkItem (nextId s) high :: queue s
    | normal => service_items s ++ [mkItem (nextId s) normal]
    end.
Proof.
  unfold service_items, dispatched_items. destruct p; cbn; [done|].
  by rewrite (assoc_L (++)).
Qed.

Lemma service_items_clearQueue s :
  service_items (clearQueue s) = dispatched_items s.
Proof. unfold service_items. cbn. apply app_nil_r. Qed.

Lemma sound_running_nodup d s :
  sound d s → NoDup (running s ++ (settled s).*1).
Proof.
  intros [Hnd _ _ Hacc _ _ _ _ _ _ _ _ _]. rewrite <- Hacc.
  rewrite service_order_app in Hnd. by apply NoDup_app in Hnd as [Hnd _].
Qed.

Lemma sound_start d fn rest s :
  sound d s → queue s = fn :: rest →
  activeRequests s < maxConcurrent s →
  (lastRequestTime s + d <= Date_now s)%Q →
  sound d (start fn rest s).
Proof.
  intros Hs Hq Hfree Hpace.
  pose proof (service_items_start fn rest s Hq) as Hitems.
  assert (Hord : service_order (start fn rest s) = service_order s)
    by (unfold service_order; by rewrite Hitems).
  destruct Hs as [Hnd Hfresh Hturn Hacc Hfin Hact Hmax Hle [Hd0 Hd]
                  Hstamp Hpaced Hdelay Hwhole].
  split; rewrite ?Hord, ?Hitems; try done.
  - unfold dispatched_ids, dispatched_items in *.
    cbn [dispatched running settled start].
    rewrite !fmap_app, Hacc. cbn [fmap list_fmap].
    rewrite <- !(assoc_L (++)). f_equiv. apply Permutation_app_comm.
  - cbn. rewrite Hact, length_app. cbn. lia.
  - cbn. lia.
  - cbn. intros e [He| ->%list_elem_of_singleton]%elem_of_app.
    + apply Hstamp in He. lra.
    + cbn. lra.
  - cbn. apply paced_snoc; [done|]. intros e' He'. apply Hstamp in He'. cbn. lra.
  - cbn. split; [apply Hwhole | by eexists].
Qed.

Lemma sound_enqueue d p s : sound d s → sound d (enqueue p s).
Proof.
  intros [Hnd Hfresh Hturn Hacc Hfin Hact Hmax Hle Hd Hstamp Hpaced Hdelay Hwhole].
  assert (Hnew : nextId s ∉ service_order s).
  { intros Hin%Hfresh. lia. }
  pose proof (service_items_enqueue p s) as Hitems.
  assert (Hperm : service_order (enqueue p s) ≡ₚ nextId s :: service_order s).
  { unfold service_order. rewrite Hitems. unfold service_items.
    destruct p; rewrite !fmap_app; cbn.
    - by rewrite Permutation_middle.
    - rewrite <- fmap_app. by rewrite <- Permutation_cons_append. }
  assert (Holder : ∀ n, n ∈ service_items s → (id n < nextId s)%nat).
  { intros n Hn. apply Hfresh. unfold service_order.
    by apply list_elem_of_fmap_2. }
  split; try done.
  - rewrite Hperm. apply NoDup_cons. by split.
  - intros i. rewrite Hperm. cbn. intros [->|Hin%Hfresh]%elem_of_cons; lia.
  - rewrite Hitems. intros n x Hbefore Hnormal. destruct p.
    + apply before_insert_inv in Hbefore as [Hold | [[-> Hn] | ->]].
      * by apply Hturn.
      * cbn. apply Holder. apply elem_of_app. by left.
      * done.
    + apply before_snoc_inv in Hbefore as [Hold|[-> Hn]].
      * by apply Hturn.
      * cbn. by apply Holder.
Qed.

Lemma sound_finish d i o s : sound d s → i ∈ running s → sound d (finish i o s).
Proof.
  intros Hs Hin. pose proof (sound_running_nodup d s Hs) as Hrs.
  destruct Hs as [Hnd Hfresh Hturn Hacc [Hfnd Hfsub] Hact Hmax Hle Hd
                  Hstamp Hpaced Hdelay Hwhole].
  apply NoDup_app in Hrs as (Hrnd & Hdisj & _).
  split; try done.
  - unfold dispatched_ids, dispatched_items in *.
    cbn [dispatched running settled finish].
    rewrite fmap_app, Hacc. cbn [fmap list_fmap fst].
    rewrite (remove_id_present i (running s)) at 1 by done.
    rewrite (assoc_L (++)). apply Permutation_cons_append.
  - cbn. split.
    + apply NoDup_app. split; [done|]. split; [|apply NoDup_singleton].
      intros x Hx ->%list_elem_of_singleton. by apply (Hdisj i), Hfsub.
    + intros x [Hx| ->%list_elem_of_singleton]%elem_of_app.
      * rewrite fmap_app. apply elem_of_app. left. by apply Hfsub.
      * rewrite fmap_app. apply elem_of_app. right. cbn.
        by apply list_elem_of_singleton.
  - cbn. rewrite Hact, length_app. cbn.
    rewrite (remove_id_length i (running s)) by done. lia.
Qed.

Lemma sound_release d i s : sound d s → i ∈ finishing s → sound d (release i s).
Proof.
  intros [Hnd Hfresh Hturn Hacc [Hfnd Hfsub] Hact Hmax Hle Hd
          Hstamp Hpaced Hdelay Hwhole] Hin.
  split; try done.
  - cbn. split; [by apply NoDup_filter|].
    intros x [_ Hx]%list_elem_of_filter. by apply Hfsub.
  - cbn. rewrite Hact. rewrite (remove_id_length i (finishing s)) by done. lia.
  - cbn. lia.
Qed.

Lemma sound_setRequestsPerSecond d rate s :
  sound d s → (d <= 1000 / clamp rate)%Q → sound d (setRequestsPerSecond rate s).
Proof.
  intros [Hnd Hfresh Hturn Hacc Hfin Hact Hmax Hle [Hd0 Hd]
          Hstamp Hpaced Hdelay Hwhole] Hfloor.
  split; try done.
Qed.

Lemma sound_clearQueue d s : sound d s → sound d (clearQueue s).
Proof.
  intros [Hnd Hfresh Hturn Hacc Hfin Hact Hmax Hle Hd Hstamp Hpaced Hdelay Hwhole].
  pose proof (service_items_clearQueue s) as Hitems.
  assert (Hord : service_order (clearQueue s) = dispatched_ids s)
    by (unfold service_order; by rewrite Hitems).
  rewrite service_order_app in Hnd, Hfresh.
  split; rewrite ?Hord, ?Hitems; try done.
  - by apply NoDup_app in Hnd as [Hnd _].
  - intros i Hi. apply Hfresh. apply elem_of_app. by left.
  - intros n x Hbefore. apply Hturn. by apply before_app_l.
Qed.

(** *** The drain loop *)

Lemma drained_refl d s : drained d s s.
Proof. split_and!; try done. intros x Hx. by left. Qed.

Lemma drained_schedule d ms k s s1 :
  drained d s s1 → drained d s (schedule ms k s1).
Proof. intros (? & ? & ? & ? & ? & ?). by split_and!. Qed.

Lemma drained_start d fn rest s :
  queue s = fn :: rest → (lastRequestTime s + d <= Date_now s)%Q →
  drained d s (start fn rest s).
Proof.
  intros Hq Hpace.
  split_and!; [by apply service_items_start | done | done | done | done |].
  cbn. intros x [Hx| ->%list_elem_of_singleton]%elem_of_app; [by left|].
  by right.
Qed.

Lemma dispatch_spec d s :
  sound d s → timers s = [] → processing s = true →
  activeRequests s < maxConcurrent s →
  (lastRequestTime s + d <= Date_now s)%Q →
  invariant d (dispatch s) ∧ drained d s (dispatch s).
Proof.
  intros Hs Htm Hproc Hfree Hpace. unfold dispatch.
  destruct (queue s) as [|fn rest] eqn:Hq.
  - split; [|apply drained_schedule, drained_refl]. split; [by apply sound_schedule|].
    unfold one_loop. cbn. rewrite Htm. cbn. done.
  - split; [|by apply drained_schedule, drained_start].
    split; [by apply sound_schedule, sound_start|].
    unfold one_loop. cbn. rewrite Htm. cbn. done.
Qed.

Lemma enforce_min_delay_spec d s :
  sound d s → timers s = [] → processing s = true →
  activeRequests s < maxConcurrent s →
  invariant d (enforce_min_delay s) ∧ drained d s (enforce_min_delay s).
Proof.
  intros Hs Htm Hproc Hfree. unfold enforce_min_delay. cbn zeta.
  destruct (sound_floor d s Hs) as [_ Hd].
  destruct (Qltb _ _) eqn:Hlt.
  - split; [|apply drained_schedule, drained_refl]. split; [by apply sound_schedule|].
    unfold one_loop. cbn. rewrite Htm. cbn. split; [done|]. intros _.
    split; [done|]. apply Qltb_true in Hlt.
    pose proof (Qfloor_le (clock s)) as Hnow. fold (Date_now s) in Hnow. lra.
  - apply dispatch_spec; try done. apply Qltb_false in Hlt. lra.
Qed.

Lemma wait_max_concurrent_spec d s :
  sound d s → timers s = [] → processing s = true →
  invariant d (wait_max_concurrent s) ∧ drained d s (wait_max_concurrent s).
Proof.
  intros Hs Htm Hproc. unfold wait_max_concurrent.
  destruct (Z.geb_spec (activeRequests s) (maxConcurrent s)) as [Hfull|Hfree].
  - split; [|apply drained_schedule, drained_refl]. split; [by apply sound_schedule|].
    unfold one_loop. cbn. rewrite Htm. cbn. done.
  - by apply enforce_min_delay_spec.
Qed.

Lemma process_spec d s :
  sound d s → timers s = [] →
  invariant d (process s) ∧ drained d s (process s).
Proof.
  intros Hs Htm. unfold process. destruct (queue s) as [|fn rest] eqn:Hq.
  - split; [|by apply (drained_refl d (set_processing false s))].
    split; [by apply sound_set_processing|].
    unfold one_loop. cbn. by rewrite Htm.
  - apply (wait_max_concurrent_spec d (set_processing true s));
      [by apply sound_set_processing | done | done].
Qed.

Lemma continue_spec d k s :
  sound d s → timers s = [] → processing s = true →
  (k = AtMinDelay →
     activeRequests s < maxConcurrent s ∧ (lastRequestTime s + d <= clock s)%Q) →
  invariant d (continue k s) ∧ drained d s (continue k s).
Proof.
  intros Hs Htm Hproc Hk. destruct k; cbn.
  - by apply wait_max_concurrent_spec.
  - destruct Hk as [Hfree Hpace]; [done|]. apply dispatch_spec; try done.
    destruct (sound_whole d s Hs) as [Hd Hlast]. by apply whole_le_floor.
  - by apply process_spec.
Qed.

Lemma invariant_new t0 d :
  (0 <= d)%Q → (d <= 1000 / 4)%Q → (∃ z, d = inject_Z z) →
  invariant d (new_RequestQueue (any:=any) t0).
Proof.
  intros Hd0 Hd Hwhole. split; [|done]. split; cbn; try done.
  - apply NoDup_nil_2.
  - intros i Hi. by apply elem_of_nil in Hi.
  - intros n x [Hn _]%before_elem. by apply elem_of_nil in Hn.
  - split; [apply NoDup_nil_2 | done].
  - intros e He. by apply elem_of_nil in He.
  - split; [done | by exists 0].
Qed.

(** A new queue whose rate was set before anything was submitted keeps
    every bound of whole milliseconds that its delay allows. *)
Lemma invariant_new_bound t0 rate (z : Z) :
  0 ≤ z → (inject_Z z <= 1000 / clamp rate)%Q →
  invariant (inject_Z z)
    (setRequestsPerSecond rate (new_RequestQueue (any:=any) t0)).
Proof.
  intros Hz Hle.
  assert (Hpos : (0 <= inject_Z z)%Q).
  { change 0%Q with (inject_Z 0). by rewrite <- Zle_Qle. }
  split; [|done]. split; cbn; try done.
  - apply NoDup_nil_2.
  - intros i Hi. by apply elem_of_nil in Hi.
  - intros n x [Hn _]%before_elem. by apply elem_of_nil in Hn.
  - split; [apply NoDup_nil_2 | done].
  - intros e He. by apply elem_of_nil in He.
  - split; [by eexists | by exists 0].
Qed.

(** In particular the whole milliseconds of its delay. *)
Lemma invariant_new_rate t0 rate :
  invariant (inject_Z (Qfloor (1000 / clamp rate)))
    (setRequestsPerSecond rate (new_RequestQueue (any:=any) t0)).
Proof.
  pose proof (clamp_delay rate) as [Hlo Hhi].
  apply invariant_new_bound; [|apply Qfloor_le].
  assert (H0 : (inject_Z 0 <= 1000 / clamp rate)%Q)
    by (change (inject_Z 0) with 0%Q; lra).
  apply Qfloor_resp_le in H0. by rewrite Qfloor_Z in H0.
Qed.

(** One event: the invariant is kept, and the books change as the
    event says. *)
Lemma step_spec d s e :
  invariant d s → keeps_floor d e →
  invariant d (step s e) ∧
  nextId (step s e) = match e with Add _ => S (nextId s) | _ => nextId s end ∧
  service_items (step s e) =
    match e with
    | Add high => dispatched_items s ++ mkItem (nextId s) high :: queue s
    | Add normal => service_items s ++ [mkItem (nextId s) normal]
    | ClearQueue => dispatched_items s
    | _ => service_items s
    end ∧
  settled (step s e) =
    settled s ++
    match e with
    | Finish i o => if decide (i ∈ running s) then [(i, o)] else []
    | _ => []
    end ∧
  minDelay (step s e) =
    match e with
    | SetRequestsPerSecond rate => (1000 / clamp rate)%Q
    | _ => minDelay s
    end ∧
  requestsPerSecond (step s e) =
    match e with
    | SetRequestsPerSecond rate => clamp rate
    | _ => requestsPerSecond s
    end ∧
  ∀ x, x ∈ dispatched (step s e) →
    x ∈ dispatched s ∨
    (at_time x = Date_now s ∧ (lastRequestTime s + d <= Date_now s)%Q).
Proof.
  intros [Hs Hloop] Hfloor.
  destruct e as [dt|p|n|i o|i|rate|]; cbn.
  - (* Tick *)
    destruct (Qle_bool 0 dt); [|by rewrite app_nil_r; split_and!; try by left].
    split_and!; [|done|done|by rewrite app_nil_r|done|done|by left].
    split; [by apply sound_tick | exact Hloop].
  - (* Add *)
    pose proof (sound_enqueue d p s Hs) as Hs1. unfold add. cbn zeta.
    pose proof (service_items_enqueue p s) as Hitems.
    unfold one_loop in Hloop.
    destruct (processing (enqueue p s)) eqn:Hproc.
    + split_and!; [|done|done|by rewrite app_nil_r|done|done|by left].
      split; [done|]. unfold one_loop. cbn in Hproc |- *.
      destruct (timers s) as [|tm [|tm' tms]]; [|done|done].
      destruct Hloop as [Hidle _]. congruence.
    + destruct (process_spec d (enqueue p s))
        as (Hinv & Ho & Hn & Hst & Hmd & Hrps & Hw).
      * done.
      * cbn in Hproc |- *.
        destruct (timers s) as [|tm [|tm' tms]]; [done| |done].
        destruct Hloop as [Hbusy _]. congruence.
      * split_and!; [exact Hinv | by rewrite Hn | by rewrite Ho
                    | by rewrite Hst, app_nil_r | by rewrite Hmd
                    | by rewrite Hrps | exact Hw].
  - (* Fire *)
    destruct (timers s !! n) as [tm|] eqn:Hn;
      [|by rewrite app_nil_r; split_and!; try by left].
    destruct (Qle_bool (due tm) (clock s)) eqn:Hdue;
      [|by rewrite app_nil_r; split_and!; try by left].
    apply Qle_bool_iff in Hdue. unfold one_loop in Hloop.
    destruct (timers s) as [|tm0 [|tm' tms]] eqn:Htm; [done| |done].
    destruct n as [|n]; [|done]. cbn in Hn. injection Hn as ->.
    destruct Hloop as [Hproc Hk].
    destruct (continue_spec d (resume tm) (drop_timer 0 s))
      as (Hinv & Ho & Hnid & Hst & Hmd & Hrps & Hw).
    + by apply sound_drop_timer.
    + cbn. by rewrite Htm.
    + done.
    + intros Hat. destruct (Hk Hat) as [Hfree Hpace]. cbn. split; [done | lra].
    + split_and!; [exact Hinv | by rewrite Hnid | by rewrite Ho
                  | by rewrite Hst, app_nil_r | by rewrite Hmd
                  | by rewrite Hrps | exact Hw].
  - (* Finish *)
    destruct (decide (i ∈ running s)) as [Hin|];
      [|by rewrite app_nil_r; split_and!; try by left].
    split_and!; [|done|done|done|done|done|by left].
    split; [by apply sound_finish | exact Hloop].
  - (* Release *)
    destruct (decide (i ∈ finishing s)) as [Hin|];
      [|by rewrite app_nil_r; split_and!; try by left].
    split_and!; [|done|done|by rewrite app_nil_r|done|done|by left].
    split; [by apply sound_release|]. unfold one_loop in *. cbn.
    destruct (timers s) as [|tm [|tm' tms]]; [done| |done].
    destruct Hloop as [Hproc Hk]. split; [done|]. intros Hat.
    destruct (Hk Hat). split; [lia | done].
  - (* SetRequestsPerSecond *)
    split_and!; [|done|done|by rewrite app_nil_r|done|done|by left].
    split; [by apply sound_setRequestsPerSecond | exact Hloop].
  - (* ClearQueue *)
    split_and!; [|done| |by rewrite app_nil_r|done|done|by left].
    + split; [by apply sound_clearQueue|]. unfold one_loop in *. cbn.
      destruct (timers s) as [|tm [|tm' tms]]; [by destruct Hloop | done | done].
    + apply service_items_clearQueue.
Qed.

Lemma invariant_step d s e :
  invariant d s → keeps_floor d e → invariant d (step s e).
Proof. intros Hinv Hfloor. by apply step_spec. Qed.

Lemma invariant_run d evs s :
  invariant d s → Forall (keeps_floor d) evs → invariant d (run s evs).
Proof.
  revert s. induction evs as [|e evs IH]; intros s Hinv Hall; [done|].
  apply Forall_cons in Hall as [He Hall]. cbn.
  apply IH; [by apply invariant_step | done].
Qed.

(** Every rate the queue can be set to keeps the delay at 100 ms or more. *)
Lemma keeps_floor_100 e : keeps_floor 100 e.
Proof. destruct e; cbn; try done. apply clamp_delay. Qed.

Lemma keeps_floor_no_rate_change d evs :
  forallb (λ e, negb (is_rate_change e)) evs = true → Forall (keeps_floor d) evs.
Proof.
  induction evs as [|e evs IH]; cbn; [done|].
  intros [He Hevs]%andb_true_iff. apply Forall_cons. split; [|by apply IH].
  by destruct e.
Qed.

(** *** Runs *)

Lemma run_cons s e evs : run s (e :: evs) = run (step s e) evs.
Proof. done. Qed.

Lemma run_app s evs1 evs2 : run s (evs1 ++ evs2) = run (run s evs1) evs2.
Proof. apply fold_left_app. Qed.

Lemma run_all_events evs s : invariant 100 s → invariant 100 (run s evs).
Proof.
  intros Hinv. apply invariant_run; [done|].
  apply Forall_forall. intros e _. apply keeps_floor_100.
Qed.

Lemma reachable_invariant t0 evs :
  invariant 100 (run (new_RequestQueue (any:=any) t0) evs).
Proof. apply run_all_events, invariant_new; [lra | by vm_compute | by exists 100]. Qed.

Lemma rate_run d evs s :
  invariant d s → forallb (λ e, negb (is_rate_change e)) evs = true →
  minDelay (run s evs) = minDelay s ∧
  requestsPerSecond (run s evs) = requestsPerSecond s.
Proof.
  revert s. induction evs as [|e evs IH]; intros s Hinv Hevs; [done|].
  cbn in Hevs. apply andb_true_iff in Hevs as [He Hevs]. rewrite run_cons.
  assert (Hfloor : keeps_floor d e) by (by destruct e).
  destruct (step_spec d s e Hinv Hfloor) as (Hinv' & _ & _ & _ & Hmd & Hrps & _).
  destruct (IH (step s e) Hinv' Hevs) as [-> ->]. rewrite Hmd, Hrps.
  by destruct e.
Qed.


(** Whatever rates are set during the run, two dispatches are at least
    100 ms apart: the clamp keeps the rate at 10 per second or less. *)
Lemma dispatches_at_least_100ms_apart (t0 : Q) evs :
  paced 100 (dispatched (run (new_RequestQueue (any:=any) t0) evs)).
Proof. apply (reachable_invariant t0 evs). Qed.

(** C2.  At every point of every run, [activeRequests] counts the works
    that were started and whose [.finally] callback has not run yet, and
    is at most [maxConcurrent], which is 1; so at most one work is
    running.  When the work of a running item ends and its callback runs,
    [activeRequests] goes down by one. *)
Theorem active_requests_bounded (t0 : Q) evs :
  let s := run (new_RequestQueue (any:=any) t0) evs in
  activeRequests s ≤ maxConcurrent s ∧
  maxConcurrent s = 1 ∧
  activeRequests s = Z.of_nat (length (running s) + length (finishing s)) ∧
  Z.of_nat (length (running s)) ≤ maxConcurrent s ∧
  ∀ i o, i ∈ running s →
    let s' := step (step s (Finish i o)) (Release i) in
    activeRequests s' = activeRequests s - 1 ∧ i ∉ running s'.
Proof.
  intros s. destruct (reachable_invariant t0 evs) as [Hs _]. fold s in Hs.
  pose proof (sound_bounded _ _ Hs) as Hle.
  pose proof (sound_active _ _ Hs) as Hact.
  split_and!; [done | apply Hs | done | lia |].
  intros i o Hin. cbn [step].
  rewrite (decide_True (P := i ∈ running s)) by done.
  assert (Hfin : i ∈ finishing (finish i o s)).
  { cbn. apply elem_of_app. right. by apply list_elem_of_singleton. }
  rewrite (decide_True (P := i ∈ finishing (finish i o s))) by done.
  split; [done|]. cbn. unfold remove_id.
  intros [Hne _]%list_elem_of_filter. done.
Qed.

(** *** Order of service *)

Lemma sound_items_nodup d s : sound d s → NoDup (service_items s).
Proof. intros Hs. apply (NoDup_fmap_1 id), Hs. Qed.

Lemma sound_items_fresh d s x :
  sound d s → x ∈ service_items s → (id x < nextId s)%nat.
Proof.
  intros Hs Hx. apply (sound_fresh d s Hs). unfold service_order.
  by apply list_elem_of_fmap_2.
Qed.

Lemma step_keeps_order d s e x y :
  invariant d s → keeps_floor d e →
  before x y (service_items s) → y ∈ service_items (step s e) →
  before x y (service_items (step s e)).
Proof.
  intros Hinv Hfloor Hbefore Hy.
  destruct (step_spec d s e Hinv Hfloor) as (_ & _ & Hitems & _).
  rewrite Hitems in Hy |- *.
  destruct e as [dt|[]|n|i o|i|rate|]; try done.
  - by apply before_insert.
  - by apply before_app_l.
  - eapply before_prefix; [|done|done].
    apply (sound_items_nodup d s), Hinv.
Qed.

Lemma step_gone d s e y :
  invariant d s → keeps_floor d e →
  (id y < nextId s)%nat → y ∉ service_items s →
  y ∉ service_items (step s e).
Proof.
  intros Hinv Hfloor Hold Hgone.
  destruct (step_spec d s e Hinv Hfloor) as (_ & _ & Hitems & _).
  rewrite Hitems. unfold service_items in *.
  destruct e as [dt|[]|n|i o|i|rate|]; try done.
  - rewrite elem_of_app, elem_of_cons. rewrite elem_of_app in Hgone.
    intros [?|[->|?]]; [tauto | cbn in Hold; lia | tauto].
  - rewrite elem_of_app, list_elem_of_singleton.
    intros [?| ->]; [tauto | cbn in Hold; lia].
  - rewrite elem_of_app in Hgone. tauto.
Qed.

Lemma step_nextId_mono d s e :
  invariant d s → keeps_floor d e → (nextId s ≤ nextId (step s e))%nat.
Proof.
  intros Hinv Hfloor.
  destruct (step_spec d s e Hinv Hfloor) as (_ & -> & _). destruct e; lia.
Qed.

(** An item that was submitted and is neither queued nor dispatched stays
    so for ever: it is never dispatched. *)
Lemma run_gone d evs s y :
  invariant d s → Forall (keeps_floor d) evs →
  (id y < nextId s)%nat → y ∉ service_items s →
  y ∉ service_items (run s evs).
Proof.
  revert s. induction evs as [|e evs IH]; intros s Hinv Hall Hold Hgone; [done|].
  apply Forall_cons in Hall as [He Hall]. rewrite run_cons.
  apply IH; [by apply invariant_step | done | | by eapply step_gone].
  pose proof (step_nextId_mono d s e Hinv He). lia.
Qed.

Lemma run_keeps_order d evs s x y :
  invariant d s → Forall (keeps_floor d) evs →
  before x y (service_items s) → y ∈ service_items (run s evs) →
  before x y (service_items (run s evs)).
Proof.
  revert s. induction evs as [|e evs IH]; intros s Hinv Hall Hbefore Hy; [done|].
  apply Forall_cons in Hall as [He Hall]. rewrite run_cons in Hy |- *.
  pose proof (invariant_step d s e Hinv He) as Hinv'.
  apply IH; [done | done | | done].
  apply (step_keeps_order d); [done | done | done |].
  destruct (decide (y ∈ service_items (step s e))) as [|Hgone]; [done|].
  exfalso. apply (run_gone d evs (step s e) y); [done | done | | done | done].
  pose proof (step_nextId_mono d s e Hinv He).
  destruct (before_elem _ _ _ Hbefore) as [_ Hyin].
  pose proof (sound_items_fresh d s y (proj1 Hinv) Hyin). lia.
Qed.

(** What stands before a dispatched item in the order of service was
    dispatched before it. *)
Lemma dispatched_before d s x y :
  invariant d s → before x y (service_items s) → y ∈ dispatched_items s →
  before x y (dispatched_items s).
Proof.
  intros Hinv Hbefore Hy. eapply before_prefix; [|done|done].
  apply (sound_items_nodup d s), Hinv.
Qed.

Lemma overtaking_order d evs s x y :
  invariant d s → Forall (keeps_floor d) evs →
  before x y (service_items s) → y ∈ dispatched_items (run s evs) →
  before x y (dispatched_items (run s evs)).
Proof.
  intros Hinv Hall Hbefore Hy.
  apply (dispatched_before d); [by apply invariant_run | | done].
  apply (run_keeps_order d); [done | done | done |].
  apply elem_of_app. by left.
Qed.

Lemma all_keep_floor_100 evs : Forall (keeps_floor 100) evs.
Proof. apply Forall_forall. intros e _. apply keeps_floor_100. Qed.

(** C3 (amended).  Take any run, and the moment a new item is submitted
    in it.  If the item is [high], it is dispatched before every item
    that stood in the queue at that moment and is dispatched at all, be
    it [normal] or an older [high] one.  If the item is [normal], it is
    dispatched, when it is, after every item submitted before it that
    was dispatched or still queued at that moment.  So in the history of
    dispatches a [normal] item never stands before an item submitted
    earlier, and the [normal] items are in the order of submission. *)
Theorem dispatch_order_by_tier (t0 : Q) (pre post : list (Event any)) :
  let s1 := run (new_RequestQueue t0) pre in
  (let h := mkItem (nextId s1) high in
   let s2 := run (add high s1) post in
   ∀ y, y ∈ queue s1 → y ∈ dispatched_items s2 →
        before h y (dispatched_items s2)) ∧
  (let n := mkItem (nextId s1) normal in
   let s2 := run (add normal s1) post in
   ∀ x, x ∈ service_items s1 → n ∈ dispatched_items s2 →
        before x n (dispatched_items s2)) ∧
  normal_keeps_turn (dispatched_items s1) ∧
  fifo_for normal (dispatched s1).
Proof.
  intros s1. pose proof (reachable_invariant t0 pre) as Hinv1. fold s1 in Hinv1.
  assert (Hadd : ∀ p, invariant 100 (add p s1) ∧
    service_items (add p s1) =
      match p with
      | high => dispatched_items s1 ++ mkItem (nextId s1) high :: queue s1
      | normal => service_items s1 ++ [mkItem (nextId s1) normal]
      end).
  { intros p. destruct (step_spec 100 s1 (Add p) Hinv1 I) as (Hinv & _ & Hitems & _).
    split; [exact Hinv|]. etransitivity; [exact Hitems|]. by destruct p. }
  assert (Hturn : normal_keeps_turn (dispatched_items s1)).
  { intros n x Hbefore. apply (sound_turns 100 s1 (proj1 Hinv1)).
    by apply before_app_l. }
  split_and!.
  - intros h s2 y Hy Hdisp. destruct (Hadd high) as [Hinv Hitems].
    apply (overtaking_order 100 post (add high s1));
      [done | apply all_keep_floor_100 | | done].
    rewrite Hitems. by apply before_head.
  - intros n s2 x Hx Hdisp. destruct (Hadd normal) as [Hinv Hitems].
    apply (overtaking_order 100 post (add normal s1));
      [done | apply all_keep_floor_100 | | done].
    rewrite Hitems. by apply before_snoc.
  - exact Hturn.
  - intros i j d1 d2 Hi Hj Hp1 Hp2 Hlt.
    destruct (Nat.lt_trichotomy i j) as [Hij|[->|Hji]]; [done| |].
    + rewrite Hi in Hj. injection Hj as ->. lia.
    + assert (Hbefore : before (item d2) (item d1) (dispatched_items s1)).
      { exists j, i. unfold dispatched_items.
        rewrite !list_lookup_fmap, Hi, Hj. done. }
      pose proof (Hturn _ _ Hbefore Hp2). lia.
Qed.

(** *** Every item at most once *)

Lemma run_gone_id d evs s (i : nat) :
  invariant d s → Forall (keeps_floor d) evs →
  (i < nextId s)%nat → i ∉ service_order s →
  i ∉ service_order (run s evs).
Proof.
  intros Hinv Hall Hold Hgone (y & -> & Hy)%list_elem_of_fmap.
  apply (run_gone d evs s y); [done | done | done | | done].
  intros Hin. apply Hgone. by apply list_elem_of_fmap_2.
Qed.

Lemma step_none_lost d s e :
  invariant d s → keeps_floor d e → is_clear e = false →
  none_lost s → none_lost (step s e).
Proof.
  intros Hinv Hfloor Hclear Hall i.
  destruct (step_spec d s e Hinv Hfloor) as (_ & -> & Hitems & _).
  unfold service_order. rewrite Hitems. fold (service_order s).
  assert (Hsame : (i < nextId s)%nat → i ∈ service_order s) by apply Hall.
  destruct e as [dt|[]|n|j o|j|rate|]; try done.
  - intros Hi. unfold service_order, service_items in *.
    rewrite fmap_app, elem_of_app in Hsame.
    rewrite fmap_app, elem_of_app, fmap_cons, elem_of_cons. cbn.
    destruct (decide (i = nextId s)) as [->|Hne]; [tauto|].
    destruct Hsame; [lia | tauto | tauto].
  - intros Hi. rewrite fmap_app, elem_of_app. cbn.
    rewrite list_elem_of_singleton.
    destruct (decide (i = nextId s)) as [->|Hne]; [tauto|].
    left. apply Hsame. lia.
Qed.

Lemma run_none_lost d evs s :
  invariant d s → Forall (keeps_floor d) evs →
  forallb (λ e, negb (is_clear e)) evs = true →
  none_lost s → none_lost (run s evs).
Proof.
  revert s. induction evs as [|e evs IH]; intros s Hinv Hall Hclear Hnone; [done|].
  apply Forall_cons in Hall as [He Hall]. cbn in Hclear.
  apply andb_true_iff in Hclear as [Hc Hclear]. rewrite run_cons.
  apply IH; [by apply invariant_step | done | done |].
  apply (step_none_lost d); [done | done | by destruct (is_clear e) | done].
Qed.

Lemma run_settled d evs s i (o : Outcome any) :
  invariant d s → Forall (keeps_floor d) evs →
  (i, o) ∈ settled (run s evs) → (i, o) ∈ settled s ∨ Finish i o ∈ evs.
Proof.
  revert s. induction evs as [|e evs IH]; intros s Hinv Hall Hin; [by left|].
  apply Forall_cons in Hall as [He Hall]. rewrite run_cons in Hin.
  destruct (step_spec d s e Hinv He) as (Hinv' & _ & _ & Hst & _).
  destruct (IH (step s e) Hinv' Hall Hin) as [Hnow|Hlater].
  - rewrite Hst in Hnow. apply elem_of_app in Hnow as [Hold|Hnew]; [by left|].
    right. destruct e; try by apply elem_of_nil in Hnew.
    destruct (decide _); [|by apply elem_of_nil in Hnew].
    apply list_elem_of_singleton in Hnew as [= <- <-]. apply elem_of_cons. by left.
  - right. apply elem_of_cons. by right.
Qed.

(** *** The drain loop is never stuck *)

Lemma dispatch_head s fn rest :
  queue s = fn :: rest → dispatch s = schedule 10 NextProcess (start fn rest s).
Proof. intros Hq. unfold dispatch. by rewrite Hq. Qed.

Lemma run_await_timer tm s :
  timers s = [tm] →
  run s (await_timer tm s) =
    continue (resume tm)
      (drop_timer 0 (tick (Qmax 0 (due tm - clock s)) s)).
Proof.
  intros Htm. unfold await_timer, run. cbn [fold_left step].
  assert (Hpos : Qle_bool 0 (Qmax 0 (due tm - clock s)) = true)
    by (apply Qle_bool_iff, Q.le_max_l).
  rewrite Hpos. cbn [timers tick]. rewrite Htm. cbn [lookup list_lookup].
  assert (Hdue : Qle_bool (due tm) (clock (tick (Qmax 0 (due tm - clock s)) s)) = true).
  { apply Qle_bool_iff. cbn. pose proof (Q.le_max_r 0 (due tm - clock s)). lra. }
  by rewrite Hdue.
Qed.


Lemma dispatched_items_start fn rest s :
  dispatched_items (start fn rest s) = dispatched_items s ++ [fn].
Proof. unfold dispatched_items. cbn. by rewrite fmap_app. Qed.

(** The pacing sleep is over: the head of the queue is dispatched. *)
Lemma serve_after_delay tm s fn rest :
  timers s = [tm] → resume tm = AtMinDelay → queue s = fn :: rest →
  queue (run s (await_timer tm s)) = rest ∧
  dispatched_items (run s (await_timer tm s)) = dispatched_items s ++ [fn].
Proof.
  intros Htm Hk Hq. rewrite run_await_timer by done. rewrite Hk.
  cbn [continue].
  set (s0 := drop_timer 0 (tick (Qmax 0 (due tm - clock s)) s)).
  rewrite (dispatch_head s0 fn rest Hq).
  split; [done|]. apply (dispatched_items_start fn rest s0).
Qed.

Lemma runtime_await_timer tm s : Forall is_runtime (await_timer tm s).
Proof. by repeat constructor. Qed.

(** A slot is free: when the timer fires, the loop dispatches the head of
    the queue, after the pacing sleep if one is due. *)
Lemma serve_when_free tm s fn rest :
  timers s = [tm] → activeRequests s = 0 → maxConcurrent s = 1 →
  queue s = fn :: rest →
  ∃ more, Forall is_runtime more ∧
    queue (run s more) = rest ∧
    dispatched_items (run s more) = dispatched_items s ++ [fn].
Proof.
  intros Htm Hact Hmax Hq.
  assert (Henforce : ∀ x,
    timers x = [] → queue x = fn :: rest →
    dispatched_items x = dispatched_items s →
    run s (await_timer tm s) = enforce_min_delay x →
    ∃ more, Forall is_runtime more ∧
      queue (run s more) = rest ∧
      dispatched_items (run s more) = dispatched_items s ++ [fn]).
  { intros x Hxt Hxq Hxd Hrun. unfold enforce_min_delay in Hrun. cbn zeta in Hrun.
    destruct (Qltb _ _).
    - set (tm' := mkTimer (clock x + (minDelay x - (Date_now x - lastRequestTime x)))
                    AtMinDelay) in *.
      set (s1 := run s (await_timer tm s)) in *.
      assert (Hs1t : timers s1 = [tm']) by (rewrite Hrun; cbn; by rewrite Hxt).
      assert (Hs1q : queue s1 = fn :: rest) by (by rewrite Hrun).
      assert (Hs1d : dispatched_items s1 = dispatched_items s) by (by rewrite Hrun).
      destruct (serve_after_delay tm' s1 fn rest Hs1t eq_refl Hs1q) as [Hq' Hd'].
      exists (await_timer tm s ++ await_timer tm' s1).
      split; [apply Forall_app; split; apply runtime_await_timer|].
      rewrite run_app. fold s1. by rewrite Hq', Hd', Hs1d.
    - exists (await_timer tm s). split; [apply runtime_await_timer|].
      rewrite Hrun, (dispatch_head x fn rest Hxq).
      split; [done|].
      etransitivity; [apply dispatched_items_start|]. by rewrite Hxd. }
  set (s0 := drop_timer 0 (tick (Qmax 0 (due tm - clock s)) s)).
  assert (Hrun : run s (await_timer tm s) = continue (resume tm) s0)
    by (by apply run_await_timer).
  assert (Hfree : (activeRequests s0 >=? maxConcurrent s0) = false).
  { cbn. rewrite Hact, Hmax. done. }
  destruct (resume tm) eqn:Hk.
  - apply (Henforce s0); [by cbn; rewrite Htm | done | done |].
    rewrite Hrun. cbn [continue]. unfold wait_max_concurrent. by rewrite Hfree.
  - exists (await_timer tm s). split; [apply runtime_await_timer|].
    by apply serve_after_delay.
  - apply (Henforce (set_processing true s0)); [by cbn; rewrite Htm | done | done |].
    rewrite Hrun. cbn [continue]. unfold process.
    change (queue s0) with (queue s). rewrite Hq.
    unfold wait_max_concurrent.
    change (activeRequests (set_processing true s0)) with (activeRequests s0).
    change (maxConcurrent (set_processing true s0)) with (maxConcurrent s0).
    by rewrite Hfree.
Qed.

(** The works in flight end and their callbacks run: the slot is free. *)
Lemma free_slot d (o : Outcome any) s :
  invariant d s →
  ∃ more, Forall is_runtime more ∧
    activeRequests (run s more) = 0 ∧
    queue (run s more) = queue s ∧
    timers (run s more) = timers s ∧
    dispatched (run s more) = dispatched s.
Proof.
  intros [Hs _].
  pose proof (sound_active _ _ Hs) as Hact.
  pose proof (sound_bounded _ _ Hs) as Hle.
  pose proof (sound_max _ _ Hs) as Hmax.
  destruct (running s) as [|i [|i' run']] eqn:Hrun,
           (finishing s) as [|j [|j' fin']] eqn:Hfin;
    cbn in Hact; try lia.
  - exists []. split; [constructor|]. cbn. split_and!; [lia | done | done | done].
  - exists [Release j]. split; [by repeat constructor|].
    unfold run. cbn [fold_left step]. rewrite Hfin.
    rewrite decide_True by (apply elem_of_cons; by left).
    cbn. split_and!; [lia | done | done | done].
  - exists [Finish i o; Release i]. split; [by repeat constructor|].
    unfold run. cbn [fold_left step]. rewrite Hrun.
    rewrite (decide_True (P := i ∈ [i])) by (apply elem_of_cons; by left).
    cbn [finishing finish]. rewrite Hfin.
    rewrite (decide_True (P := i ∈ [] ++ [i])) by (apply elem_of_cons; by left).
    cbn. split_and!; [lia | done | done | done].
Qed.

Lemma runtime_keeps_floor d evs :
  Forall is_runtime evs → Forall (keeps_floor d) evs.
Proof. intros Hrt. eapply Forall_impl; [exact Hrt|]. intros e He. by destruct e. Qed.

Lemma serve_head d (o : Outcome any) s fn rest :
  invariant d s → queue s = fn :: rest →
  ∃ more, Forall is_runtime more ∧
    queue (run s more) = rest ∧
    dispatched_items (run s more) = dispatched_items s ++ [fn].
Proof.
  intros Hinv Hq.
  destruct (free_slot d o s Hinv) as (evs1 & Hrt1 & Hact & Hq1 & Htm1 & Hd1).
  pose proof (invariant_run d evs1 s Hinv (runtime_keeps_floor d evs1 Hrt1)) as Hinv1.
  set (s1 := run s evs1) in *.
  destruct Hinv1 as [Hs1 Hloop1]. unfold one_loop in Hloop1.
  destruct (timers s1) as [|tm [|tm' tms]] eqn:Htm; [|clear Hloop1|done].
  { destruct Hloop1 as [_ Hempty]. congruence. }
  destruct (serve_when_free tm s1 fn rest Htm Hact (sound_max _ _ Hs1))
    as (evs2 & Hrt2 & Hq2 & Hd2); [congruence|].
  exists (evs1 ++ evs2). split; [by apply Forall_app|].
  rewrite run_app. fold s1. split; [done|].
  rewrite Hd2. unfold dispatched_items. by rewrite Hd1.
Qed.

(** Left to the runtime, the drain loop empties the queue: it dispatches
    the queued items, each once, from the head on. *)
Lemma serve_all d (o : Outcome any) s :
  invariant d s →
  ∃ more, Forall is_runtime more ∧
    queue (run s more) = [] ∧
    dispatched_items (run s more) = dispatched_items s ++ queue s.
Proof.
  remember (queue s) as q eqn:Hq. revert s Hq.
  induction q as [|fn rest IH]; intros s Hq Hinv.
  - exists []. split; [constructor|]. cbn. split; [done|]. by rewrite app_nil_r.
  - destruct (serve_head d o s fn rest Hinv (eq_sym Hq)) as (evs1 & Hrt1 & Hq1 & Hd1).
    pose proof (invariant_run d evs1 s Hinv (runtime_keeps_floor d evs1 Hrt1)) as Hinv1.
    destruct (IH (run s evs1) (eq_sym Hq1) Hinv1) as (evs2 & Hrt2 & Hq2 & Hd2).
    exists (evs1 ++ evs2). split; [by apply Forall_app|].
    rewrite run_app. split; [done|].
    rewrite Hd2, Hd1. by rewrite <- (assoc_L (++)).
Qed.

(** C9 (amended).  In every run, whatever the order of its events,
    [clearQueue] included: no item is dispatched twice, nor queued twice,
    nor queued once dispatched; every dispatched item is either still
    running or has had its promise settled, once, and with the outcome
    its work ended with.  When the run contains no [clearQueue], every
    item submitted is in the queue or was dispatched: none is dropped.
    And the loop is never stuck: at any point, the runtime alone (time
    passing, timers firing, works ending) can bring the loop to dispatch
    every queued item, in the order of the queue. *)
Theorem submitted_items_consumed_once (t0 : Q) evs :
  let s := run (new_RequestQueue (any:=any) t0) evs in
  NoDup (dispatched_ids s) ∧
  NoDup (service_order s) ∧
  (∀ i, i ∈ service_order s → (i < nextId s)%nat) ∧
  dispatched_ids s ≡ₚ running s ++ (settled s).*1 ∧
  NoDup ((settled s).*1) ∧
  (∀ i o, (i, o) ∈ settled s → Finish i o ∈ evs) ∧
  (forallb (λ e, negb (is_clear e)) evs = true → none_lost s) ∧
  (∀ o : Outcome any, ∃ more,
     Forall is_runtime more ∧
     queue (run s more) = [] ∧
     dispatched_items (run s more) = dispatched_items s ++ queue s).
Proof.
  intros s. pose proof (reachable_invariant t0 evs) as Hinv. fold s in Hinv.
  destruct Hinv as [Hs Hloop].
  pose proof (sound_nodup _ _ Hs) as Hnd.
  pose proof (sound_running_nodup _ _ Hs) as Hrs.
  rewrite service_order_app in Hnd.
  split_and!.
  - by apply NoDup_app in Hnd as [Hnd _].
  - apply Hs.
  - apply Hs.
  - apply Hs.
  - by apply NoDup_app in Hrs as (_ & _ & Hst).
  - intros i o Hin.
    destruct (run_settled 100 evs (new_RequestQueue t0) i o) as [Hinit|Hev];
      [apply invariant_new; [lra | by vm_compute | by exists 100] | apply all_keep_floor_100
      | done | | done].
    by apply elem_of_nil in Hinit.
  - intros Hclear.
    apply (run_none_lost 100); [apply invariant_new; [lra | by vm_compute | by exists 100]
                               | apply all_keep_floor_100 | done |].
    intros i Hi. cbn in Hi. lia.
  - intros o. by apply (serve_all 100 o s).
Qed.

End QueueFacts.

Section QueueInstances.

Import RequestQueue Scenario.



(** On an instance: one quote, submitted and dispatched at once. *)
Lemma active_requests_bounded_witness :
  let s := run jupiterQueue [Add normal] in
  0%nat ∈ running s ∧
  activeRequests s = 1 ∧
  activeRequests (step (step s (Finish 0 (resolved 0%nat))) (Release 0))
    = activeRequests s - 1.
Proof.
  cbn zeta.
  assert (Hrun : 0%nat ∈ running (run jupiterQueue [Add normal])).
  { apply (list_elem_of_lookup_2 _ 0%nat). vm_compute. reflexivity. }
  split; [exact Hrun|]. split; [vm_compute; reflexivity|].
  destruct (active_requests_bounded (any:=nat) 1000 [Add normal])
    as (_ & _ & _ & _ & Hdone).
  apply (Hdone 0%nat (resolved 0%nat) Hrun).
Defined.

(** The tier [high] is not served first in, first out: of three sells
    submitted in a row, the third is dispatched before the second. *)
Lemma high_items_are_not_fifo :
  dispatched_items (run jupiterQueue three_sells)
    = [mkItem 0 high; mkItem 2 high; mkItem 1 high] ∧
  ¬ fifo_within_tier (dispatched (run jupiterQueue three_sells)).
Proof.
  split; [vm_compute; reflexivity|]. intros Hfifo.
  assert (Hlt : (2 < 1)%nat); [|lia].
  apply (Hfifo high 2%nat 1%nat
           (mkDispatch (mkItem 1 high) 1500) (mkDispatch (mkItem 2 high) 1250));
    [vm_compute; reflexivity | vm_compute; reflexivity
    | reflexivity | reflexivity | cbn; lia].
Qed.

(** On an instance: a sell submitted while a quote waits is dispatched
    before that quote. *)
Lemma dispatch_order_by_tier_witness :
  let s1 := run (new_RequestQueue 1000) two_quotes in
  let s2 := run (add high s1) (serve_after 0 ++ serve_after 2) in
  mkItem 1 normal ∈ queue s1 ∧
  mkItem 1 normal ∈ dispatched_items s2 ∧
  before (mkItem 2 high) (mkItem 1 normal) (dispatched_items s2).
Proof.
  cbn zeta.
  set (s1 := run (new_RequestQueue (any:=nat) 1000) two_quotes).
  set (s2 := run (add high s1) (serve_after 0 ++ serve_after 2)).
  assert (Hq : mkItem 1 normal ∈ queue s1).
  { apply (list_elem_of_lookup_2 _ 0%nat). vm_compute. reflexivity. }
  assert (Hd : mkItem 1 normal ∈ dispatched_items s2).
  { apply (list_elem_of_lookup_2 _ 2%nat). vm_compute. reflexivity. }
  split; [exact Hq|]. split; [exact Hd|].
  destruct (dispatch_order_by_tier (any:=nat) 1000 two_quotes
              (serve_after 0 ++ serve_after 2)) as (Hhigh & _).
  apply (Hhigh _ Hq Hd).
Defined.

(** An item can be dropped: a quote that waits when [clearQueue] runs is
    then neither queued nor dispatched, and, whatever happens next, it is
    never dispatched. *)
Lemma cleared_item_is_never_consumed :
  let s := run jupiterQueue cleared in
  (1 < nextId s)%nat ∧
  ¬ none_lost s ∧
  ∀ evs, (∀ o, (1%nat, o) ∉ settled (run s evs)) ∧
         1%nat ∉ dispatched_ids (run s evs).
Proof.
  cbn zeta. set (s := run jupiterQueue cleared).
  assert (Horder : service_order s = [0%nat]) by (vm_compute; reflexivity).
  assert (Hnext : nextId s = 2%nat) by (vm_compute; reflexivity).
  assert (Hgone : 1%nat ∉ service_order s).
  { rewrite Horder. intros Hin.
    apply list_elem_of_singleton in Hin. discriminate. }
  split; [rewrite Hnext; lia|]. split.
  - intros Hnone. apply Hgone, Hnone. rewrite Hnext. lia.
  - intros evs.
    assert (Hnever : 1%nat ∉ dispatched_ids (run s evs)).
    { intros Hin. apply (run_gone_id 100 evs s 1%nat).
      - apply reachable_invariant.
      - apply all_keep_floor_100.
      - rewrite Hnext. lia.
      - exact Hgone.
      - rewrite service_order_app. apply elem_of_app. by left. }
    split; [|exact Hnever]. intros o Hin. apply Hnever.
    assert (Hinv : invariant 100 (run s evs))
      by apply run_all_events, reachable_invariant.
    rewrite (sound_accounted _ _ (proj1 Hinv)). apply elem_of_app. right.
    apply (list_elem_of_fmap_2 fst) in Hin. exact Hin.
Qed.

(** On an instance: in the run of the three sells nothing is cleared,
    and the promise of item 2 was settled by the end of its work. *)
Lemma submitted_items_consumed_once_witness :
  let s := run (new_RequestQueue 1000) three_sells in
  forallb (λ e, negb (is_clear e)) three_sells = true ∧
  none_lost s ∧
  (2%nat, resolved 0%nat) ∈ settled s ∧
  Finish 2 (resolved 0%nat) ∈ three_sells.
Proof.
  cbn zeta.
  destruct (submitted_items_consumed_once (any:=nat) 1000 three_sells)
    as (_ & _ & _ & _ & _ & Hsettled & Hnone & _).
  assert (Hin : (2%nat, resolved 0%nat)
                  ∈ settled (run (new_RequestQueue 1000) three_sells)).
  { apply (list_elem_of_lookup_2 _ 1%nat). vm_compute. reflexivity. }
  split; [vm_compute; reflexivity|].
  split; [apply Hnone; vm_compute; reflexivity|].
  split; [exact Hin | apply (Hsettled _ _ Hin)].
Defined.

End QueueInstances.

(** ** Cooldown coordinator *)

Section CooldownFacts.

Import Cooldown.

Context {any : Type}.

Implicit Types (s : Cooldown.t any) (now : Z) (userId : nat).
Implicit Types (w : System any) (ops : list (Op any)).

Local Arguments Nat.leb : simpl never.

(** *** The two [forEach] loops write the sessions and the messages only *)

Lemma stop_trader_frame s userId :
  let s' := stop_trader s userId in
  COOLDOWN_MODE s' = COOLDOWN_MODE s ∧
  cooldownStartTime s' = cooldownStartTime s ∧
  rateLimitFailureCount s' = rateLimitFailureCount s ∧
  lastFailureTime s' = lastFailureTime s ∧
  consecutiveCooldowns s' = consecutiveCooldowns s ∧
  bot s' = bot s ∧
  jupiterQueue s' = jupiterQueue s ∧
  timeouts s' = timeouts s.
Proof.
  unfold stop_trader, safeSendMessage. cbn.
  destruct (userSessions s !! userId); [|done].
  destruct (bot s) eqn:Hbot; [|done]. cbn. by rewrite Hbot.
Qed.

Lemma stop_traders_frame (l : list nat) s :
  let s' := fold_left stop_trader l s in
  COOLDOWN_MODE s' = COOLDOWN_MODE s ∧
  cooldownStartTime s' = cooldownStartTime s ∧
  rateLimitFailureCount s' = rateLimitFailureCount s ∧
  lastFailureTime s' = lastFailureTime s ∧
  consecutiveCooldowns s' = consecutiveCooldowns s ∧
  bot s' = bot s ∧
  jupiterQueue s' = jupiterQueue s ∧
  timeouts s' = timeouts s.
Proof.
  revert s. induction l as [|u l IH]; intros s; [done|]. cbn.
  destruct (IH (stop_trader s u)) as (-> & -> & -> & -> & -> & -> & -> & ->).
  apply stop_trader_frame.
Qed.






Lemma notify_frame (l : list nat) s :
  let s' := fold_left notify_cooldown_complete l s in
  COOLDOWN_MODE s' = COOLDOWN_MODE s ∧
  rateLimitFailureCount s' = rateLimitFailureCount s ∧
  consecutiveCooldowns s' = consecutiveCooldowns s ∧
  lastResetTime s' = lastResetTime s ∧
  userSessions s' = userSessions s ∧
  jupiterQueue s' = jupiterQueue s ∧
  timeouts s' = timeouts s.
Proof.
  revert s. induction l as [|u l IH]; intros s; [done|]. cbn.
  destruct (IH (notify_cooldown_complete s u)) as (-> & -> & -> & -> & -> & -> & ->).
  unfold notify_cooldown_complete, safeSendMessage.
  destruct (userSessions s !! u); [|done].
  by destruct (bot s).
Qed.

(** *** [triggerCooldown] and [recordRateLimitFailure] *)

Lemma triggerCooldown_fields now s :
  let s' := triggerCooldown now s in
  COOLDOWN_MODE s' = true ∧
  cooldownStartTime s' = now ∧
  rateLimitFailureCount s' = 0%nat ∧
  lastFailureTime s' = lastFailureTime s ∧
  consecutiveCooldowns s' = S (consecutiveCooldowns s).
Proof.
  unfold triggerCooldown.
  match goal with |- context [if ?b then _ else _] => destruct b end; [|done].
  match goal with
  | |- context [fold_left stop_trader ?l ?s1] =>
      destruct (stop_traders_frame l s1) as (-> & -> & -> & -> & -> & _)
  end.
  done.
Qed.

Lemma triggerCooldown_below_ceiling now s :
  (S (consecutiveCooldowns s) < MAX_CONSECUTIVE_COOLDOWNS)%nat →
  userSessions (triggerCooldown now s) = userSessions s ∧
  sent (triggerCooldown now s) = sent s.
Proof.
  intros Hlt. unfold triggerCooldown.
  match goal with |- context [if ?b then _ else _] => destruct b eqn:Hceil end;
    [|done].
  apply Nat.leb_le in Hceil. cbn in Hceil. lia.
Qed.

(** What one call of [recordRateLimitFailure] does to the counters:
    [n] is the counter after the window test, and [entered] tells
    whether the call went into [triggerCooldown]. *)
Lemma recordRateLimitFailure_fields now s :
  let n := if decide (now - lastFailureTime s > FAILURE_WINDOW) then 0%nat
           else rateLimitFailureCount s in
  let entered := (RATE_LIMIT_THRESHOLD <=? S n)%nat && negb (COOLDOWN_MODE s) in
  let s' := recordRateLimitFailure now s in
  COOLDOWN_MODE s' = COOLDOWN_MODE s || entered ∧
  rateLimitFailureCount s' = (if entered then 0%nat else S n) ∧
  lastFailureTime s' = now ∧
  consecutiveCooldowns s' =
    (if entered then S (consecutiveCooldowns s) else consecutiveCooldowns s) ∧
  (entered = false → userSessions s' = userSessions s ∧ sent s' = sent s) ∧
  (entered = true →
     s' = triggerCooldown now
            (set_lastFailureTime now (set_rateLimitFailureCount (S n) s))).
Proof.
  unfold recordRateLimitFailure. cbn zeta.
  destruct (decide (now - lastFailureTime s > FAILURE_WINDOW)); cbn;
    match goal with |- context [if ?b then _ else _] => destruct b eqn:Hb end;
    try (rewrite orb_false_r; done);
    match goal with
    | |- context [triggerCooldown ?t ?s0] =>
        destruct (triggerCooldown_fields t s0) as (-> & _ & -> & -> & ->)
    end;
    rewrite orb_true_r; done.
Qed.

(** C4.  From Normal mode, two rate-limit failures of which the second
    comes at most 10 s after the first leave the coordinator in Cooldown.
    A failure that is the only one in its window (the counter was 0, or
    the previous failure is more than 10 s old) does not enter Cooldown,
    and neither does the next one when it comes more than 10 s later:
    the counter restarts at 1. *)
Theorem two_failures_in_window_enter_cooldown s (t1 t2 : Z) :
  COOLDOWN_MODE s = false →
  (t2 - t1 ≤ FAILURE_WINDOW →
     COOLDOWN_MODE (recordRateLimitFailure t2 (recordRateLimitFailure t1 s)) = true) ∧
  (rateLimitFailureCount s = 0%nat ∨ t1 - lastFailureTime s > FAILURE_WINDOW →
     COOLDOWN_MODE (recordRateLimitFailure t1 s) = false ∧
     rateLimitFailureCount (recordRateLimitFailure t1 s) = 1%nat ∧
     (t2 - t1 > FAILURE_WINDOW →
        let s2 := recordRateLimitFailure t2 (recordRateLimitFailure t1 s) in
        COOLDOWN_MODE s2 = false ∧ rateLimitFailureCount s2 = 1%nat)).
Proof.
  intros Hnormal.
  pose proof (recordRateLimitFailure_fields t1 s) as (Hm1 & Hc1 & Hl1 & _).
  pose proof (recordRateLimitFailure_fields t2 (recordRateLimitFailure t1 s))
    as (Hm2 & Hc2 & _).
  cbn zeta in *. rewrite Hl1 in Hm2, Hc2. rewrite Hnormal in Hm1, Hc1.
  cbn in Hm1, Hc1. rewrite andb_true_r in Hm1, Hc1.
  split.
  - intros Hwin. rewrite Hm2. rewrite decide_False by lia.
    destruct (COOLDOWN_MODE (recordRateLimitFailure t1 s)) eqn:Hmode1; [done|].
    cbn. rewrite andb_true_r. apply Nat.leb_le.
    rewrite Hc1. rewrite <- Hm1. unfold RATE_LIMIT_THRESHOLD. lia.
  - intros Hsingle.
    assert (Hn : (if decide (t1 - lastFailureTime s > FAILURE_WINDOW) then 0%nat
                  else rateLimitFailureCount s) = 0%nat)
      by (destruct (decide _); [done | destruct Hsingle; [done | lia]]).
    rewrite Hn in Hm1, Hc1. cbn in Hm1, Hc1.
    split; [done|]. split; [done|]. intros Hlate.
    rewrite decide_True in Hm2, Hc2 by done. rewrite Hm1 in Hm2, Hc2.
    cbn in Hm2, Hc2. done.
Qed.

(** *** Leaving Cooldown *)

Lemma leave_cooldown_fields now s :
  let s' := leave_cooldown now s in
  COOLDOWN_MODE s' = false ∧
  rateLimitFailureCount s' = 0%nat ∧
  consecutiveCooldowns s' = 0%nat ∧
  lastResetTime s' = now ∧
  userSessions s' = userSessions s ∧
  jupiterQueue s' = RequestQueue.setRequestsPerSecond 2%Q (jupiterQueue s) ∧
  timeouts s' = timeouts s ++ [mkTimeout (now + 120000) RestoreRate].
Proof.
  unfold leave_cooldown. cbn zeta.
  match goal with
  | |- context [fold_left notify_cooldown_complete ?l ?s0] =>
      destruct (notify_frame l s0) as (-> & -> & -> & -> & -> & -> & ->)
  end.
  cbn. by destruct (TEST_MODE s).
Qed.

(** A call that has not returned yet returns [true] only out of
    [leave_cooldown]. *)
Lemma exit_run_true (steps : list (ExitStep any)) (p : Progress * Cooldown.t any) s' :
  exit_run p steps = (Returned true, s') →
  p = (Returned true, s') ∨ ∃ now s0, s' = leave_cooldown now s0.
Proof.
  revert p. induction steps as [|e steps IH]; intros p Hrun; cbn in Hrun.
  { by left. }
  apply IH in Hrun as [Hnow|Hlater]; [|by right].
  destruct p as [[b|k] s]; cbn in Hnow; [by left|].
  destruct e as [f|passed now]; cbn in Hnow; [done|]. right.
  destruct k; cbn in Hnow; try done;
    try (destruct passed; cbn in Hnow; try done);
    try (destruct (0 <? _)%nat; done).
  injection Hnow as <-. eauto.
Qed.

Lemma checkAndExitCooldown_in_cooldown now s s' :
  COOLDOWN_MODE s = true → checkAndExitCooldown now s ≠ (Returned true, s').
Proof.
  intros Hmode. unfold checkAndExitCooldown. rewrite Hmode. cbn.
  by destruct (_ <? _).
Qed.

Lemma exit_from_cooldown now s steps s' :
  COOLDOWN_MODE s = true →
  exit_run (checkAndExitCooldown now s) steps = (Returned true, s') →
  ∃ left_at s0, s' = leave_cooldown left_at s0.
Proof.
  intros Hmode [Hstart|Hleft]%exit_run_true; [|done].
  by apply checkAndExitCooldown_in_cooldown in Hstart.
Qed.

(** C6.  A call of [checkAndExitCooldown] that starts in Cooldown and
    returns [true] leaves, whatever happened at its awaits, the mode
    Normal, the failure counter and the consecutive-cooldown counter at
    0, and the queue at 2 requests per second (a minimum delay of 500
    ms), half the rate 4 of a new queue; the timeout it registered 120 s
    ahead is the last one pending, leaves the state alone when it is run
    early, and, when it runs, puts the rate back to 4 (250 ms). *)
Theorem exit_resets_counters_and_halves_rate now s steps s' :
  COOLDOWN_MODE s = true →
  exit_run (checkAndExitCooldown now s) steps = (Returned true, s') →
  COOLDOWN_MODE s' = false ∧
  rateLimitFailureCount s' = 0%nat ∧
  consecutiveCooldowns s' = 0%nat ∧
  (RequestQueue.requestsPerSecond (jupiterQueue s') == 2)%Q ∧
  (RequestQueue.minDelay (jupiterQueue s') == 500)%Q ∧
  (2 * RequestQueue.requestsPerSecond (jupiterQueue s')
     == RequestQueue.requestsPerSecond
          (RequestQueue.new_RequestQueue (any:=any) 0))%Q ∧
  ∃ pending,
    timeouts s' = pending ++ [mkTimeout (lastResetTime s' + 120000) RestoreRate] ∧
    (∀ early, early < lastResetTime s' + 120000 →
       run_timeout (length pending) early s' = s') ∧
    (∀ late, lastResetTime s' + 120000 ≤ late →
       let s'' := run_timeout (length pending) late s' in
       (RequestQueue.requestsPerSecond (jupiterQueue s'') == 4)%Q ∧
       (RequestQueue.minDelay (jupiterQueue s'') == 1000 / 4)%Q ∧
       timeouts s'' = pending ∧
       COOLDOWN_MODE s'' = false).
Proof.
  intros Hmode Hrun.
  destruct (exit_from_cooldown _ _ _ _ Hmode Hrun) as (left_at & s0 & ->).
  pose proof (leave_cooldown_fields left_at s0)
    as (Hcm & Hrl & Hcc & Hreset & _ & Hq & Htm).
  cbn zeta in Hcm, Hrl, Hcc, Hreset, Hq, Htm.
  clear Hrun.
  generalize dependent (leave_cooldown left_at s0).
  intros s' Hcm Hrl Hcc Hreset Hq Htm.
  split; [exact Hcm|]. split; [exact Hrl|]. split; [exact Hcc|].
  rewrite Hq, Hreset.
  split; [reflexivity|]. split; [reflexivity|]. split; [reflexivity|].
  exists (timeouts s0). split; [exact Htm|].
  assert (Hlook : timeouts s' !! length (timeouts s0)
                  = Some (mkTimeout (left_at + 120000) RestoreRate)).
  { rewrite Htm. apply list_lookup_middle. reflexivity. }
  split.
  - intros early Hearly. unfold run_timeout. rewrite Hlook.
    cbn [fires_at callback].
    destruct (Z.leb_spec (left_at + 120000) early); [lia | reflexivity].
  - intros late Hlate. unfold run_timeout. rewrite Hlook.
    cbn [fires_at callback].
    destruct (Z.leb_spec (left_at + 120000) late); [|lia].
    unfold run_callback.
    cbn [jupiterQueue timeouts COOLDOWN_MODE set_jupiterQueue set_timeouts].
    split; [reflexivity|]. split; [reflexivity|]. split; [|exact Hcm].
    rewrite Htm. rewrite delete_middle. apply app_nil_r.
Qed.

(** *** The ceiling is out of reach

    [triggerCooldown] is called by [recordRateLimitFailure] only, and
    only outside Cooldown; the only assignment that ends Cooldown sits
    next to the one that zeroes the counter.  So the counter is 0
    outside Cooldown and at most 1 inside, and no call of
    [recordRateLimitFailure] made in such a state stops a trader. *)

Lemma counter_bounded_initial t0 test_mode :
  counter_bounded (any:=any) (initial t0 test_mode).
Proof. split; [done | cbn; lia]. Qed.

Lemma counter_bounded_recordRateLimitFailure now s :
  counter_bounded s → counter_bounded (recordRateLimitFailure now s).
Proof.
  intros [Hzero Hle].
  pose proof (recordRateLimitFailure_fields now s) as (Hm & _ & _ & Hc & _).
  cbn zeta in *. unfold counter_bounded. rewrite Hm, Hc.
  destruct (COOLDOWN_MODE s) eqn:Hmode.
  - rewrite andb_false_r. cbn. split; [done | lia].
  - rewrite Hzero by done. cbn. rewrite andb_true_r.
    destruct (_ <=? _)%nat; split; (done || lia).
Qed.

Lemma counter_bounded_resetCooldownCounters s :
  counter_bounded s → counter_bounded (resetCooldownCounters s).
Proof. done. Qed.

Lemma counter_bounded_run_timeout n now s :
  counter_bounded s → counter_bounded (run_timeout n now s).
Proof.
  intros H. unfold run_timeout. destruct (timeouts s !! n) as [[due []]|]; [|done].
  cbn. by destruct (_ <=? _).
Qed.

Lemma counter_bounded_checkAndExitCooldown now s :
  counter_bounded s → counter_bounded (checkAndExitCooldown now s).2.
Proof.
  intros H. unfold checkAndExitCooldown.
  destruct (negb _); [done|]. cbn. by destruct (_ <? _).
Qed.

Lemma counter_bounded_resume_exit k passed now s :
  counter_bounded s → counter_bounded (resume_exit k passed now s).2.
Proof.
  intros H. destruct k; cbn; try done.
  - by destruct passed.
  - by destruct (0 <? _)%nat.
  - destruct passed; cbn; [|done].
    pose proof (leave_cooldown_fields now s) as (_ & _ & Hzero & _).
    cbn zeta in Hzero. split; [done | lia].
Qed.

Lemma recordRateLimitFailure_never_stops now s :
  counter_bounded s →
  userSessions (recordRateLimitFailure now s) = userSessions s ∧
  sent (recordRateLimitFailure now s) = sent s ∧
  (consecutiveCooldowns (recordRateLimitFailure now s)
     < MAX_CONSECUTIVE_COOLDOWNS)%nat.
Proof.
  intros Hb. pose proof (counter_bounded_recordRateLimitFailure now s Hb) as [_ Hle].
  destruct Hb as [Hzero Hone].
  pose proof (recordRateLimitFailure_fields now s) as (_ & _ & _ & _ & Hout & Hin).
  cbn zeta in Hout, Hin.
  assert (Hsame : userSessions (recordRateLimitFailure now s) = userSessions s ∧
                  sent (recordRateLimitFailure now s) = sent s).
  { destruct (_ && _) eqn:Hentered in Hout, Hin; [|by apply Hout].
    rewrite Hin by done.
    apply andb_true_iff in Hentered as [_ Hmode%negb_true_iff].
    match goal with
    | |- context [triggerCooldown ?t ?x] =>
        destruct (triggerCooldown_below_ceiling t x) as [-> ->]; [|done]
    end.
    cbn. rewrite Hzero by done. unfold MAX_CONSECUTIVE_COOLDOWNS. lia. }
  destruct Hsame. split_and!; [done | done |].
  unfold MAX_CONSECUTIVE_COOLDOWNS. lia.
Qed.

Lemma exit_run_returned b s (steps : list (ExitStep any)) :
  exit_run (Returned b, s) steps = (Returned b, s).
Proof. induction steps as [|e steps IH]; [done|]. by destruct e. Qed.


Lemma notify_sent (l : list nat) s m :
  m ∈ sent (fold_left notify_cooldown_complete l s) →
  m ∈ sent s ∨ m.2 = CooldownComplete.
Proof.
  revert s. induction l as [|u l IH]; intros s Hm; [by left|]. cbn in Hm.
  apply IH in Hm as [Hm|Hm]; [|by right].
  unfold notify_cooldown_complete, safeSendMessage in Hm.
  destruct (userSessions s !! u); [|by left].
  destruct (bot s); [|by left]. cbn in Hm.
  apply elem_of_app in Hm as [Hm| ->%list_elem_of_singleton]; [by left | by right].
Qed.

Lemma sent_after_test_mode s v :
  sent (if TEST_MODE s then set_testModeSuccessfulTrades v s else s) = sent s.
Proof. by destruct (TEST_MODE s). Qed.

(** [leave_cooldown] sends "COOLDOWN COMPLETE" messages only. *)
Lemma leave_cooldown_sent now s m :
  m ∈ sent (leave_cooldown now s) → m ∈ sent s ∨ m.2 = CooldownComplete.
Proof.
  unfold leave_cooldown. cbn zeta.
  match goal with
  | |- context [fold_left notify_cooldown_complete ?l ?s0] =>
      intros Hin; destruct (notify_sent l s0 m Hin) as [H|H]; [left | by right]
  end.
  rewrite sent_after_test_mode in H. exact H.
Qed.

Lemma no_stop_sent_leave_cooldown now s :
  no_stop_sent s → no_stop_sent (leave_cooldown now s).
Proof.
  intros Hno chat n Hin.
  apply leave_cooldown_sent in Hin as [Hin|Hin]; [by apply (Hno chat n) | done].
Qed.

Lemma no_stop_sent_resume_exit k passed now s :
  no_stop_sent s → no_stop_sent (resume_exit k passed now s).2.
Proof.
  intros Hno. destruct k; cbn; try done.
  - by destruct passed.
  - by destruct (0 <? _)%nat.
  - destruct passed; cbn; [|done]. by apply no_stop_sent_leave_cooldown.
Qed.

Lemma checkAndExitCooldown_state now s : (checkAndExitCooldown now s).2 = s.
Proof.
  unfold checkAndExitCooldown. destruct (negb _); [done|]. by destruct (_ <? _).
Qed.

Lemma no_stop_sent_run_timeout n now s :
  no_stop_sent s → no_stop_sent (run_timeout n now s).
Proof.
  intros Hno. unfold run_timeout. destruct (timeouts s !! n) as [[due []]|]; [|done].
  cbn. by destruct (_ <=? _).
Qed.

(** What every state of a running program satisfies. *)
Lemma system_step_keeps w op :
  elsewhere op →
  counter_bounded (globals w) ∧ no_stop_sent (globals w) →
  counter_bounded (globals (system_step w op)) ∧
  no_stop_sent (globals (system_step w op)).
Proof.
  intros Hop [Hb Hno]. destruct op as [now| |now|n passed now|n now|f]; cbn.
  - split; [by apply counter_bounded_recordRateLimitFailure|].
    destruct (recordRateLimitFailure_never_stops now (globals w) Hb) as (_ & Hsent & _).
    unfold no_stop_sent. by rewrite Hsent.
  - done.
  - pose proof (checkAndExitCooldown_state now (globals w)) as Hst.
    destruct (checkAndExitCooldown now (globals w)) as [[b|k] g]; cbn in Hst |- *;
      by subst g.
  - destruct (suspended w !! n) as [k|]; [|done].
    pose proof (counter_bounded_resume_exit k passed now (globals w) Hb) as Hb'.
    pose proof (no_stop_sent_resume_exit k passed now (globals w) Hno) as Hno'.
    by destruct (resume_exit k passed now (globals w)) as [[b|k'] g].
  - split; [by apply counter_bounded_run_timeout | by apply no_stop_sent_run_timeout].
  - cbn in Hop. destruct (Hop (globals w)) as (Hm & Hc & Hs).
    split; [|by apply Hs]. unfold counter_bounded. rewrite Hm, Hc. exact Hb.
Qed.

Lemma system_run_keeps ops w :
  Forall elsewhere ops →
  counter_bounded (globals w) ∧ no_stop_sent (globals w) →
  counter_bounded (globals (system_run w ops)) ∧
  no_stop_sent (globals (system_run w ops)).
Proof.
  revert w. induction ops as [|op ops IH]; intros w Hall Hinv; [done|].
  apply Forall_cons in Hall as [Hop Hall]. cbn.
  apply IH; [done|]. by apply system_step_keeps.
Qed.




End CooldownFacts.

Section CooldownInstances.

Import Cooldown Scenario.

(** On an instance: failures at 1000 ms and 6000 ms after a start at 0. *)
Lemma two_failures_in_window_enter_cooldown_witness :
  let s := initial (any:=nat) 0 false in
  COOLDOWN_MODE s = false ∧
  6000 - 1000 ≤ FAILURE_WINDOW ∧
  COOLDOWN_MODE (recordRateLimitFailure 6000 (recordRateLimitFailure 1000 s))
    = true.
Proof.
  cbn zeta. split; [reflexivity|]. split; [unfold FAILURE_WINDOW; lia|].
  apply (two_failures_in_window_enter_cooldown (initial (any:=nat) 0 false)
           1000 6000).
  - reflexivity.
  - unfold FAILURE_WINDOW. lia.
Defined.



(** On an instance: the hold expired at 60000 ms and every test passed. *)
Lemma exit_resets_counters_and_halves_rate_witness :
  let r := exit_run (checkAndExitCooldown 60000 (cooling 1)) recovery in
  COOLDOWN_MODE (cooling 1) = true ∧
  r.1 = Returned true ∧
  COOLDOWN_MODE r.2 = false ∧
  rateLimitFailureCount r.2 = 0%nat ∧
  consecutiveCooldowns r.2 = 0%nat.
Proof.
  cbn zeta. split; [reflexivity|]. split; [vm_compute; reflexivity|].
  destruct (exit_resets_counters_and_halves_rate 60000 (cooling 1) recovery
    (exit_run (checkAndExitCooldown 60000 (cooling 1)) recovery).2)
    as (Hmode & Hcount & Hcc & _).
  - reflexivity.
  - vm_compute. reflexivity.
  - split; [exact Hmode|]. split; [exact Hcount | exact Hcc].
Defined.

End CooldownInstances.

(** ** Quote cache: how the methods compose *)

Section QuoteCacheLaws.

Import QuoteCache.

Context {any : Type}.

Implicit Types (c : QuoteCache.t any) (cached : CachedQuote any).

Lemma cleanup_lookup now c key :
  cache (after (cleanup now c)) !! key =
    match cache c !! key with
    | Some cached => if decide (expired now cached) then None else Some cached
    | None => None
    end.
Proof.
  cbn. destruct (cleanup_loop now (cache c) (cache c)) as [Hm _]. cbn in Hm.
  rewrite Hm. by destruct (cache c !! key).
Qed.

Lemma cleanup_removed now c :
  removed (cleanup now c) = size (filter (λ kv, expired now kv.2) (cache c)).
Proof. apply (cleanup_loop now (cache c) (cache c)). Qed.

(** X1.  A [cleanup] does not show in what [get] answers afterwards: at
    any time from the cleanup on, [get] returns the same payload or miss
    and counts it the same way as if the cleanup had not run, and the
    two orders of the calls leave the same entries. *)
Theorem cleanup_commutes_with_get now later inputMint outputMint a c :
  now ≤ later →
  let r := get later inputMint outputMint a c in
  let r' := get later inputMint outputMint a (after (cleanup now c)) in
  r'.1 = r.1 ∧
  hits r'.2 = hits r.2 ∧
  misses r'.2 = misses r.2 ∧
  cache r'.2 = cache (after (cleanup now r.2)).
Proof.
  intros Hlater. cbn zeta.
  set (key := getCacheKey inputMint outputMint a).
  assert (Hget : ∀ c0, get later inputMint outputMint a c0 =
    match cache c0 !! key with
    | None => (None, {| cache := cache c0; hits := hits c0; misses := S (misses c0) |})
    | Some cached =>
        if decide (later - timestamp cached > TTL) then
          (None, {| cache := delete key (cache c0);
                    hits := hits c0; misses := S (misses c0) |})
        else
          (Some (quote cached),
           {| cache := cache c0; hits := S (hits c0); misses := misses c0 |})
    end) by done.
  rewrite !Hget, cleanup_lookup. clear Hget.
  destruct (cache c !! key) as [cached|] eqn:Hkey.
  - unfold expired.
    destruct (decide (now - timestamp cached > TTL)) as [Hold|Hyoung].
    + rewrite decide_True by lia. cbn [fst snd cache hits misses].
      split_and!; try done.
      apply map_eq. intros k. rewrite !cleanup_lookup. cbn [cache].
      destruct (decide (k = key)) as [->|Hne].
      * rewrite lookup_delete_eq, Hkey. unfold expired. by rewrite decide_True.
      * by rewrite lookup_delete_ne.
    + destruct (decide (later - timestamp cached > TTL)) as [Hold'|Hyoung'];
        cbn [fst snd cache hits misses]; split_and!; try done.
      apply map_eq. intros k. rewrite !cleanup_lookup. cbn [cache].
      destruct (decide (k = key)) as [->|Hne].
      * by rewrite !lookup_delete_eq.
      * rewrite !lookup_delete_ne by done. by rewrite cleanup_lookup.
  - cbn [fst snd cache hits misses]. by split_and!.
Qed.

(** X2.  After a [cleanup] no entry of the cache is older than the TTL,
    so a second [cleanup], at the same time or with an earlier reading
    of the clock, finds nothing to remove: it leaves the cache as it is
    and prints nothing. *)
Theorem cleanup_is_idempotent now earlier c :
  earlier ≤ now →
  let c1 := after (cleanup now c) in
  let r := cleanup earlier c1 in
  (∀ key cached, cache c1 !! key = Some cached → now - timestamp cached ≤ TTL) ∧
  after r = c1 ∧
  removed r = 0%nat ∧
  console r = [].
Proof.
  intros Hearlier c1 r.
  assert (Hfresh : ∀ key cached,
    cache c1 !! key = Some cached → now - timestamp cached ≤ TTL).
  { intros key cached. unfold c1. rewrite cleanup_lookup.
    destruct (cache c !! key) as [e|]; [|done]. unfold expired.
    destruct (decide _); [done|]. intros [= <-]. lia. }
  assert (Hnone : removed r = 0%nat).
  { unfold r. rewrite cleanup_removed. apply map_size_empty_iff, map_empty.
    intros k. apply map_lookup_filter_None. right. intros e He. cbn.
    apply Hfresh in He. unfold expired. lia. }
  split; [exact Hfresh|]. split_and!; [|done|].
  - assert (Hcache : cache (after r) = cache c1).
    { apply map_eq. intros k. unfold r. rewrite cleanup_lookup.
      destruct (cache c1 !! k) as [e|] eqn:He; [|done].
      apply Hfresh in He. unfold expired. by rewrite decide_False by lia. }
    destruct c1 as [m h ms] eqn:Hc1. cbn in Hcache |- *. by rewrite Hcache.
  - change (console r) with
      (if decide (0 < removed r)%nat then [CleanedUp (removed r)] else []).
    rewrite Hnone. done.
Qed.

Lemma get_counts_one now inputMint outputMint a c :
  let r := get now inputMint outputMint a c in
  (hits r.2 + misses r.2 = S (hits c + misses c))%nat ∧
  (hits c ≤ hits r.2)%nat ∧ (misses c ≤ misses r.2)%nat ∧
  (size (cache r.2) ≤ size (cache c))%nat.
Proof.
  unfold get. cbn zeta. destruct (cache c !! _) as [cached|] eqn:Hkey; cbn.
  - destruct (decide _); cbn; [|lia]. split_and!; try lia.
    rewrite map_size_delete, Hkey. lia.
  - lia.
Qed.

(** X4.  Between two resets of the statistics every [get] is counted
    once, as a hit or as a miss, and nothing else is counted: after any
    calls without [clear] and [resetStats], [hits + misses] has grown by
    the number of [get]s among them, neither counter has gone down, and
    the cache holds at most one entry more per [set]. *)
Theorem stats_count_every_get c (ops : list (Call any)) :
  forallb (λ op, negb (zeroes_stats op)) ops = true →
  let st0 := getStats c in
  let st := getStats (calls c ops) in
  (stats_hits st + stats_misses st =
     stats_hits st0 + stats_misses st0 + length (filter is_get ops))%nat ∧
  (stats_hits st0 ≤ stats_hits st)%nat ∧
  (stats_misses st0 ≤ stats_misses st)%nat ∧
  (stats_size st ≤ stats_size st0 + length (filter is_set ops))%nat.
Proof.
  cbn [getStats stats_hits stats_misses stats_size].
  revert c. induction ops as [|op ops IH]; intros c Hops.
  { cbn. lia. }
  cbn in Hops. apply andb_true_iff in Hops as [Hop Hops].
  specialize (IH (call c op) Hops).
  change (calls c (op :: ops)) with (calls (call c op) ops).
  rewrite !filter_cons.
  destruct op as [now i o a|now i o a q|now| |]; cbn in Hop; try done;
    cbn [is_get is_set]; rewrite ?(decide_True (P := Is_true true)) by done;
    rewrite ?(decide_False (P := Is_true false)) by tauto;
    cbn [call length] in *.
  - pose proof (get_counts_one now i o a c) as Hget. cbn zeta in Hget. lia.
  - assert (size (cache (set now i o a q c)) ≤ S (size (cache c)))%nat.
    { cbn. destruct (cache c !! getCacheKey i o a) eqn:Hkey.
      - rewrite map_size_insert_Some by (by rewrite Hkey). lia.
      - rewrite map_size_insert_None by done. lia. }
    cbn [set hits misses] in *. lia.
  - assert (size (cache (after (cleanup now c))) ≤ size (cache c))%nat.
    { assert (Hsub : cache (after (cleanup now c)) ⊆ cache c).
      { apply map_subseteq_spec. intros k e. rewrite cleanup_lookup.
        destruct (cache c !! k); [|done]. by destruct (decide _). }
      by apply map_subseteq_size. }
    cbn [cleanup after hits misses] in *. lia.
Qed.

(** X5.  The cache holds one entry per bucket and the last [set] wins:
    a [set] for an amount of a bucket that has an entry replaces that
    entry, payload and timestamp, without growing the cache, and [get]
    for any amount of the bucket then returns the new payload, for as
    long as the new timestamp is within the TTL. *)
Theorem set_replaces_entry_of_bucket t1 t2 inputMint outputMint a1 a2 a
    (q1 q2 : any) c :
  a1 / 1000000 = a2 / 1000000 →
  a / 1000000 = a2 / 1000000 →
  let c1 := set t1 inputMint outputMint a1 q1 c in
  let c2 := set t2 inputMint outputMint a2 q2 c1 in
  c2 = set t2 inputMint outputMint a2 q2 c ∧
  size (cache c2) = size (cache c1) ∧
  (size (cache c1) ≤ S (size (cache c)))%nat ∧
  ∀ now, now - t2 ≤ TTL → (get now inputMint outputMint a c2).1 = Some q2.
Proof.
  intros Hsame Hread c1 c2.
  pose proof (getCacheKey_bucket inputMint outputMint a1 a2 Hsame) as Hk.
  pose proof (getCacheKey_bucket inputMint outputMint a a2 Hread) as Hk'.
  split_and!.
  - unfold c2, c1, set. cbn. rewrite Hk. by rewrite insert_insert_eq.
  - unfold c2, c1, set. cbn. rewrite Hk.
    rewrite map_size_insert_Some; [done|]. by rewrite lookup_insert_eq.
  - unfold c1, set. cbn.
    destruct (cache c !! getCacheKey inputMint outputMint a1) eqn:Hkey.
    + rewrite map_size_insert_Some by (by rewrite Hkey). lia.
    + rewrite map_size_insert_None by done. lia.
  - intros now Hfresh.
    erewrite (get_hit now inputMint outputMint a c2
                (mkCachedQuote q2 t2 inputMint outputMint a2)); [done| |done].
    unfold c2, set. cbn. rewrite Hk'. by rewrite lookup_insert_eq.
Qed.

Lemma no_dash_split (i i' r r' : string) :
  no_dash i = true → no_dash i' = true →
  i +:+ String dash r = i' +:+ String dash r' → i = i' ∧ r = r'.
Proof.
  revert i'. induction i as [|ch i IH]; intros [|ch' i'] Hi Hi' Heq; cbn in *.
  - by injection Heq as ->.
  - injection Heq as <- _. apply andb_true_iff in Hi' as [Hch _].
    by rewrite Ascii.eqb_refl in Hch.
  - injection Heq as -> _. apply andb_true_iff in Hi as [Hch _].
    by rewrite Ascii.eqb_refl in Hch.
  - injection Heq as -> Heq.
    apply andb_true_iff in Hi as [_ Hi]. apply andb_true_iff in Hi' as [_ Hi'].
    destruct (IH i' Hi Hi' Heq) as [-> ->]. done.
Qed.

(** X6.  Requests share a cache entry only inside one bucket: for mint
    addresses without a dash (base58 has none), two requests get the
    same key exactly when they name the same input mint and the same
    output mint and their amounts have the same quotient by 1,000,000. *)
Theorem cache_key_identifies_pair_and_bucket i o i' o' (a a' : Z) :
  no_dash i = true → no_dash o = true →
  no_dash i' = true → no_dash o' = true →
  getCacheKey i o a = getCacheKey i' o' a' ↔
  i = i' ∧ o = o' ∧ a / 1000000 = a' / 1000000.
Proof.
  intros Hi Ho Hi' Ho'. split.
  - unfold getCacheKey. intros Heq.
    change (i +:+ String dash (o +:+ String dash (pretty (roundedAmount a)))
            = i' +:+ String dash (o' +:+ String dash (pretty (roundedAmount a'))))
      in Heq.
    apply no_dash_split in Heq as [-> Heq]; [|done|done].
    apply no_dash_split in Heq as [-> Heq]; [|done|done].
    apply (inj pretty) in Heq. unfold roundedAmount in Heq.
    split_and!; [done | done | lia].
  - intros (-> & -> & Hb). by apply getCacheKey_bucket.
Qed.

End QuoteCacheLaws.

Section QuoteCacheLawsInstances.

Import QuoteCache.

(** On an instance: an entry stored at 0, a cleanup at 30 s and a
    request at 40 s. *)
Lemma cleanup_commutes_with_get_witness :
  let c := set 0 "SOL" "USDC" 1000000 7%nat new_QuoteCache in
  30000 ≤ 40000 ∧
  (get 40000 "SOL" "USDC" 1000000 c).1 = None ∧
  (get 40000 "SOL" "USDC" 1000000 (after (cleanup 30000 c))).1 = None.
Proof.
  cbn zeta. split; [lia|].
  destruct (cleanup_commutes_with_get 30000 40000 "SOL" "USDC" 1000000
              (set 0 "SOL" "USDC" 1000000 7%nat new_QuoteCache))
    as (Hsame & _); [lia|].
  assert (Hmiss : (get 40000 "SOL" "USDC" 1000000
                     (set 0 "SOL" "USDC" 1000000 7%nat new_QuoteCache)).1 = None)
    by (vm_compute; reflexivity).
  split; [exact Hmiss|]. exact (eq_trans Hsame Hmiss).
Defined.

(** On an instance: a second cleanup, with a reading 5 s older. *)
Lemma cleanup_is_idempotent_witness :
  let c := set 0 "SOL" "USDC" 1000000 7%nat new_QuoteCache in
  25000 ≤ 30000 ∧
  removed (cleanup 30000 c) = 1%nat ∧
  removed (cleanup 25000 (after (cleanup 30000 c))) = 0%nat.
Proof.
  cbn zeta. split; [lia|]. split; [vm_compute; reflexivity|].
  apply (cleanup_is_idempotent 30000 25000
           (set 0 "SOL" "USDC" 1000000 7%nat new_QuoteCache)).
  lia.
Defined.

(** On an instance: a [set], two [get]s and a [cleanup]. *)
Lemma stats_count_every_get_witness :
  let ops := [ CallSet 0 "SOL" "USDC" 1000000 7%nat;
               CallGet 1000 "SOL" "USDC" 1000400;
               CallGet 1000 "SOL" "USDC" 5000000;
               CallCleanup 30000 ] in
  let st := getStats (calls new_QuoteCache ops) in
  forallb (λ op, negb (zeroes_stats op)) ops = true ∧
  (stats_hits st + stats_misses st = 2)%nat.
Proof.
  cbn zeta. split; [reflexivity|].
  apply (stats_count_every_get (new_QuoteCache (any:=nat))
           [ CallSet 0 "SOL" "USDC" 1000000 7%nat;
             CallGet 1000 "SOL" "USDC" 1000400;
             CallGet 1000 "SOL" "USDC" 5000000;
             CallCleanup 30000 ]).
  reflexivity.
Defined.

(** On an instance: two quotes of one bucket stored one second apart. *)
Lemma set_replaces_entry_of_bucket_witness :
  let c1 := set 0 "SOL" "USDC" 1000000 7%nat new_QuoteCache in
  let c2 := set 1000 "SOL" "USDC" 1000400 8%nat c1 in
  1000000 / 1000000 = 1000400 / 1000000 ∧
  1999999 / 1000000 = 1000400 / 1000000 ∧
  20500 - 1000 ≤ TTL ∧
  size (cache c2) = 1%nat ∧
  (get 20500 "SOL" "USDC" 1999999 c2).1 = Some 8%nat.
Proof.
  cbn zeta. split; [reflexivity|]. split; [reflexivity|].
  split; [unfold TTL; lia|].
  destruct (set_replaces_entry_of_bucket 0 1000 "SOL" "USDC"
              1000000 1000400 1999999 7%nat 8%nat new_QuoteCache)
    as (_ & Hsize & _ & Hget); [reflexivity | reflexivity |].
  split; [|apply Hget; unfold TTL; lia].
  exact (eq_trans Hsize ltac:(vm_compute; reflexivity)).
Defined.

(** On an instance: the two directions of a pair do not share a key. *)
Lemma cache_key_identifies_pair_and_bucket_witness :
  no_dash "SOL" = true ∧ no_dash "USDC" = true ∧
  getCacheKey "SOL" "USDC" 1000000 ≠ getCacheKey "USDC" "SOL" 1000000.
Proof.
  split; [reflexivity|]. split; [reflexivity|].
  intros Hkey.
  apply (cache_key_identifies_pair_and_bucket "SOL" "USDC" "USDC" "SOL"
           1000000 1000000) in Hkey as (Hmint & _);
    [discriminate Hmint | reflexivity | reflexivity | reflexivity | reflexivity].
Defined.

End QuoteCacheLawsInstances.

(** ** Request queue: the loop, the books and the rate *)

Section QueueLaws.

Import RequestQueue.

Context {any : Type}.

Implicit Types (s : RequestQueue.t any) (e : Event any) (d : Q).
Implicit Types (evs : list (Event any)).

(** X7.  There is one drain loop at most: at every point of every run at
    most one invocation of [process] is suspended on a timer, the flag
    [processing] is up exactly when one is, and while the flag is down
    the queue is empty, so no item waits without a loop that will come
    to take it. *)
Theorem single_drain_loop (t0 : Q) evs :
  let s := run (new_RequestQueue (any:=any) t0) evs in
  (length (timers s) ≤ 1)%nat ∧
  (processing s = true ↔ length (timers s) = 1%nat) ∧
  (processing s = false → queue s = []).
Proof.
  intros s. destruct (reachable_invariant t0 evs) as [_ Hloop]. fold s in Hloop.
  unfold one_loop in Hloop.
  destruct (timers s) as [|tm [|tm' tms]]; [| |done].
  - destruct Hloop as [Hproc Hq]. cbn. rewrite Hproc. split_and!; [lia | | done].
    split; [done | lia].
  - destruct Hloop as [Hproc _]. cbn. rewrite Hproc. split_and!; [lia | done | done].
Qed.

Lemma run_nextId d evs s :
  invariant d s → Forall (keeps_floor d) evs →
  nextId (run s evs) = (nextId s + length (filter is_add evs))%nat.
Proof.
  revert s. induction evs as [|e evs IH]; intros s Hinv Hall.
  { cbn. lia. }
  apply Forall_cons in Hall as [He Hall]. rewrite run_cons.
  destruct (step_spec d s e Hinv He) as (Hinv' & Hn & _).
  rewrite (IH _ Hinv' Hall), Hn, filter_cons.
  destruct e; cbn [is_add];
    rewrite ?(decide_True (P := Is_true true)) by done;
    rewrite ?(decide_False (P := Is_true false)) by tauto; cbn [length]; lia.
Qed.

Lemma nodup_below_length (l : list nat) (n : nat) :
  NoDup l → (∀ i, i ∈ l → (i < n)%nat) → (length l ≤ n)%nat.
Proof.
  intros Hnd Hlt. rewrite <- (length_seq n 0).
  apply submseteq_length, NoDup_submseteq; [done|].
  intros i Hi. apply elem_of_seq. specialize (Hlt i Hi). lia.
Qed.

Lemma all_below_length (l : list nat) (n : nat) :
  (∀ i, (i < n)%nat → i ∈ l) → (n ≤ length l)%nat.
Proof.
  intros Hall. rewrite <- (length_seq n 0) at 1.
  apply submseteq_length, NoDup_submseteq; [apply NoDup_seq|].
  intros i Hi. apply elem_of_seq in Hi. apply Hall. lia.
Qed.

(** X8.  The two getters keep the books of the submissions: the length
    of the queue and the number of dispatches never add up to more than
    the number of calls of [add], and to exactly that number as long as
    [clearQueue] was not called; every dispatched work is running or
    settled; and [getActiveRequests()] is 0 or 1. *)
Theorem getters_account_for_submissions (t0 : Q) evs :
  let s := run (new_RequestQueue (any:=any) t0) evs in
  let submitted := length (filter is_add evs) in
  (getQueueLength s + length (dispatched s) ≤ submitted)%nat ∧
  (forallb (λ e, negb (is_clear e)) evs = true →
     (getQueueLength s + length (dispatched s))%nat = submitted) ∧
  length (dispatched s) = (length (running s) + length (settled s))%nat ∧
  (getActiveRequests s = 0 ∨ getActiveRequests s = 1).
Proof.
  intros s submitted.
  pose proof (reachable_invariant t0 evs) as [Hs _]. fold s in Hs.
  assert (Hn : nextId s = submitted).
  { unfold s, submitted.
    rewrite (run_nextId 100 evs (new_RequestQueue t0));
      [done | apply invariant_new; [lra | by vm_compute | by exists 100] | apply all_keep_floor_100]. }
  assert (Hlen : length (service_order s)
                 = (getQueueLength s + length (dispatched s))%nat).
  { unfold service_order, service_items, dispatched_items, getQueueLength.
    rewrite length_fmap, length_app, length_fmap. lia. }
  split_and!.
  - rewrite <- Hlen, <- Hn.
    apply nodup_below_length; [apply Hs | apply (sound_fresh _ _ Hs)].
  - intros Hclear. rewrite <- Hlen, <- Hn. apply Nat.le_antisymm.
    + apply nodup_below_length; [apply Hs | apply (sound_fresh _ _ Hs)].
    + apply all_below_length.
      apply (run_none_lost 100 evs (new_RequestQueue t0));
        [apply invariant_new; [lra | by vm_compute | by exists 100] | apply all_keep_floor_100
        | done |].
      intros i Hi. cbn in Hi. lia.
  - pose proof (sound_accounted _ _ Hs) as Hperm.
    apply Permutation_length in Hperm.
    unfold dispatched_ids, dispatched_items in Hperm.
    rewrite !length_fmap, length_app, length_fmap in Hperm. done.
  - pose proof (sound_active _ _ Hs) as Hact.
    pose proof (sound_bounded _ _ Hs) as Hle.
    pose proof (sound_max _ _ Hs) as Hmax.
    unfold getActiveRequests. lia.
Qed.

(** X9.  [add] on a queue whose loop is not running starts a loop in the
    same synchronous call.  When no work is in flight and the last
    dispatch is at least [minDelay] old by the reading of [Date.now()],
    that loop calls the new work before [add] returns: the item is
    dispatched, stamped with that reading, and never waits in the
    queue.  Otherwise the item is queued and the loop sleeps on one
    timer. *)
Theorem add_on_idle_queue_starts_loop (t0 : Q) evs (p : Priority) :
  let s := run (new_RequestQueue (any:=any) t0) evs in
  let fn := mkItem (nextId s) p in
  let s' := add p s in
  processing s = false →
  processing s' = true ∧
  (activeRequests s = 0 → (minDelay s <= Date_now s - lastRequestTime s)%Q →
     dispatched s' = dispatched s ++ [mkDispatch fn (Date_now s)] ∧
     queue s' = [] ∧
     running s' = running s ++ [nextId s] ∧
     activeRequests s' = 1 ∧
     lastRequestTime s' = Date_now s) ∧
  (activeRequests s ≠ 0 ∨ (Date_now s - lastRequestTime s < minDelay s)%Q →
     dispatched s' = dispatched s ∧
     queue s' = [fn] ∧
     length (timers s') = 1%nat).
Proof.
  intros s fn s' Hidle.
  destruct (reachable_invariant t0 evs) as [Hs Hloop]. fold s in Hs, Hloop.
  pose proof (sound_max _ _ Hs) as Hmax.
  pose proof (sound_active _ _ Hs) as Hact.
  unfold one_loop in Hloop.
  destruct (timers s) as [|tm [|tm' tms]] eqn:Htm; [| |done].
  2: { destruct Hloop as [Hproc _]. congruence. }
  destruct Hloop as [_ Hq].
  assert (Hadd : s' = wait_max_concurrent (set_processing true (enqueue p s))).
  { unfold s', add. cbn zeta.
    change (processing (enqueue p s)) with (processing s). rewrite Hidle.
    unfold process.
    change (queue (enqueue p s)) with
      (match p with high => fn :: queue s | normal => queue s ++ [fn] end).
    rewrite Hq. by destruct p. }
  assert (Hqueue : queue (set_processing true (enqueue p s)) = [fn]).
  { cbn. rewrite Hq. by destruct p. }
  clearbody s. rewrite Hadd. clear Hadd s'.
  unfold wait_max_concurrent.
  change (activeRequests (set_processing true (enqueue p s)))
    with (activeRequests s).
  change (maxConcurrent (set_processing true (enqueue p s)))
    with (maxConcurrent s).
  rewrite Hmax.
  destruct (Z.geb_spec (activeRequests s) 1) as [Hfull|Hfree].
  - cbn. rewrite Htm. split_and!; [done | intros; lia | done].
  - unfold enforce_min_delay. cbn zeta.
    change (Date_now (set_processing true (enqueue p s))) with (Date_now s).
    change (lastRequestTime (set_processing true (enqueue p s)))
      with (lastRequestTime s).
    change (minDelay (set_processing true (enqueue p s))) with (minDelay s).
    destruct (Qltb (Date_now s - lastRequestTime s) (minDelay s)) eqn:Hlt.
    + apply Qltb_true in Hlt. cbn. rewrite Htm.
      split_and!; [done | intros; lra | done].
    + apply Qltb_false in Hlt.
      rewrite (dispatch_head _ fn [] Hqueue). cbn.
      split_and!; [done | intros; split_and!; (done || lia) |].
      intros [Hbusy|Hsoon]; [lia | lra].
Qed.

Lemma paced_chain d (log : list Dispatch) :
  paced d log →
  ∀ i j x1 x2, (i ≤ j)%nat → log !! i = Some x1 → log !! j = Some x2 →
    (at_time x1 + inject_Z (Z.of_nat (j - i)) * d <= at_time x2)%Q.
Proof.
  intros Hp i j x1 x2 Hij. remember (j - i)%nat as k eqn:Hk.
  revert j x2 Hij Hk. induction k as [|k IH]; intros j x2 Hij Hk Hi Hj.
  - assert (j = i) as -> by lia. rewrite Hi in Hj. injection Hj as <-.
    change (inject_Z (Z.of_nat 0)) with 0%Q. lra.
  - destruct j as [|j]; [lia|].
    destruct (lookup_lt_is_Some_2 log j) as [x3 Hx3].
    { apply lookup_lt_Some in Hj. lia. }
    specialize (IH j x3 ltac:(lia) ltac:(lia) Hi Hx3).
    pose proof (Hp j (S j) x3 x2 ltac:(lia) Hx3 Hj) as Hstep.
    rewrite Nat2Z.inj_succ. unfold Z.succ. rewrite inject_Z_plus.
    change (inject_Z 1) with 1%Q. lra.
Qed.

(** X10.  The queue caps the rate of the calls: the [j]-th dispatch
    comes at least [j - i] times 100 ms after the [i]-th, whatever rates
    were set on the way, and, when the rate was not changed during the
    run, at least [j - i] times the whole milliseconds of [1000 /
    requestsPerSecond] after it, which is [j - i] times [1000 /
    requestsPerSecond] when that delay is a whole number (at 3.5
    requests per second it is 285 ms for a delay of 285.71... ms); so
    [n + 1] dispatches take [n] such delays at least. *)
Theorem dispatch_rate_is_capped (t0 rate : Q) evs :
  let s := run (setRequestsPerSecond rate (new_RequestQueue (any:=any) t0)) evs in
  let whole := inject_Z (Qfloor (1000 / requestsPerSecond s)) in
  (∀ i j x1 x2, (i ≤ j)%nat →
     dispatched s !! i = Some x1 → dispatched s !! j = Some x2 →
     (at_time x1 + inject_Z (Z.of_nat (j - i)) * 100 <= at_time x2)%Q) ∧
  (forallb (λ e, negb (is_rate_change e)) evs = true →
   ∀ i j x1 x2, (i ≤ j)%nat →
     dispatched s !! i = Some x1 → dispatched s !! j = Some x2 →
     (at_time x1 + inject_Z (Z.of_nat (j - i)) * whole <= at_time x2)%Q ∧
     ((whole == 1000 / requestsPerSecond s)%Q →
      (at_time x1 + inject_Z (Z.of_nat (j - i)) * (1000 / requestsPerSecond s)
         <= at_time x2)%Q)).
Proof.
  intros s whole. split.
  - apply paced_chain.
    pose proof (reachable_invariant t0 (SetRequestsPerSecond rate :: evs)) as [Hs _].
    apply (sound_paced _ _ Hs).
  - intros Hfixed.
    pose proof (invariant_new_rate (any:=any) t0 rate) as Hinv0.
    pose proof (invariant_run _ evs _ Hinv0
                  (keeps_floor_no_rate_change _ evs Hfixed)) as [Hs _].
    destruct (rate_run _ evs _ Hinv0 Hfixed) as [_ Hrps].
    fold s in Hs, Hrps. unfold whole. rewrite Hrps.
    cbn [requestsPerSecond setRequestsPerSecond].
    intros i j x1 x2 Hij Hi Hj.
    pose proof (paced_chain _ _ (sound_paced _ _ Hs) i j x1 x2 Hij Hi Hj) as Hgap.
    split; [exact Hgap|]. intros Hwhole. by rewrite <- Hwhole.
Qed.

(** X11.  A change of rate does not touch a pacing sleep that has
    started: when the loop sleeps before its next dispatch and
    [setRequestsPerSecond] is called, the head of the queue is still
    dispatched when that sleep ends, at the time fixed before the call
    (the stamp is that time read in whole milliseconds), whatever the
    new rate; the new delay is used from the next pacing check on. *)
Theorem rate_change_keeps_pending_sleep (t0 rate : Q) evs tm fn rest :
  let s := run (new_RequestQueue (any:=any) t0) evs in
  timers s = [tm] → resume tm = AtMinDelay → queue s = fn :: rest →
  let s' := run s (SetRequestsPerSecond rate :: await_timer tm s) in
  dispatched s' =
    dispatched s ++
      [mkDispatch fn (inject_Z (Qfloor (clock s + Qmax 0 (due tm - clock s))))] ∧
  queue s' = rest ∧
  minDelay s' = (1000 / clamp rate)%Q.
Proof.
  intros s Htm Hk Hq s'. clearbody s.
  unfold s'. rewrite run_cons.
  change (step s (SetRequestsPerSecond rate)) with (setRequestsPerSecond rate s).
  change (await_timer tm s) with (await_timer tm (setRequestsPerSecond rate s)).
  rewrite run_await_timer by done. rewrite Hk. cbn [continue].
  set (s0 := drop_timer 0 _).
  rewrite (dispatch_head s0 fn rest Hq). done.
Qed.

(** *** Coming to rest *)

Lemma rest_from_next tm s :
  timers s = [tm] → resume tm = NextProcess → queue s = [] →
  at_rest (run s (await_timer tm s)) ∧
  dispatched (run s (await_timer tm s)) = dispatched s ∧
  activeRequests (run s (await_timer tm s)) = activeRequests s.
Proof.
  intros Htm Hk Hq. rewrite run_await_timer by done. rewrite Hk. cbn [continue].
  unfold process. cbn [queue drop_timer tick]. rewrite Hq.
  unfold at_rest. cbn. by rewrite Htm.
Qed.

Lemma rest_from_delay tm s :
  timers s = [tm] → resume tm = AtMinDelay → queue s = [] →
  ∃ more, Forall is_runtime more ∧
    at_rest (run s more) ∧
    dispatched (run s more) = dispatched s ∧
    activeRequests (run s more) = activeRequests s.
Proof.
  intros Htm Hk Hq.
  set (s1 := run s (await_timer tm s)).
  assert (Hs1 : s1 = dispatch (drop_timer 0 (tick (Qmax 0 (due tm - clock s)) s))).
  { unfold s1. rewrite run_await_timer by done. by rewrite Hk. }
  unfold dispatch in Hs1. cbn [queue drop_timer tick] in Hs1. rewrite Hq in Hs1.
  set (tm1 := mkTimer (clock s + Qmax 0 (due tm - clock s) + 10) NextProcess).
  assert (Htm1 : timers s1 = [tm1]) by (rewrite Hs1; cbn; by rewrite Htm).
  assert (Hq1 : queue s1 = []) by (by rewrite Hs1).
  destruct (rest_from_next tm1 s1 Htm1 eq_refl Hq1) as (Hrest & Hd & Ha).
  exists (await_timer tm s ++ await_timer tm1 s1).
  split; [apply Forall_app; split; apply runtime_await_timer|].
  rewrite run_app. fold s1. rewrite Hd, Ha.
  split; [done|]. by rewrite Hs1.
Qed.

Lemma rest_from_wait tm s :
  timers s = [tm] → resume tm = AtMaxConcurrent → queue s = [] →
  activeRequests s = 0 → maxConcurrent s = 1 →
  ∃ more, Forall is_runtime more ∧
    at_rest (run s more) ∧
    dispatched (run s more) = dispatched s ∧
    activeRequests (run s more) = activeRequests s.
Proof.
  intros Htm Hk Hq Hact Hmax.
  set (s0 := drop_timer 0 (tick (Qmax 0 (due tm - clock s)) s)).
  set (s1 := run s (await_timer tm s)).
  assert (Hs1 : s1 = enforce_min_delay s0).
  { unfold s1. rewrite run_await_timer by done. rewrite Hk. cbn [continue].
    fold s0. unfold wait_max_concurrent.
    change (activeRequests s0) with (activeRequests s).
    change (maxConcurrent s0) with (maxConcurrent s).
    by rewrite Hact, Hmax. }
  assert (Hs0t : timers s0 = []) by (cbn; by rewrite Htm).
  unfold enforce_min_delay in Hs1. cbn zeta in Hs1.
  destruct (Qltb _ _).
  - set (tm1 := mkTimer (clock s0 + (minDelay s0 - (Date_now s0 - lastRequestTime s0)))
                  AtMinDelay) in *.
    assert (Htm1 : timers s1 = [tm1]) by (rewrite Hs1; cbn; by rewrite Htm).
    assert (Hq1 : queue s1 = []) by (by rewrite Hs1).
    destruct (rest_from_delay tm1 s1 Htm1 eq_refl Hq1)
      as (more & Hrt & Hrest & Hd & Ha).
    exists (await_timer tm s ++ more).
    split; [apply Forall_app; split; [apply runtime_await_timer | done]|].
    rewrite run_app. fold s1. rewrite Hd, Ha.
    split; [done|]. by rewrite Hs1.
  - unfold dispatch in Hs1. change (queue s0) with (queue s) in Hs1.
    rewrite Hq in Hs1.
    set (tm1 := mkTimer (clock s0 + 10) NextProcess) in *.
    assert (Htm1 : timers s1 = [tm1]) by (rewrite Hs1; cbn; by rewrite Htm).
    assert (Hq1 : queue s1 = []) by (by rewrite Hs1).
    destruct (rest_from_next tm1 s1 Htm1 eq_refl Hq1) as (Hrest & Hd & Ha).
    exists (await_timer tm s ++ await_timer tm1 s1).
    split; [apply Forall_app; split; apply runtime_await_timer|].
    rewrite run_app. fold s1. rewrite Hd, Ha.
    split; [done|]. by rewrite Hs1.
Qed.

(** X12.  Left to the runtime, every run comes to rest: time passing,
    timers firing and works ending are enough for the loop to dispatch
    every queued item, in the order of the queue, to see the last work
    end, and to stop, with the flag [processing] down, no timer pending
    and no request counted as active.  The next [add] finds the queue as
    a new one. *)
Theorem drain_loop_comes_to_rest (t0 : Q) evs (o : Outcome any) :
  let s := run (new_RequestQueue (any:=any) t0) evs in
  ∃ more, Forall is_runtime more ∧
    at_rest (run s more) ∧
    activeRequests (run s more) = 0 ∧
    dispatched_items (run s more) = dispatched_items s ++ queue s.
Proof.
  intros s. pose proof (reachable_invariant t0 evs) as Hinv. fold s in Hinv.
  clearbody s.
  destruct (serve_all 100 o s Hinv) as (evs1 & Hrt1 & Hq1 & Hd1).
  pose proof (invariant_run 100 evs1 s Hinv (runtime_keeps_floor 100 evs1 Hrt1))
    as Hinv1.
  set (s1 := run s evs1) in *.
  destruct (free_slot 100 o s1 Hinv1) as (evs2 & Hrt2 & Hact2 & Hq2 & Htm2 & Hd2).
  pose proof (invariant_run 100 evs2 s1 Hinv1 (runtime_keeps_floor 100 evs2 Hrt2))
    as Hinv2.
  set (s2 := run s1 evs2) in *.
  rewrite Hq1 in Hq2.
  assert (Hrest : ∃ more, Forall is_runtime more ∧
    at_rest (run s2 more) ∧
    dispatched (run s2 more) = dispatched s2 ∧
    activeRequests (run s2 more) = activeRequests s2).
  { destruct Hinv2 as [Hs2 Hloop2]. unfold one_loop in Hloop2.
    destruct (timers s2) as [|tm [|tm' tms]] eqn:Htm; [| |done].
    - exists []. split; [constructor|]. cbn. unfold at_rest.
      destruct Hloop2 as [Hproc _]. by split_and!.
    - destruct (resume tm) eqn:Hk.
      + by apply (rest_from_wait tm s2 Htm Hk Hq2 Hact2 (sound_max _ _ Hs2)).
      + by apply (rest_from_delay tm s2 Htm Hk Hq2).
      + exists (await_timer tm s2). split; [apply runtime_await_timer|].
        by apply rest_from_next. }
  destruct Hrest as (evs3 & Hrt3 & Hrest & Hd3 & Ha3).
  exists (evs1 ++ evs2 ++ evs3).
  split; [by repeat (apply Forall_app; split)|].
  rewrite !run_app. fold s1. fold s2.
  split; [done|]. split; [by rewrite Ha3|].
  unfold dispatched_items. rewrite Hd3, Hd2. exact Hd1.
Qed.

End QueueLaws.

Section QueueLawsInstances.

Import RequestQueue Scenario.

(** On an instance: two quotes, the second waiting. *)
Lemma single_drain_loop_witness :
  let s := run jupiterQueue two_quotes in
  length (timers s) = 1%nat ∧ processing s = true.
Proof.
  cbn zeta.
  assert (Hone : length (timers (run jupiterQueue two_quotes)) = 1%nat)
    by (vm_compute; reflexivity).
  split; [exact Hone|].
  destruct (single_drain_loop (any:=nat) 1000 two_quotes) as (_ & Hflag & _).
  apply Hflag. exact Hone.
Defined.

(** On an instance: the three sells, all dispatched. *)
Lemma getters_account_for_submissions_witness :
  let s := run jupiterQueue three_sells in
  forallb (λ e, negb (is_clear e)) three_sells = true ∧
  (getQueueLength s + length (dispatched s))%nat = 3%nat.
Proof.
  cbn zeta. split; [vm_compute; reflexivity|].
  destruct (getters_account_for_submissions (any:=nat) 1000 three_sells)
    as (_ & Hall & _).
  exact (eq_trans (Hall ltac:(vm_compute; reflexivity))
           ltac:(vm_compute; reflexivity)).
Defined.

(** On an instance: the first quote submitted to a new queue. *)
Lemma add_on_idle_queue_starts_loop_witness :
  let s := run jupiterQueue [] in
  processing s = false ∧
  activeRequests s = 0 ∧
  (minDelay s <= Date_now s - lastRequestTime s)%Q ∧
  dispatched (add normal s) = [mkDispatch (mkItem 0 normal) 1000].
Proof.
  cbn zeta. split; [reflexivity|]. split; [reflexivity|].
  assert (Hpaced : (minDelay (run jupiterQueue [])
                    <= Date_now (run jupiterQueue [])
                       - lastRequestTime (run jupiterQueue []))%Q)
    by (vm_compute; discriminate).
  split; [exact Hpaced|].
  destruct (add_on_idle_queue_starts_loop (any:=nat) 1000 [] normal)
    as (_ & Hnow & _); [reflexivity|].
  destruct (Hnow eq_refl Hpaced) as (Hd & _). exact Hd.
Defined.

(** On an instance: the three sells at 4 requests per second; the third
    dispatch comes two delays after the first. *)
Lemma dispatch_rate_is_capped_witness :
  let s := run (setRequestsPerSecond 4 (new_RequestQueue 1000)) three_sells in
  let x1 := mkDispatch (mkItem 0 high) 1000 in
  let x3 := mkDispatch (mkItem 1 high) 1500 in
  forallb (λ e, negb (is_rate_change e)) three_sells = true ∧
  dispatched s !! 0%nat = Some x1 ∧
  dispatched s !! 2%nat = Some x3 ∧
  (at_time x1 + inject_Z (Z.of_nat (2 - 0)) * (1000 / requestsPerSecond s)
     <= at_time x3)%Q.
Proof.
  cbn zeta.
  set (s := run (setRequestsPerSecond 4 (new_RequestQueue 1000)) three_sells).
  assert (H0 : dispatched s !! 0%nat = Some (mkDispatch (mkItem 0 high) 1000))
    by (vm_compute; reflexivity).
  assert (H2 : dispatched s !! 2%nat = Some (mkDispatch (mkItem 1 high) 1500))
    by (vm_compute; reflexivity).
  split; [vm_compute; reflexivity|]. split; [exact H0|]. split; [exact H2|].
  destruct (dispatch_rate_is_capped (any:=nat) 1000 4 three_sells) as (_ & Hcap).
  destruct (Hcap ltac:(vm_compute; reflexivity) 0%nat 2%nat _ _ (Nat.le_0_l 2) H0 H2)
    as [_ Hexact].
  apply Hexact. vm_compute. reflexivity.
Defined.

(** On an instance: the second sell waits for the 140 ms that are left
    of the delay of 250 ms when the rate is set to 1 request per second;
    it is dispatched 250 ms after the first, not 1000 ms. *)
Lemma rate_change_keeps_pending_sleep_witness :
  let evs := [ Add high; Add high; Tick 10; Fire 0;
               Finish 0 (resolved 0%nat); Release 0; Tick 100; Fire 0 ] in
  let s := run jupiterQueue evs in
  let tm := default (mkTimer 0 NextProcess) (head (timers s)) in
  let s' := run s (SetRequestsPerSecond 1 :: await_timer tm s) in
  timers s = [tm] ∧ resume tm = AtMinDelay ∧ queue s = [mkItem 1 high] ∧
  (minDelay s' == 1000)%Q ∧
  ∃ x, last (dispatched s') = Some x ∧ item x = mkItem 1 high ∧
       (at_time x == 1250)%Q.
Proof.
  cbn zeta.
  set (evs := [ Add high; Add high; Tick 10; Fire 0;
                Finish 0 (resolved 0%nat); Release 0; Tick 100; Fire 0 ]).
  set (s := run jupiterQueue evs).
  set (tm := default (mkTimer 0 NextProcess) (head (timers s))).
  assert (Htm : timers s = [tm]) by (vm_compute; reflexivity).
  assert (Hk : resume tm = AtMinDelay) by (vm_compute; reflexivity).
  assert (Hq : queue s = [mkItem 1 high]) by (vm_compute; reflexivity).
  split; [exact Htm|]. split; [exact Hk|]. split; [exact Hq|].
  destruct (rate_change_keeps_pending_sleep (any:=nat) 1000 1 evs tm
              (mkItem 1 high) [] Htm Hk Hq) as (Hd & _ & Hdelay).
  assert (Hat : (inject_Z (Qfloor (clock s + Qmax 0 (due tm - clock s))) == 1250)%Q)
    by (vm_compute; reflexivity).
  assert (Hlast : ∀ (l k : list Dispatch) x, l = k ++ [x] → last l = Some x)
    by (intros l k x ->; apply last_snoc).
  assert (Hnew : ∀ d : Q, d = (1000 / clamp 1)%Q → (d == 1000)%Q)
    by (intros d ->; vm_compute; reflexivity).
  split; [exact (Hnew _ Hdelay)|].
  exists (mkDispatch (mkItem 1 high)
            (inject_Z (Qfloor (clock s + Qmax 0 (due tm - clock s))))).
  split; [exact (Hlast _ _ _ Hd)|]. split; [reflexivity | exact Hat].
Defined.

End QueueLawsInstances.

(** ** Cooldown coordinator: what a running program can reach *)

Section CooldownLaws.

Import Cooldown.

Context {any : Type}.

Implicit Types (s : Cooldown.t any) (now : Z) (userId : nat).
Implicit Types (w : System any) (ops : list (Op any)).

Local Arguments Nat.leb : simpl never.

(** X13.  The fatal stop cannot happen in a running program.  From the
    state the module is loaded in, whatever the failures recorded, the
    successes, the calls of [checkAndExitCooldown] by any number of
    loops, their tests and the timeouts, in any order: the counter of
    consecutive cooldowns is 0 outside Cooldown and at most 1 inside, so
    it never reaches the ceiling 3; no "BOT AUTO-STOPPED" message is ever sent;
    and the next rate-limit failure stops no session.  Cooldown is
    entered only from Normal mode and left only with the counter put
    back to 0. *)
Theorem fatal_stop_is_unreachable (t0 : Z) (test_mode : bool) ops :
  Forall elsewhere ops →
  let w := system_run (mkSystem (initial t0 test_mode) []) ops in
  (consecutiveCooldowns (globals w) ≤ 1)%nat ∧
  (consecutiveCooldowns (globals w) < MAX_CONSECUTIVE_COOLDOWNS)%nat ∧
  (COOLDOWN_MODE (globals w) = false → consecutiveCooldowns (globals w) = 0%nat) ∧
  no_stop_sent (globals w) ∧
  ∀ now, userSessions (recordRateLimitFailure now (globals w))
         = userSessions (globals w).
Proof.
  intros Hall w.
  destruct (system_run_keeps ops (mkSystem (initial t0 test_mode) []) Hall)
    as [Hb Hno].
  { split; [apply counter_bounded_initial|]. intros chat n Hin.
    by apply elem_of_nil in Hin. }
  fold w in Hb, Hno. split_and!.
  - apply Hb.
  - destruct Hb as [_ Hle]. unfold MAX_CONSECUTIVE_COOLDOWNS. lia.
  - apply Hb.
  - exact Hno.
  - intros now. by apply recordRateLimitFailure_never_stops.
Qed.

(** In Cooldown a failure moves the failure counter and the time of the
    last failure, and nothing else. *)
Lemma failure_counted now s :
  COOLDOWN_MODE s = true →
  recordRateLimitFailure now s =
    set_lastFailureTime now
      (set_rateLimitFailureCount
         (S (if decide (now - lastFailureTime s > FAILURE_WINDOW) then 0
             else rateLimitFailureCount s)) s).
Proof.
  intros Hmode. unfold recordRateLimitFailure. cbn zeta.
  destruct (decide (now - lastFailureTime s > FAILURE_WINDOW)); cbn;
    rewrite Hmode, andb_false_r; done.
Qed.

(** X14.  A rate-limit failure recorded while the coordinator is in
    Cooldown is counted and nothing more: the failure counter and the
    time of the last failure move as outside Cooldown, and every other
    variable stays as it is; the hold is not restarted, the counter of
    consecutive cooldowns does not move, no session is touched and no
    message is sent. *)
Theorem failure_in_cooldown_is_only_counted now s :
  COOLDOWN_MODE s = true →
  let counted :=
    S (if decide (now - lastFailureTime s > FAILURE_WINDOW) then 0
       else rateLimitFailureCount s) in
  let s' := recordRateLimitFailure now s in
  s' = set_lastFailureTime now (set_rateLimitFailureCount counted s) ∧
  COOLDOWN_MODE s' = true ∧
  cooldownStartTime s' = cooldownStartTime s ∧
  consecutiveCooldowns s' = consecutiveCooldowns s ∧
  userSessions s' = userSessions s ∧
  sent s' = sent s.
Proof.
  intros Hmode counted s'.
  assert (Heq : s' = set_lastFailureTime now (set_rateLimitFailureCount counted s))
    by (by apply failure_counted).
  rewrite Heq. by split_and!.
Qed.

(** X15.  A test that fails restarts the hold.  When the call is resumed
    from [testRateLimitRecovery] or from [testResumptionWithOneWallet]
    with a failure, it returns [false], stays in Cooldown and sets the
    start of the cooldown to the present time; every call made during
    the 60 s that follow returns [false] at once and changes nothing. *)
Theorem failed_test_restarts_the_hold (k : ExitAwait) now later s :
  k = RateLimitTest ∨ k = ResumptionTest →
  COOLDOWN_MODE s = true →
  later - now < COOLDOWN_DURATION →
  let r := resume_exit k false now s in
  r.1 = Returned false ∧
  r.2 = set_cooldownStartTime now s ∧
  COOLDOWN_MODE r.2 = true ∧
  consecutiveCooldowns r.2 = consecutiveCooldowns s ∧
  checkAndExitCooldown later r.2 = (Returned false, r.2).
Proof.
  intros Hk Hmode Hlater r.
  assert (Hr : r = (Returned false, set_cooldownStartTime now s)).
  { unfold r. by destruct Hk as [-> | ->]. }
  rewrite Hr. cbn [fst snd]. split_and!; try done.
  unfold checkAndExitCooldown.
  change (COOLDOWN_MODE (set_cooldownStartTime now s)) with (COOLDOWN_MODE s).
  rewrite Hmode.
  change (cooldownStartTime (set_cooldownStartTime now s)) with now.
  cbn [negb]. by rewrite (proj2 (Z.ltb_lt _ _) Hlater).
Qed.

Lemma exit_trace_returned b s (steps : list (ExitStep any)) :
  exit_trace (Returned b, s) steps = [].
Proof. induction steps as [|e steps IH]; [done|]. by destruct e. Qed.

(** A call suspended at [k] that returns [true] goes through the rest
    of the protocol, and the two tests pass. *)
Lemma exit_trace_from (steps : list (ExitStep any)) k s s' :
  exit_run (Awaiting k, s) steps = (Returned true, s') →
  ∃ sells,
    (exit_trace (Awaiting k, s) steps).*1.*1 = protocol_from k sells ∧
    ∀ k' passed now, (k', passed, now) ∈ exit_trace (Awaiting k, s) steps →
      k' = RateLimitTest ∨ k' = ResumptionTest → passed = true.
Proof.
  revert k s. induction steps as [|e steps IH]; intros k s Hrun; [done|].
  destruct e as [f|passed now].
  { cbn in Hrun |- *. by apply IH. }
  change (exit_run (Awaiting k, s) (Resumed passed now :: steps))
    with (exit_run (resume_exit k passed now s) steps) in Hrun.
  change (exit_trace (Awaiting k, s) (Resumed passed now :: steps))
    with ((k, passed, now) :: exit_trace (resume_exit k passed now s) steps).
  assert (Hnext : ∀ k1 s1,
    resume_exit k passed now s = (Awaiting k1, s1) →
    (k = RateLimitTest ∨ k = ResumptionTest → passed = true) →
    (∀ sells1, ∃ sells, k :: protocol_from k1 sells1 = protocol_from k sells) →
    ∃ sells : bool,
      ((k, passed, now) :: exit_trace (resume_exit k passed now s) steps).*1.*1
        = protocol_from k sells ∧
      ∀ k' passed' now',
        (k', passed', now')
          ∈ (k, passed, now) :: exit_trace (resume_exit k passed now s) steps →
        k' = RateLimitTest ∨ k' = ResumptionTest → passed' = true).
  { intros k1 s1 Hres Hpass Hshape. rewrite Hres in Hrun |- *.
    destruct (IH k1 s1 Hrun) as (sells1 & Htr & Hok).
    destruct (Hshape sells1) as (sells & Hsh).
    exists sells. split.
    - cbn [fmap list_fmap fst]. rewrite <- Hsh. f_equal. exact Htr.
    - intros k' passed' now' [Hhd|Htl]%elem_of_cons.
      + injection Hhd as -> -> ->. exact Hpass.
      + by apply (Hok k' passed' now'). }
  destruct k; cbn [resume_exit] in *.
  - apply (Hnext RateLimitTest s); [done | by intros [|] |].
    intros sells1. by exists sells1.
  - destruct passed; cbn [negb] in *.
    + apply (Hnext BuildSellQueue s); [done | done |].
      intros sells1. by exists sells1.
    + by rewrite exit_run_returned in Hrun.
  - destruct (0 <? length (sellQueue s))%nat.
    + apply (Hnext ProcessSellQueue s); [done | by intros [|] |].
      intros ?. by exists true.
    + apply (Hnext FinalWait s); [done | by intros [|] |].
      intros ?. by exists false.
  - apply (Hnext FinalWait s); [done | by intros [|] |].
    intros ?. by exists true.
  - apply (Hnext ResumptionTest s); [done | by intros [|] |].
    intros ?. by exists true.
  - destruct passed; cbn [negb] in *.
    + rewrite exit_trace_returned. exists true. split; [done|].
      intros k' passed' now' [Hhd|Htl]%elem_of_cons.
      * by injection Hhd as -> -> ->.
      * by apply elem_of_nil in Htl.
    + by rewrite exit_run_returned in Hrun.
Qed.

(** X16.  Cooldown is left through the whole protocol only.  A call of
    [checkAndExitCooldown] that starts in Cooldown and returns [true]
    was made when the hold of 60 s had expired, and went, in this order,
    through the 5 s wait, the rate-limit test, [buildSellQueue],
    [processSellQueue] if there was something to sell, the 30 s wait
    and the resumption test; both tests passed.  No other code in
    between can make it skip a step. *)
Theorem exit_goes_through_the_protocol now s (steps : list (ExitStep any)) s' :
  COOLDOWN_MODE s = true →
  exit_run (checkAndExitCooldown now s) steps = (Returned true, s') →
  COOLDOWN_DURATION ≤ now - cooldownStartTime s ∧
  ∃ sells,
    (exit_trace (checkAndExitCooldown now s) steps).*1.*1 = protocol sells ∧
    ∀ k passed at_, (k, passed, at_) ∈ exit_trace (checkAndExitCooldown now s) steps →
      k = RateLimitTest ∨ k = ResumptionTest → passed = true.
Proof.
  intros Hmode Hrun. unfold checkAndExitCooldown in *. rewrite Hmode in *.
  cbn [negb] in *.
  destruct (Z.ltb_spec (now - cooldownStartTime s) COOLDOWN_DURATION) as [Hearly|Hheld].
  - by rewrite exit_run_returned in Hrun.
  - split; [done|]. by apply exit_trace_from in Hrun.
Qed.

End CooldownLaws.

Section CooldownLawsInstances.

Import Cooldown Scenario.

(** On an instance: two failures one second apart put the coordinator
    in Cooldown; a loop calls [checkAndExitCooldown] 70 s later, is
    resumed from its first wait, and three more failures are recorded
    meanwhile. *)
Lemma fatal_stop_is_unreachable_witness :
  let ops : list (Op nat) :=
    [ RateLimitFailure 1000; RateLimitFailure 2000; CallExit 70000;
      ResumeExit 0 true 75000; Elsewhere (λ g, g);
      RateLimitFailure 76000; RateLimitFailure 77000; RateLimitFailure 78000 ] in
  let w := system_run (mkSystem (initial 0 true) []) ops in
  Forall elsewhere ops ∧
  COOLDOWN_MODE (globals w) = true ∧
  (consecutiveCooldowns (globals w) ≤ 1)%nat.
Proof.
  cbn zeta.
  assert (Hall : Forall (elsewhere (any:=nat))
    [ RateLimitFailure 1000; RateLimitFailure 2000; CallExit 70000;
      ResumeExit 0 true 75000; Elsewhere (λ g, g);
      RateLimitFailure 76000; RateLimitFailure 77000; RateLimitFailure 78000 ]).
  { repeat apply Forall_cons_2; try exact I; [|apply Forall_nil_2].
    intros s. split; [reflexivity|]. split; [reflexivity|]. intros H. exact H. }
  split; [exact Hall|]. split; [vm_compute; reflexivity|].
  apply (fatal_stop_is_unreachable (any:=nat) 0 true _ Hall).
Defined.

(** On an instance: a failure recorded 5 s into a cooldown. *)
Lemma failure_in_cooldown_is_only_counted_witness :
  COOLDOWN_MODE (cooling 1) = true ∧
  cooldownStartTime (recordRateLimitFailure 5000 (cooling 1)) = 0 ∧
  consecutiveCooldowns (recordRateLimitFailure 5000 (cooling 1)) = 1%nat.
Proof.
  split; [reflexivity|].
  destruct (failure_in_cooldown_is_only_counted 5000 (cooling 1))
    as (_ & _ & Hstart & Hcount & _); [reflexivity|].
  split; [exact Hstart | exact Hcount].
Defined.

(** On an instance: the rate-limit test fails at 66 s; a call at 100 s
    is turned away. *)
Lemma failed_test_restarts_the_hold_witness :
  let r := resume_exit RateLimitTest false 66000 (cooling 1) in
  COOLDOWN_MODE (cooling 1) = true ∧
  100000 - 66000 < COOLDOWN_DURATION ∧
  COOLDOWN_DURATION ≤ 100000 - cooldownStartTime (cooling 1) ∧
  (checkAndExitCooldown 100000 r.2).1 = Returned false.
Proof.
  cbn zeta. split; [reflexivity|].
  split; [unfold COOLDOWN_DURATION; lia|].
  split; [vm_compute; discriminate|].
  destruct (failed_test_restarts_the_hold RateLimitTest 66000 100000 (cooling 1))
    as (_ & _ & _ & _ & Hcall).
  - left. reflexivity.
  - reflexivity.
  - unfold COOLDOWN_DURATION. lia.
  - exact (f_equal fst Hcall).
Defined.

(** On an instance: the recovery in which no wallet holds tokens. *)
Lemma exit_goes_through_the_protocol_witness :
  let p := checkAndExitCooldown 60000 (cooling 1) in
  COOLDOWN_MODE (cooling 1) = true ∧
  (exit_run p recovery).1 = Returned true ∧
  (exit_trace p recovery).*1.*1 = protocol false ∧
  COOLDOWN_DURATION ≤ 60000 - cooldownStartTime (cooling 1).
Proof.
  cbn zeta. split; [reflexivity|]. split; [vm_compute; reflexivity|].
  split; [vm_compute; reflexivity|].
  apply (exit_goes_through_the_protocol 60000 (cooling 1) recovery
           (exit_run (checkAndExitCooldown 60000 (cooling 1)) recovery).2).
  - reflexivity.
  - vm_compute. reflexivity.
Defined.

End CooldownLawsInstances.

(** ** Cooldown coordinator: failures and successes in a row *)

Section CooldownSequences.

Import Cooldown.

Context {any : Type}.

Implicit Types (s : Cooldown.t any) (now : Z).

Local Arguments Nat.leb : simpl never.

(** X17.  What forces a cooldown in test mode (three calls of
    [recordRateLimitFailure] in a row, lines 5110-5112 of [performBuy],
    made after [resetCooldownCounters]) enters Cooldown once.  From
    Normal mode with the failure counter at 0, three failures each at
    most 10 s after the one before: the second enters Cooldown and the
    third is only counted; the counter of consecutive cooldowns goes up
    by one, the hold starts at the time of the second failure, and the
    failure counter is left at 1. *)
Theorem three_failures_in_a_row_enter_cooldown_once (t1 t2 t3 : Z) s :
  COOLDOWN_MODE s = false →
  rateLimitFailureCount s = 0%nat →
  t2 - t1 ≤ FAILURE_WINDOW →
  t3 - t2 ≤ FAILURE_WINDOW →
  let s1 := recordRateLimitFailure t1 s in
  let s2 := recordRateLimitFailure t2 s1 in
  let s3 := recordRateLimitFailure t3 s2 in
  COOLDOWN_MODE s1 = false ∧
  COOLDOWN_MODE s2 = true ∧
  COOLDOWN_MODE s3 = true ∧
  consecutiveCooldowns s3 = S (consecutiveCooldowns s) ∧
  cooldownStartTime s3 = t2 ∧
  rateLimitFailureCount s3 = 1%nat.
Proof.
  intros Hmode Hzero H12 H23 s1 s2 s3.
  pose proof (recordRateLimitFailure_fields t1 s) as (Hm1 & Hc1 & Hl1 & Hcc1 & _).
  cbn zeta in Hm1, Hc1, Hl1, Hcc1. fold s1 in Hm1, Hc1, Hl1, Hcc1.
  rewrite Hmode, Hzero in *.
  assert (Hn1 : ∀ (P : Prop) (d : Decision P), (if d then 0%nat else 0%nat) = 0%nat)
    by (by intros P []).
  rewrite Hn1 in Hm1, Hc1, Hcc1. cbn in Hm1, Hc1, Hcc1.
  pose proof (recordRateLimitFailure_fields t2 s1) as (Hm2 & Hc2 & Hl2 & Hcc2 & _ & Hin2).
  cbn zeta in Hm2, Hc2, Hl2, Hcc2, Hin2. fold s2 in Hm2, Hc2, Hl2, Hcc2, Hin2.
  rewrite Hm1, Hc1, Hl1, Hcc1 in *.
  rewrite (decide_False (P := t2 - t1 > FAILURE_WINDOW)) in * by lia.
  cbn in Hm2, Hc2, Hcc2, Hin2.
  assert (Hstart : cooldownStartTime s2 = t2).
  { rewrite Hin2 by done.
    match goal with
    | |- context [triggerCooldown ?t ?x] =>
        by destruct (triggerCooldown_fields t x) as (_ & -> & _)
    end. }
  pose proof (failure_counted t3 s2 Hm2) as Hs3. fold s3 in Hs3.
  rewrite Hl2, Hc2 in Hs3.
  rewrite (decide_False (P := t3 - t2 > FAILURE_WINDOW)) in Hs3 by lia.
  rewrite Hs3. split_and!; try done.
Qed.

(** X18.  A success between two failures starts the count again: after
    [resetCooldownCounters] (called on every executed buy and sell) one
    rate-limit failure never enters Cooldown, whenever it comes.  So
    failures that alternate with successes, however close in time,
    leave the coordinator in Normal mode, the counter of consecutive
    cooldowns as it was and no message sent. *)
Theorem success_between_failures_prevents_cooldown (times : list Z) s :
  COOLDOWN_MODE s = false →
  let s' := fold_left (λ s0 now, recordRateLimitFailure now (resetCooldownCounters s0))
              times s in
  COOLDOWN_MODE s' = false ∧
  consecutiveCooldowns s' = consecutiveCooldowns s ∧
  userSessions s' = userSessions s ∧
  sent s' = sent s.
Proof.
  cbn zeta. revert s. induction times as [|now times IH]; intros s Hmode; [done|].
  cbn [fold_left].
  pose proof (recordRateLimitFailure_fields now (resetCooldownCounters s))
    as (Hm & _ & _ & Hcc & Hout & _).
  cbn zeta in Hm, Hcc, Hout.
  change (COOLDOWN_MODE (resetCooldownCounters s)) with (COOLDOWN_MODE s) in *.
  change (rateLimitFailureCount (resetCooldownCounters s)) with 0%nat in *.
  change (consecutiveCooldowns (resetCooldownCounters s))
    with (consecutiveCooldowns s) in *.
  assert (Hn : ∀ (P : Prop) (d : Decision P), (if d then 0%nat else 0%nat) = 0%nat)
    by (by intros P []).
  rewrite Hn, Hmode in Hm, Hcc, Hout. cbn in Hm, Hcc, Hout.
  destruct (Hout eq_refl) as [Hsess Hsent].
  destruct (IH _ Hm) as (-> & -> & -> & ->).
  by rewrite Hcc, Hsess, Hsent.
Qed.

End CooldownSequences.

Section CooldownSequencesInstances.

Import Cooldown.

(** On an instance: the three failures of the test mode, in the same
    millisecond. *)
Lemma three_failures_in_a_row_enter_cooldown_once_witness :
  let s := initial (any:=nat) 0 true in
  let s3 := recordRateLimitFailure 5000
              (recordRateLimitFailure 5000 (recordRateLimitFailure 5000 s)) in
  COOLDOWN_MODE s = false ∧
  rateLimitFailureCount s = 0%nat ∧
  5000 - 5000 ≤ FAILURE_WINDOW ∧
  COOLDOWN_MODE s3 = true ∧
  consecutiveCooldowns s3 = 1%nat ∧
  rateLimitFailureCount s3 = 1%nat.
Proof.
  cbn zeta. split; [reflexivity|]. split; [reflexivity|].
  assert (Hwindow : 5000 - 5000 ≤ FAILURE_WINDOW) by (unfold FAILURE_WINDOW; lia).
  split; [exact Hwindow|].
  destruct (three_failures_in_a_row_enter_cooldown_once 5000 5000 5000
              (initial (any:=nat) 0 true) eq_refl eq_refl Hwindow Hwindow)
    as (_ & _ & Hmode & Hcount & _ & Hfail).
  split; [exact Hmode|]. split; [exact Hcount | exact Hfail].
Defined.

(** On an instance: three failures one second apart, a success before
    each. *)
Lemma success_between_failures_prevents_cooldown_witness :
  let s := initial (any:=nat) 0 false in
  let s' := fold_left (λ s0 now, recordRateLimitFailure now (resetCooldownCounters s0))
              [1000; 2000; 3000] s in
  COOLDOWN_MODE s = false ∧ COOLDOWN_MODE s' = false.
Proof.
  cbn zeta. split; [reflexivity|].
  apply (success_between_failures_prevents_cooldown [1000; 2000; 3000]
           (initial (any:=nat) 0 false)).
  reflexivity.
Defined.

End CooldownSequencesInstances.

(** ** Adaptive rate *)

Section AdaptiveLaws.

Import Adaptive.

Context {any : Type}.

Implicit Types (s : Adaptive.t any) (now : Z).

Lemma recordSuccess_queue now s :
  jupiterQueue (recordSuccess now s) = jupiterQueue s ∨
  jupiterQueue (recordSuccess now s)
    = RequestQueue.setRequestsPerSecond (7 # 2) (jupiterQueue s).
Proof.
  unfold recordSuccess. cbn zeta. destruct (_ && _); [|by left]. cbn.
  destruct (RequestQueue.Qltb _ _); [by right | by left].
Qed.

Lemma recordFailure_queue now s :
  jupiterQueue (recordFailure now s) = jupiterQueue s ∨
  jupiterQueue (recordFailure now s)
    = RequestQueue.setRequestsPerSecond (5 # 2) (jupiterQueue s).
Proof. unfold recordFailure. destruct (_ <? _); [by right | by left]. Qed.

(** X19.  The adaptive adjustments do not look at the rate of the queue.
    A call of [recordSuccess] leaves the queue alone or sets it to 3.5
    requests per second, and a call of [recordFailure] leaves it alone
    or sets it to 2.5, whatever the rate was: on a queue at its rate of
    4 the "increase" is a decrease, and on a queue slowed to 2 the
    "decrease" is an increase.  Neither touches the queue within 60 s
    of the last adjustment, and [recordSuccess] only at the tenth
    success in a row or later. *)
Theorem adaptive_rate_ignores_current_rate now s :
  let up := recordSuccess now s in
  let down := recordFailure now s in
  (jupiterQueue up = jupiterQueue s ∨
   jupiterQueue up = RequestQueue.setRequestsPerSecond (7 # 2) (jupiterQueue s)) ∧
  (jupiterQueue down = jupiterQueue s ∨
   jupiterQueue down = RequestQueue.setRequestsPerSecond (5 # 2) (jupiterQueue s)) ∧
  (now - lastAdaptiveCheck s ≤ ADAPTIVE_CHECK_INTERVAL →
     jupiterQueue up = jupiterQueue s ∧ jupiterQueue down = jupiterQueue s ∧
     lastAdaptiveCheck up = lastAdaptiveCheck s ∧
     lastAdaptiveCheck down = lastAdaptiveCheck s) ∧
  ((consecutiveSuccesses s < 9)%nat → jupiterQueue up = jupiterQueue s) ∧
  (ADAPTIVE_CHECK_INTERVAL < now - lastAdaptiveCheck s →
     (RequestQueue.requestsPerSecond (jupiterQueue down) == 5 # 2)%Q ∧
     (RequestQueue.minDelay (jupiterQueue down) == 400)%Q ∧
     ((9 ≤ consecutiveSuccesses s)%nat → (recentFailureRate s < 5 # 100)%Q →
        (RequestQueue.requestsPerSecond (jupiterQueue up) == 7 # 2)%Q ∧
        (RequestQueue.minDelay (jupiterQueue up) == 2000 # 7)%Q)).
Proof.
  cbn zeta. split_and!.
  - apply recordSuccess_queue.
  - apply recordFailure_queue.
  - intros Hearly. unfold recordSuccess, recordFailure. cbn zeta.
    rewrite (proj2 (Z.ltb_ge _ _) Hearly), andb_false_r. done.
  - intros Hfew. unfold recordSuccess. cbn zeta.
    rewrite (proj2 (Nat.leb_gt _ _)) by lia. done.
  - intros Hlate. unfold recordSuccess, recordFailure. cbn zeta.
    rewrite (proj2 (Z.ltb_lt _ _) Hlate).
    split_and!; [done | done |].
    intros Hmany Hlow. rewrite (proj2 (Nat.leb_le _ _)) by lia. cbn.
    assert (Hlt : RequestQueue.Qltb (recentFailureRate s) (5 # 100) = true).
    { unfold RequestQueue.Qltb. apply negb_true_iff.
      destruct (Qle_bool _ _) eqn:Hle; [|done].
      apply Qle_bool_iff in Hle. lra. }
    rewrite Hlt. done.
Qed.

(** X20.  Under any sequence of reports of successes and failures the
    rate of the queue is the one it had or one of the two fixed rates
    3.5 and 2.5, its delay is accordingly the one it had, 2000/7 ms or
    400 ms, and the items of the queue and its history are not touched.
    [recentFailureRate] is never written, so it is 0 for ever in a
    program that starts with it at 0. *)
Theorem adaptive_reports_keep_two_rates s (rs : list Report) :
  let q := jupiterQueue s in
  let q' := jupiterQueue (reports s rs) in
  (q' = q ∨
   q' = RequestQueue.setRequestsPerSecond (7 # 2) q ∨
   q' = RequestQueue.setRequestsPerSecond (5 # 2) q) ∧
  RequestQueue.queue q' = RequestQueue.queue q ∧
  RequestQueue.dispatched q' = RequestQueue.dispatched q ∧
  recentFailureRate (reports s rs) = recentFailureRate s.
Proof.
  cbn zeta. revert s. induction rs as [|r rs IH]; intros s.
  { split_and!; try done. by left. }
  change (reports s (r :: rs)) with (reports (report s r) rs).
  destruct (IH (report s r)) as (Hq & Hitems & Hlog & Hrate).
  assert (Hone : (jupiterQueue (report s r) = jupiterQueue s ∨
                  jupiterQueue (report s r)
                    = RequestQueue.setRequestsPerSecond (7 # 2) (jupiterQueue s) ∨
                  jupiterQueue (report s r)
                    = RequestQueue.setRequestsPerSecond (5 # 2) (jupiterQueue s)) ∧
                 recentFailureRate (report s r) = recentFailureRate s).
  { destruct r as [now|now]; cbn [report].
    - split; [destruct (recordSuccess_queue now s); auto|].
      unfold recordSuccess. cbn zeta. by destruct (_ && _).
    - split; [destruct (recordFailure_queue now s); auto|].
      unfold recordFailure. by destruct (_ <? _). }
  destruct Hone as [Hone Hsame].
  rewrite Hitems, Hlog, Hrate, Hsame.
  destruct Hone as [Ha|[Ha|Ha]], Hq as [Hb|[Hb|Hb]]; rewrite Hb, Ha;
    split_and!; auto.
Qed.

End AdaptiveLaws.

(** ** Diagnostic script *)

Section DiagnosticLaws.

Import Diagnostic.

Context {transaction : Type}.

Implicit Types (attempts : list (Attempt transaction)) (retries : nat).

(** The back-off before the retry number [retries + 1]. *)
Lemma getBuyTx_backoff attempts retries :
  (retries ≤ MAX_RETRIES)%nat →
  Diagnostic.sleeps (getBuyTx attempts retries) `prefix_of`
    ((λ k, RETRY_DELAY_MS * (Z.of_nat k + 1)) <$> seq retries (MAX_RETRIES - retries)).
Proof.
  revert retries. induction attempts as [|[tx|limited] rest IH]; intros retries Hle;
    cbn [getBuyTx].
  - apply prefix_nil.
  - apply prefix_nil.
  - destruct (Nat.ltb_spec retries MAX_RETRIES) as [Hlt|Hge]; cbn [andb].
    + destruct limited; [|apply prefix_nil]. cbn [Diagnostic.sleeps].
      replace (MAX_RETRIES - retries)%nat with (S (MAX_RETRIES - S retries)) by lia.
      cbn [seq fmap list_fmap]. apply prefix_cons. apply IH. lia.
    + apply prefix_nil.
Qed.

Lemma getBuyTx_returns attempts retries :
  (retries ≤ MAX_RETRIES)%nat →
  (S MAX_RETRIES - retries ≤ length attempts)%nat →
  result (getBuyTx attempts retries) ≠ None.
Proof.
  revert retries. induction attempts as [|[tx|limited] rest IH]; intros retries Hle Hlen;
    cbn [getBuyTx].
  - cbn in Hlen. lia.
  - done.
  - destruct (Nat.ltb_spec retries MAX_RETRIES) as [Hlt|Hge]; cbn [andb]; [|done].
    destruct limited; [|done]. cbn [result]. apply IH; [lia|].
    cbn [length] in Hlen. lia.
Qed.

Lemma getBuyTx_built attempts retries tx :
  (retries ≤ MAX_RETRIES)%nat →
  result (getBuyTx attempts retries) = Some (Some tx) ↔
  ∃ n, (retries + n ≤ MAX_RETRIES)%nat ∧
       attempts !! n = Some (Built tx) ∧
       ∀ m, (m < n)%nat → attempts !! m = Some (Threw true).
Proof.
  revert retries. induction attempts as [|[tx'|limited] rest IH]; intros retries Hle;
    cbn [getBuyTx].
  - split; [done|]. by intros (n & _ & Hn & _).
  - cbn [result]. split.
    + intros [= ->]. exists 0%nat. split_and!; [lia | done | intros; lia].
    + intros (n & _ & Hn & Hm). destruct n as [|n]; [by injection Hn as ->|].
      specialize (Hm 0%nat ltac:(lia)). done.
  - assert (Hstop : ∀ n,
      limited = false ∨ (MAX_RETRIES ≤ retries)%nat →
      ¬ ((retries + n ≤ MAX_RETRIES)%nat ∧
         (Threw limited :: rest) !! n = Some (Built tx) ∧
         ∀ m, (m < n)%nat → (Threw limited :: rest) !! m = Some (Threw true))).
    { intros n Hs (Hn & Hb & Hm). destruct n as [|n]; [done|].
      specialize (Hm 0%nat ltac:(lia)). injection Hm as ->.
      destruct Hs as [Hs|Hs]; [done | lia]. }
    destruct (Nat.ltb_spec retries MAX_RETRIES) as [Hlt|Hge]; cbn [andb].
    + destruct limited.
      * cbn [result]. rewrite IH by lia. split.
        -- intros (n & Hn & Hb & Hm). exists (S n). split_and!; [lia | done |].
           intros [|m] Hlt'; [done|]. apply Hm. lia.
        -- intros (n & Hn & Hb & Hm). destruct n as [|n]; [done|].
           exists n. split_and!; [lia | done |].
           intros m Hlt'. apply (Hm (S m)). lia.
      * cbn [result]. split; [done|]. intros (n & Hn). exfalso.
        apply (Hstop n); [by left | done].
    + cbn [result]. split; [done|]. intros (n & Hn). exfalso.
      apply (Hstop n); [right; lia | done].
Qed.

(** X21.  [getBuyTx] (and [getSellTx]) retries a failed attempt only on
    a rate-limit error and at most three times, sleeping 1500, 3000 and
    4500 ms before the retries: once four attempts have been answered
    the call has returned, after 9 s of back-off at most.  It returns a
    transaction exactly when one of its first four attempts built one
    and every attempt before that one failed on the rate limit; and
    [sendTx] sends nothing when it is handed the [null] of a call that
    gave up. *)
Theorem getBuyTx_retries_three_times_at_most attempts :
  let call := getBuyTx attempts 0 in
  Diagnostic.sleeps call `prefix_of` [1500; 3000; 4500] ∧
  (4 ≤ length attempts → result call ≠ None)%nat ∧
  (∀ tx, result call = Some (Some tx) ↔
     ∃ n, (n ≤ 3)%nat ∧ attempts !! n = Some (Built tx) ∧
          ∀ m, (m < n)%nat → attempts !! m = Some (Threw true)) ∧
  (∀ limited rest, attempts = Threw limited :: rest → limited = false →
     call = mkCall [] (Some None)) ∧
  (∀ r confirmed, result call = Some r →
     Diagnostic.sent (sendTx r confirmed) = true ↔ ∃ tx, r = Some tx).
Proof.
  cbn zeta. split_and!.
  - apply (getBuyTx_backoff attempts 0). unfold MAX_RETRIES. lia.
  - intros Hlen. apply getBuyTx_returns; unfold MAX_RETRIES; lia.
  - intros tx. rewrite getBuyTx_built by (unfold MAX_RETRIES; lia). done.
  - by intros limited rest -> ->.
  - intros [tx|] confirmed _; cbn; split; eauto.
    + done.
    + by intros [tx [=]].
Qed.

End DiagnosticLaws.

Section AdaptiveLawsInstances.

Import Adaptive.

(** On an instance: the tenth success in a row, 70 s after the module
    was loaded, on a queue at its rate of 4 requests per second. *)
Lemma adaptive_rate_ignores_current_rate_witness :
  let s := mkAdaptive 9 0 0 (RequestQueue.new_RequestQueue (any:=nat) 0) in
  ADAPTIVE_CHECK_INTERVAL < 70000 - lastAdaptiveCheck s ∧
  (9 ≤ consecutiveSuccesses s)%nat ∧
  (recentFailureRate s < 5 # 100)%Q ∧
  RequestQueue.requestsPerSecond (jupiterQueue s) = 4%Q ∧
  (RequestQueue.requestsPerSecond (jupiterQueue (recordSuccess 70000 s)) == 7 # 2)%Q.
Proof.
  cbn zeta.
  assert (Hlate : ADAPTIVE_CHECK_INTERVAL < 70000 - 0)
    by (unfold ADAPTIVE_CHECK_INTERVAL; lia).
  assert (Hlow : (0 < 5 # 100)%Q) by reflexivity.
  split; [exact Hlate|]. split; [apply Nat.le_refl|]. split; [exact Hlow|].
  split; [reflexivity|].
  destruct (adaptive_rate_ignores_current_rate 70000
              (mkAdaptive 9 0 0 (RequestQueue.new_RequestQueue (any:=nat) 0)))
    as (_ & _ & _ & _ & Hadjust).
  destruct (Hadjust Hlate) as (_ & _ & Hup).
  destruct (Hup (Nat.le_refl 9) Hlow) as (Hrate & _). exact Hrate.
Defined.

End AdaptiveLawsInstances.

Section DiagnosticLawsInstances.

Import Diagnostic.

(** On an instance: two rate-limit errors, then a transaction. *)
Lemma getBuyTx_retries_three_times_at_most_witness :
  let attempts := [Threw true; Threw true; Built 7%nat] in
  result (getBuyTx attempts 0) = Some (Some 7%nat) ∧
  Diagnostic.sleeps (getBuyTx attempts 0) = [1500; 3000].
Proof.
  cbn zeta. split; [|reflexivity].
  destruct (getBuyTx_retries_three_times_at_most
              [Threw true; Threw true; Built 7%nat]) as (_ & _ & Hbuilt & _).
  apply Hbuilt. exists 2%nat. split; [lia|]. split; [reflexivity|].
  intros [|[|m]] Hm; [reflexivity | reflexivity | lia].
Defined.

End DiagnosticLawsInstances.

(** ** Sell queue of the recovery *)

Section SellQueueLaws.

Import SellQueue.

Implicit Types (s : SellQueue.t) (queue : list WalletWithTokens).
Implicit Types (found : nat → Inventory) (outcome : nat → SellOutcome).

Lemma inventory_entry_Some i address found_i entry :
  inventory_entry i address found_i = Some entry ↔
  ∃ uiAmount amount,
    found_i = TokenBalance (Some uiAmount) amount ∧ (0 < uiAmount)%Q ∧
    entry = mkWalletWithTokens address (i + 1) (short address) uiAmount amount.
Proof.
  unfold inventory_entry. destruct found_i as [|[ui|] amount|]; cbn.
  - split; [done|]. by intros (? & ? & ? & _).
  - destruct (RequestQueue.Qltb 0 ui) eqn:Hpos.
    + apply Qltb_true in Hpos. split.
      * intros [= <-]. by exists ui, amount.
      * intros (ui' & amount' & [= <- <-] & _ & ->). done.
    + apply Qltb_false in Hpos. split; [done|].
      intros (ui' & amount' & [= <- <-] & Hlt & _). lra.
  - split; [done|]. intros (ui' & amount' & [=] & _).
  - split; [done|]. by intros (? & ? & ? & _).
Qed.

(** The loop of [buildSellQueue] from index [i] on. *)
Lemma inventory_spec (wallets : list string) found i queue :
  ∃ added,
    inventory i wallets found queue = queue ++ added ∧
    (length added ≤ length wallets)%nat ∧
    Forall (λ entry, (i < walletNumber entry)%nat) added ∧
    StronglySorted lt (walletNumber <$> added) ∧
    ∀ entry, entry ∈ added ↔
      ∃ j address, wallets !! j = Some address ∧
        inventory_entry (i + j) address (found (i + j)%nat) = Some entry.
Proof.
  revert i queue. induction wallets as [|address rest IH]; intros i queue.
  { exists []. cbn. rewrite app_nil_r. split_and!; try done; [constructor|].
    intros entry. split; [by intros ?%elem_of_nil|]. by intros (j & a & ? & _). }
  cbn [inventory].
  destruct (IH (S i)
              match inventory_entry i address (found i) with
              | Some entry => queue ++ [entry]
              | None => queue
              end) as (added & Heq & Hlen & Hnum & Hsorted & Hin).
  assert (Hrest : ∀ entry, entry ∈ added →
    ∃ j a, (address :: rest) !! j = Some a ∧
      inventory_entry (i + j) a (found (i + j)%nat) = Some entry).
  { intros entry (j & a & Hj & He)%Hin. exists (S j), a. split; [done|].
    by replace (i + S j)%nat with (S i + j)%nat by lia. }
  assert (Hback : ∀ entry j a, (address :: rest) !! j = Some a →
    inventory_entry (i + j) a (found (i + j)%nat) = Some entry →
    (j = 0%nat ∧ a = address) ∨ entry ∈ added).
  { intros entry [|j] a Hj He; [left; by injection Hj as ->|]. right.
    apply Hin. exists j, a. split; [done|].
    by replace (S i + j)%nat with (i + S j)%nat by lia. }
  destruct (inventory_entry i address (found i)) as [first|] eqn:Hfirst.
  - exists (first :: added).
    assert (Hn : walletNumber first = (i + 1)%nat).
    { apply inventory_entry_Some in Hfirst as (? & ? & _ & _ & ->). done. }
    split_and!.
    + rewrite Heq. by rewrite <- (assoc_L (++)).
    + cbn. lia.
    + apply Forall_cons. split; [lia|].
      eapply Forall_impl; [exact Hnum|]. cbn. intros; lia.
    + cbn [fmap list_fmap]. apply SSorted_cons; [done|].
      rewrite Hn. apply Forall_fmap.
      eapply Forall_impl; [exact Hnum|]. cbn. intros; lia.
    + intros entry. split.
      * intros [->|Hlater]%elem_of_cons; [|by apply Hrest].
        exists 0%nat, address. split; [done|]. by rewrite Nat.add_0_r.
      * intros (j & a & Hj & He).
        destruct (Hback entry j a Hj He) as [[-> ->]|Hlater].
        -- rewrite Nat.add_0_r, Hfirst in He. injection He as ->.
           apply elem_of_cons. by left.
        -- apply elem_of_cons. by right.
  - exists added. split_and!; try done.
    + cbn. lia.
    + eapply Forall_impl; [exact Hnum|]. cbn. intros; lia.
    + intros entry. split; [by apply Hrest|].
      intros (j & a & Hj & He).
      destruct (Hback entry j a Hj He) as [[-> ->]|Hlater]; [|done].
      rewrite Nat.add_0_r, Hfirst in He. done.
Qed.

(** X22.  [buildSellQueue] replaces [sellQueue] by the inventory of the
    wallets: the queue it leaves holds exactly the wallets whose token
    account reported a positive [uiAmount], each once, in the order of
    [tradingWallets], numbered from 1 by its position; a wallet without
    token account, with a balance of 0 or [null], or whose request
    failed is left out, and what the queue held before is dropped.  The
    "Inventory Complete" message is sent when, and only when, the queue
    is not empty and the Telegram client is set. *)
Theorem buildSellQueue_lists_wallets_with_tokens
    (tradingWallets : list string) found s :
  let s' := buildSellQueue tradingWallets found s in
  (∀ entry, entry ∈ sellQueue s' ↔
     ∃ i address uiAmount amount,
       tradingWallets !! i = Some address ∧
       found i = TokenBalance (Some uiAmount) amount ∧ (0 < uiAmount)%Q ∧
       entry = mkWalletWithTokens address (i + 1) (short address)
                 uiAmount amount) ∧
  StronglySorted lt (walletNumber <$> sellQueue s') ∧
  (length (sellQueue s') ≤ length tradingWallets)%nat ∧
  sent s' = sent s ++
    (if bot s && (0 <? length (sellQueue s'))%nat
     then [InventoryComplete (length (sellQueue s')) (length tradingWallets)]
     else []) ∧
  isSellQueueProcessing s' = isSellQueueProcessing s ∧
  totalSells s' = totalSells s.
Proof.
  destruct (inventory_spec tradingWallets found 0 [])
    as (added & Heq & Hlen & _ & Hsorted & Hin).
  cbn [app] in Heq. cbn zeta.
  assert (Hqueue : sellQueue (buildSellQueue tradingWallets found s) = added).
  { unfold buildSellQueue. cbn zeta. rewrite Heq.
    destruct (0 <? length added)%nat; [|done].
    unfold safeSendMessage. cbn. by destruct (bot s). }
  rewrite Hqueue. split_and!; try done.
  - intros entry. rewrite Hin. split.
    + intros (j & a & Hj & He). cbn in He.
      apply inventory_entry_Some in He as (ui & amount & Hf & Hpos & ->).
      by exists j, a, ui, amount.
    + intros (j & a & ui & amount & Hj & Hf & Hpos & ->).
      exists j, a. split; [done|]. cbn. apply inventory_entry_Some.
      by exists ui, amount.
  - unfold buildSellQueue. cbn zeta. rewrite Heq.
    destruct (0 <? length added)%nat.
    + unfold safeSendMessage. cbn. destruct (bot s); cbn; [done|].
      by rewrite app_nil_r.
    + cbn. by rewrite andb_false_r, app_nil_r.
  - unfold buildSellQueue. cbn zeta.
    destruct (0 <? _)%nat; [|done]. unfold safeSendMessage. cbn. by destruct (bot s).
  - unfold buildSellQueue. cbn zeta.
    destruct (0 <? _)%nat; [|done]. unfold safeSendMessage. cbn. by destruct (bot s).
Qed.

(** The loop of [processSellQueue] from index [i] on. *)
Lemma sell_all_spec (items : list WalletWithTokens) outcome i (n : Tally) :
  let from_i (p : SellOutcome → bool) :=
    length (filter (λ j, p (outcome j)) (seq i (length items))) in
  let n' := sell_all i items outcome n in
  successfulSells n' = (successfulSells n + from_i is_sold)%nat ∧
  failedSells n' = (failedSells n + from_i is_failed)%nat ∧
  sells n' = (sells n + from_i is_sold)%nat ∧
  txs n' = (txs n + from_i is_sold)%nat ∧
  (from_i is_sold + from_i is_failed + from_i is_dust)%nat = length items.
Proof.
  cbn zeta. revert i n. induction items as [|item rest IH]; intros i n.
  { cbn. lia. }
  cbn [sell_all length seq]. rewrite !filter_cons.
  destruct (IH (S i) (sell_one (outcome i) n)) as (-> & -> & -> & -> & Hsum).
  destruct (outcome i); cbn [sell_one is_sold is_failed is_dust
    successfulSells failedSells sells txs];
    rewrite ?(decide_True (P := Is_true true)) by done;
    rewrite ?(decide_False (P := Is_true false)) by tauto;
    cbn [length]; lia.
Qed.

(** X23.  [processSellQueue] tries every wallet of the queue once and
    then empties it.  On a queue that is not empty: the sells counted as
    successful, those counted as failed and the wallets skipped for want
    of a route add up to the length of the queue, so the two numbers of
    the "Sell Complete" message add up to less than its total when dust
    was skipped; the counters of the session go up by the number of
    successful sells; the warning is in the message exactly when a sell
    failed; and the call ends with the queue empty and the flag
    [isSellQueueProcessing] down, after having raised it at its start.
    On an empty queue it does nothing, and does not touch the flag. *)
Theorem processSellQueue_counts_every_wallet outcome s :
  let n := length (sellQueue s) in
  let sold := count is_sold outcome n in
  let failed := count is_failed outcome n in
  let dust := count is_dust outcome n in
  let s' := processSellQueue outcome s in
  (sellQueue s = [] → s' = s) ∧
  (sellQueue s ≠ [] →
     isSellQueueProcessing (processSellQueue_start s).2 = true ∧
     sellQueue s' = [] ∧
     isSellQueueProcessing s' = false ∧
     (sold + failed + dust)%nat = n ∧
     totalSells s' = (totalSells s + sold)%nat ∧
     successfulTxs s' = (successfulTxs s + sold)%nat ∧
     sent s' = sent s ++
       (if bot s then [SellComplete sold failed n (0 <? failed)%nat] else [])).
Proof.
  cbn zeta. unfold processSellQueue, processSellQueue_start.
  destruct (sellQueue s) as [|item rest] eqn:Hq; cbn [fst snd].
  { split; [done|]. by intros []. }
  split; [done|]. intros _.
  unfold processSellQueue_finish. cbn [sellQueue totalSells successfulTxs bot sent
    isSellQueueProcessing]. cbn zeta.
  pose proof (sell_all_spec (item :: rest) outcome 0
                (mkTally 0 0 (totalSells s) (successfulTxs s)))
    as (Hs & Hf & Ht & Hx & Hsum).
  cbn zeta in Hs, Hf, Ht, Hx, Hsum. cbn [successfulSells failedSells sells txs] in *.
  unfold count. rewrite Hs, Hf, Ht, Hx. cbn [Nat.add].
  unfold safeSendMessage. cbn [bot].
  destruct (bot s); cbn; split_and!; try done; by rewrite app_nil_r.
Qed.

End SellQueueLaws.

Section SellQueueLawsInstances.

Import SellQueue.

(** On an instance: three wallets, the second without tokens. *)
Lemma buildSellQueue_lists_wallets_with_tokens_witness :
  let found i :=
    match i with
    | 0%nat => TokenBalance (Some 5%Q) "5000000"
    | 1%nat => TokenBalance None "0"
    | _ => TokenBalance (Some (1 # 2)) "500000"
    end in
  let s := mkState [] false 0 0 true [] in
  let s' := buildSellQueue ["Alice11111"; "Bob2222222"; "Carol33333"] found s in
  walletNumber <$> sellQueue s' = [1%nat; 3%nat] ∧
  StronglySorted lt (walletNumber <$> sellQueue s').
Proof.
  cbn zeta. split; [vm_compute; reflexivity|].
  apply (buildSellQueue_lists_wallets_with_tokens
           ["Alice11111"; "Bob2222222"; "Carol33333"]).
Defined.

(** On an instance: a sell, a wallet with dust and a failure. *)
Lemma processSellQueue_counts_every_wallet_witness :
  let outcome i :=
    match i with 0%nat => Sold | 1%nat => NoRoute | _ => SellFailed end in
  let entry n := mkWalletWithTokens "w" n "w...w" 1 "1" in
  let s := mkState [entry 1%nat; entry 2%nat; entry 3%nat] false 0 0 true [] in
  sellQueue s ≠ [] ∧
  sent (processSellQueue outcome s) = [SellComplete 1 1 3 true] ∧
  sellQueue (processSellQueue outcome s) = [].
Proof.
  cbn zeta. split; [discriminate|]. split; [vm_compute; reflexivity|].
  apply (processSellQueue_counts_every_wallet
           (λ i, match i with 0%nat => Sold | 1%nat => NoRoute | _ => SellFailed end)
           (mkState [mkWalletWithTokens "w" 1 "w...w" 1 "1";
                     mkWalletWithTokens "w" 2 "w...w" 1 "1";
                     mkWalletWithTokens "w" 3 "w...w" 1 "1"] false 0 0 true [])).
  discriminate.
Defined.

End SellQueueLawsInstances.

(** ** Wallet cache *)

Section WalletCacheLaws.

Import WalletCache.

Implicit Types (h : WalletCache.t) (p : Pending) (key : string).

Lemma getCachedBalance_pending now key force h p :
  getCachedBalance now key force h = inr p →
  p = mkPending key "" (walletCacheMap h !! key) now.
Proof.
  unfold getCachedBalance. cbn zeta. destruct (deref h _); [|by intros [= <-]].
  destruct (_ && _); [done | by intros [= <-]].
Qed.

Lemma getCachedTokenAccount_pending now walletKey mintKey force h p :
  getCachedTokenAccount now walletKey mintKey force h = inr p →
  p = mkPending walletKey mintKey (walletCacheMap h !! walletKey) now.
Proof.
  unfold getCachedTokenAccount. cbn zeta. destruct (deref h _); [|by intros [= <-]].
  destruct force; [by intros [= <-]|].
  destruct (_ !! mintKey); [|by intros [= <-]].
  destruct (_ <? _); [done | by intros [= <-]].
Qed.

Lemma entry_of_Some h key entry :
  entry_of h key = Some entry ↔
  ∃ r, walletCacheMap h !! key = Some r ∧ objects h !! r = Some entry.
Proof.
  unfold entry_of, deref. destruct (walletCacheMap h !! key) as [r|]; cbn.
  - split; [by exists r|]. by intros (? & [= <-] & ?).
  - split; [done|]. by intros (? & ? & _).
Qed.

(** A new object for [key]: the entry of [key] is the new object, the
    other keys keep theirs. *)
Lemma entry_of_new h key entry other :
  well_formed h →
  entry_of (mkStore (objects h ++ [entry])
              (<[key := length (objects h)]> (walletCacheMap h))) other
  = if decide (other = key) then Some entry else entry_of h other.
Proof.
  intros [Hvalid _]. unfold entry_of, deref. cbn.
  destruct (decide (other = key)) as [->|Hne].
  - rewrite lookup_insert_eq. cbn. by rewrite lookup_app_r, Nat.sub_diag by lia.
  - rewrite lookup_insert_ne by done.
    destruct (walletCacheMap h !! other) as [r|] eqn:Hr; [|done]. cbn.
    rewrite lookup_app_l; [done|]. by apply (Hvalid other).
Qed.

(** The object of [key] changed in place. *)
Lemma entry_of_alter h key r f other :
  well_formed h → walletCacheMap h !! key = Some r →
  entry_of (mkStore (alter f r (objects h)) (walletCacheMap h)) other
  = if decide (other = key) then f <$> entry_of h key else entry_of h other.
Proof.
  intros [_ Hinj] Hr. unfold entry_of, deref. cbn.
  destruct (decide (other = key)) as [->|Hne].
  - rewrite Hr. cbn. apply list_lookup_alter_eq.
  - destruct (walletCacheMap h !! other) as [r'|] eqn:Hr'; [|done]. cbn.
    apply list_lookup_alter_ne. intros ->. apply Hne. by apply (Hinj _ _ r').
Qed.

Lemma well_formed_new h key entry :
  well_formed h →
  well_formed (mkStore (objects h ++ [entry])
                 (<[key := length (objects h)]> (walletCacheMap h))).
Proof.
  intros [Hvalid Hinj]. split; cbn.
  - intros k r. rewrite length_app. cbn.
    destruct (decide (k = key)) as [->|Hne].
    + rewrite lookup_insert_eq. intros [= <-]. lia.
    + rewrite lookup_insert_ne by done. intros Hr%Hvalid. lia.
  - intros k1 k2 r.
    destruct (decide (k1 = key)) as [->|Hne1], (decide (k2 = key)) as [->|Hne2];
      rewrite ?lookup_insert_eq, ?lookup_insert_ne by done; try done.
    + intros [= <-] Hr%Hvalid. lia.
    + intros Hr%Hvalid [= <-]. lia.
    + apply Hinj.
Qed.

Lemma well_formed_alter h f r :
  well_formed h → well_formed (mkStore (alter f r (objects h)) (walletCacheMap h)).
Proof.
  intros [Hvalid Hinj]. split; cbn; [|done].
  intros k r' Hr. rewrite length_alter. by apply (Hvalid k).
Qed.


(** X25.  A token account that was fetched is served from the cache for
    60 s.  When a call of [getCachedTokenAccount] had to compute the
    address and is resumed with it before any other call touches the
    cache, it returns the address and keeps it under the wallet and the
    mint with the time it read at its start: every call for the same
    wallet and mint that is not forced and comes less than 60 s after
    that time returns the address without a request; a later one, a
    forced one and the first one after a sell of that mint ask again.
    The balance of the wallet, its other token accounts and the entries
    of the other wallets are as before.  A request that fails changes
    nothing and the call returns [null]. *)
Theorem fetched_token_account_is_served_from_cache
    now key mintKey force (tokenAccount : string) h p :
  well_formed h →
  getCachedTokenAccount now key mintKey force h = inr p →
  let r := getCachedTokenAccount_resume p (Some tokenAccount) h in
  r.1 = Some tokenAccount ∧
  well_formed r.2 ∧
  (∀ later, later - now < TOKEN_ACCOUNT_CACHE_TTL →
     getCachedTokenAccount later key mintKey false r.2 = inl tokenAccount) ∧
  (∀ later, TOKEN_ACCOUNT_CACHE_TTL ≤ later - now →
     ∃ p', getCachedTokenAccount later key mintKey false r.2 = inr p') ∧
  (∀ later, ∃ p', getCachedTokenAccount later key mintKey true r.2 = inr p') ∧
  (∀ later, ∃ p',
     getCachedTokenAccount later key mintKey false
       (invalidate_after_sell key mintKey r.2) = inr p') ∧
  entry_of r.2 key
    = Some (mkEntry
              (<[mintKey := mkCachedTokenAccount tokenAccount mintKey key now]>
                 (default ∅ (tokenAccounts <$> entry_of h key)))
              (default 0 (lastBalanceCheck <$> entry_of h key))
              (default 0%Q (balance <$> entry_of h key))) ∧
  (∀ other, other ≠ key → entry_of r.2 other = entry_of h other) ∧
  getCachedTokenAccount_resume p None h = (None, h).
Proof.
  intros Hwf Hcall. apply getCachedTokenAccount_pending in Hcall as ->. cbn zeta.
  set (account := mkCachedTokenAccount tokenAccount mintKey key now).
  set (h' := (getCachedTokenAccount_resume
                (mkPending key mintKey (walletCacheMap h !! key) now)
                (Some tokenAccount) h).2).
  assert (Hentry : ∀ other, entry_of h' other =
    if decide (other = key)
    then Some (mkEntry
                 (<[mintKey := account]> (default ∅ (tokenAccounts <$> entry_of h key)))
                 (default 0 (lastBalanceCheck <$> entry_of h key))
                 (default 0%Q (balance <$> entry_of h key)))
    else entry_of h other).
  { intros other. unfold h', getCachedTokenAccount_resume. cbn [snd pending_cached
      pending_key pending_now pending_mint]. fold account.
    destruct (walletCacheMap h !! key) as [r|] eqn:Hr.
    - rewrite (entry_of_alter h key r _ other Hwf Hr).
      destruct (decide (other = key)); [|done].
      destruct Hwf as [Hvalid _]. specialize (Hvalid key r Hr).
      apply lookup_lt_is_Some_2 in Hvalid as [old Hold].
      assert (Hk : entry_of h key = Some old) by (apply entry_of_Some; eauto).
      by rewrite Hk.
    - rewrite (entry_of_new h key _ other Hwf).
      destruct (decide (other = key)); [|done].
      assert (Hk : entry_of h key = None) by (unfold entry_of; by rewrite Hr).
      rewrite Hk. cbn. by rewrite insert_empty. }
  assert (Hwf' : well_formed h').
  { unfold h', getCachedTokenAccount_resume. cbn [snd pending_cached pending_key].
    destruct (walletCacheMap h !! key) eqn:Hr;
      [by apply well_formed_alter | by apply well_formed_new]. }
  assert (Hcalls : ∀ later forced h0 e, entry_of h0 key = Some e →
    getCachedTokenAccount later key mintKey forced h0 =
      let pending := mkPending key mintKey (walletCacheMap h0 !! key) later in
      if forced then inr pending
      else match tokenAccounts e !! mintKey with
           | Some cachedAccount =>
               if later - lastUpdated cachedAccount <? TOKEN_ACCOUNT_CACHE_TTL
               then inl (address cachedAccount)
               else inr pending
           | None => inr pending
           end).
  { intros later forced h0 e He. unfold getCachedTokenAccount. cbn zeta.
    unfold entry_of in He. by rewrite He. }
  pose proof (Hentry key) as Hkey. rewrite decide_True in Hkey by done.
  split_and!.
  - done.
  - exact Hwf'.
  - intros later Hsoon. rewrite (Hcalls later false h' _ Hkey). cbn.
    rewrite lookup_insert_eq. cbn. by rewrite (proj2 (Z.ltb_lt _ _) Hsoon).
  - intros later Hlate. rewrite (Hcalls later false h' _ Hkey). cbn.
    rewrite lookup_insert_eq. cbn. rewrite (proj2 (Z.ltb_ge _ _) Hlate). eauto.
  - intros later. rewrite (Hcalls later true h' _ Hkey). cbn. eauto.
  - intros later.
    assert (Hinv : ∃ e, entry_of (invalidate_after_sell key mintKey h') key = Some e ∧
                        tokenAccounts e !! mintKey = None).
    { unfold invalidate_after_sell.
      destruct (walletCacheMap h' !! key) as [r|] eqn:Hr.
      - rewrite (entry_of_alter h' key r _ key Hwf' Hr), decide_True, Hkey by done.
        cbn. eexists. split; [done|]. cbn. by rewrite lookup_delete_eq.
      - unfold entry_of in Hkey. by rewrite Hr in Hkey. }
    destruct Hinv as (e & He & Hgone).
    rewrite (Hcalls later false _ _ He). cbn. rewrite Hgone. eauto.
  - exact Hkey.
  - intros other Hne. by rewrite Hentry, decide_False.
  - done.
Qed.

(** X26.  Two first calls for a wallet lose what is cached in between.
    When two calls of [getCachedBalance] are made for a wallet that has
    no entry and both ask the network, the one resumed last puts a new
    object under the key: the balance and the time of the other call
    are gone, and so is a token account that [getCachedTokenAccount]
    stored in the first object meanwhile, so the next request for it
    asks the network again. *)
Theorem overlapping_first_fetches_drop_the_earlier_entry
    (t1 t2 t3 : Z) key mintKey force1 force2 (a b : Z) (tokenAccount : string)
    h p1 p2 p3 :
  well_formed h →
  walletCacheMap h !! key = None →
  getCachedBalance t1 key force1 h = inr p1 →
  getCachedBalance t2 key force2 h = inr p2 →
  let h1 := (getCachedBalance_resume p1 (Some a) h).2 in
  getCachedTokenAccount t3 key mintKey false h1 = inr p3 →
  let h2 := (getCachedTokenAccount_resume p3 (Some tokenAccount) h1).2 in
  let h3 := (getCachedBalance_resume p2 (Some b) h2).2 in
  (∀ later, later - t3 < TOKEN_ACCOUNT_CACHE_TTL →
     getCachedTokenAccount later key mintKey false h2 = inl tokenAccount) ∧
  entry_of h3 key
    = Some (mkEntry ∅ t2 (inject_Z b / inject_Z LAMPORTS_PER_SOL)%Q) ∧
  (∀ later, ∃ p', getCachedTokenAccount later key mintKey false h3 = inr p') ∧
  well_formed h3.
Proof.
  intros Hwf Hnone Hc1 Hc2 h1 Hc3 h2 h3.
  apply getCachedBalance_pending in Hc1 as ->, Hc2 as ->.
  assert (Hh1 : h1 = mkStore
    (objects h ++ [mkEntry ∅ t1 (inject_Z a / inject_Z LAMPORTS_PER_SOL)%Q])
    (<[key := length (objects h)]> (walletCacheMap h))).
  { unfold h1, getCachedBalance_resume.
    cbn [snd pending_cached pending_key pending_now]. by rewrite Hnone. }
  clearbody h1.
  assert (Hwf1 : well_formed h1) by (rewrite Hh1; by apply well_formed_new).
  assert (Hr1 : walletCacheMap h1 !! key = Some (length (objects h)))
    by (rewrite Hh1; cbn; by rewrite lookup_insert_eq).
  assert (Hp3 : p3 = mkPending key mintKey (Some (length (objects h))) t3).
  { revert Hc3. unfold getCachedTokenAccount. cbn zeta. rewrite Hr1.
    destruct (deref h1 _) as [e|]; [|by intros [= <-]].
    destruct (tokenAccounts e !! mintKey) as [acc|]; [|by intros [= <-]].
    destruct (_ <? _); [done | by intros [= <-]]. }
  set (account := mkCachedTokenAccount tokenAccount mintKey key t3).
  assert (Hh2 : h2 = mkStore
    (alter (λ e, mkEntry (<[mintKey := account]> (tokenAccounts e))
                   (lastBalanceCheck e) (balance e))
       (length (objects h)) (objects h1))
    (walletCacheMap h1)) by (unfold h2; by rewrite Hp3).
  assert (Hh3 : h3 = mkStore
    (objects h2 ++ [mkEntry ∅ t2 (inject_Z b / inject_Z LAMPORTS_PER_SOL)%Q])
    (<[key := length (objects h2)]> (walletCacheMap h2))).
  { unfold h3, getCachedBalance_resume.
    cbn [snd pending_cached pending_key pending_now]. by rewrite Hnone. }
  clearbody h2 h3.
  assert (Hwf2 : well_formed h2) by (rewrite Hh2; by apply well_formed_alter).
  assert (He2 : entry_of h2 key = Some
    (mkEntry {[ mintKey := account ]} t1 (inject_Z a / inject_Z LAMPORTS_PER_SOL)%Q)).
  { rewrite Hh2, (entry_of_alter h1 key _ _ key Hwf1 Hr1), decide_True by done.
    rewrite Hh1, (entry_of_new h key _ key Hwf), decide_True by done. cbn.
    by rewrite insert_empty. }
  assert (He3 : entry_of h3 key
    = Some (mkEntry ∅ t2 (inject_Z b / inject_Z LAMPORTS_PER_SOL)%Q)).
  { rewrite Hh3, (entry_of_new h2 key _ key Hwf2). by rewrite decide_True. }
  split_and!.
  - intros later Hsoon. unfold getCachedTokenAccount. cbn zeta.
    unfold entry_of in He2. rewrite He2. cbn. rewrite lookup_singleton_eq. cbn.
    by rewrite (proj2 (Z.ltb_lt _ _) Hsoon).
  - exact He3.
  - intros later. unfold getCachedTokenAccount. cbn zeta.
    unfold entry_of in He3. rewrite He3. cbn. rewrite lookup_empty. eauto.
  - rewrite Hh3. by apply well_formed_new.
Qed.

(** *** Every state the program can reach *)

Lemma kept_refl h : well_formed h → kept h h.
Proof. intros Hwf. by split_and!. Qed.

Lemma kept_trans h1 h2 h3 : kept h1 h2 → kept h2 h3 → kept h1 h3.
Proof.
  intros (_ & Hlen1 & Hkeys1) (Hwf & Hlen2 & Hkeys2). split_and!; [done | lia |].
  intros key Hk. by apply Hkeys2, Hkeys1.
Qed.

Lemma kept_new h key entry :
  well_formed h →
  kept h (mkStore (objects h ++ [entry])
            (<[key := length (objects h)]> (walletCacheMap h))).
Proof.
  intros Hwf. split_and!; [by apply well_formed_new | |].
  - cbn. rewrite length_app. lia.
  - intros k Hk. cbn. destruct (decide (k = key)) as [->|Hne].
    + by rewrite lookup_insert_eq.
    + by rewrite lookup_insert_ne.
Qed.

Lemma kept_alter h f r :
  well_formed h → kept h (mkStore (alter f r (objects h)) (walletCacheMap h)).
Proof.
  intros Hwf. split_and!; [by apply well_formed_alter | | done].
  cbn. by rewrite length_alter.
Qed.

Lemma kept_getCachedBalance_resume p fetched h :
  well_formed h → kept h (getCachedBalance_resume p fetched h).2.
Proof.
  intros Hwf. unfold getCachedBalance_resume.
  destruct fetched; [|by apply kept_refl]. cbn [snd].
  destruct (pending_cached p); [by apply kept_alter | by apply kept_new].
Qed.

Lemma kept_getCachedTokenAccount_resume p fetched h :
  well_formed h → kept h (getCachedTokenAccount_resume p fetched h).2.
Proof.
  intros Hwf. unfold getCachedTokenAccount_resume.
  destruct fetched; [|by apply kept_refl]. cbn [snd].
  destruct (pending_cached p); [by apply kept_alter | by apply kept_new].
Qed.

Lemma kept_invalidate_balance key h :
  well_formed h → kept h (invalidate_balance key h).
Proof.
  intros Hwf. unfold invalidate_balance.
  destruct (walletCacheMap h !! key); [by apply kept_alter | by apply kept_refl].
Qed.

Lemma kept_invalidate_after_sell key mintKey h :
  well_formed h → kept h (invalidate_after_sell key mintKey h).
Proof.
  intros Hwf. unfold invalidate_after_sell.
  destruct (walletCacheMap h !! key); [by apply kept_alter | by apply kept_refl].
Qed.

Lemma kept_batch_writes now answers h :
  well_formed h → kept h (fold_left (batch_write now) answers h).
Proof.
  revert h. induction answers as [|answer answers IH]; intros h Hwf.
  { by apply kept_refl. }
  cbn [fold_left].
  assert (Hone : kept h (batch_write now h answer)).
  { unfold batch_write. cbn zeta.
    destruct (walletCacheMap h !! answer.1); [by apply kept_alter | by apply kept_new]. }
  eapply kept_trans; [exact Hone|]. apply IH, Hone.
Qed.

Lemma holds_object_kept h h' p : kept h h' → holds_object h p → holds_object h' p.
Proof. intros (_ & Hlen & _) Hp r Hr. specialize (Hp r Hr). lia. Qed.

Lemma holds_object_read h key mintKey now :
  well_formed h →
  holds_object h (mkPending key mintKey (walletCacheMap h !! key) now).
Proof. intros [Hvalid _] r Hr. by apply (Hvalid key). Qed.

(** One event: the references stay valid, the calls that wait hold
    objects, and no key leaves the map. *)
Lemma step_kept w e :
  let w' := step w e in
  well_formed (store w) →
  Forall (holds_object (store w)) (balance_calls w ++ token_calls w) →
  kept (store w) (store w') ∧
  Forall (holds_object (store w')) (balance_calls w' ++ token_calls w').
Proof.
  cbn zeta. intros Hwf Hcalls.
  assert (Hmoved : ∀ h', kept (store w) h' → ∀ l,
    l ⊆ balance_calls w ++ token_calls w → Forall (holds_object h') l).
  { intros h' Hk l Hsub. apply Forall_forall. intros p Hp%Hsub.
    eapply holds_object_kept; [exact Hk|].
    by eapply (proj1 (Forall_forall _ _) Hcalls). }
  destruct e as [now key force|n fetched|now wk mk force|n fetched|key|key mk
                |now answers];
    cbn [step].
  - destruct (getCachedBalance now key force (store w)) as [b|p] eqn:Hcall.
    { split; [by apply kept_refl | done]. }
    cbn. split; [by apply kept_refl|].
    apply getCachedBalance_pending in Hcall as ->.
    apply Forall_app in Hcalls as [Hb Ht].
    rewrite <- (assoc_L (++)). apply Forall_app. split; [done|].
    apply Forall_app. split; [|done]. apply Forall_singleton.
    by apply holds_object_read.
  - destruct (balance_calls w !! n) as [p|] eqn:Hn.
    2: { split; [by apply kept_refl | done]. }
    cbn. pose proof (kept_getCachedBalance_resume p fetched _ Hwf) as Hk.
    split; [done|]. apply (Hmoved _ Hk).
    intros q [Hq|Hq]%elem_of_app; apply elem_of_app; [left | by right].
    by apply list_elem_of_delete_inv in Hq.
  - destruct (getCachedTokenAccount now wk mk force (store w)) as [a|p] eqn:Hcall.
    { split; [by apply kept_refl | done]. }
    cbn. split; [by apply kept_refl|].
    apply getCachedTokenAccount_pending in Hcall as ->.
    rewrite (assoc_L (++)). apply Forall_app. split; [done|].
    apply Forall_singleton. by apply holds_object_read.
  - destruct (token_calls w !! n) as [p|] eqn:Hn.
    2: { split; [by apply kept_refl | done]. }
    cbn. pose proof (kept_getCachedTokenAccount_resume p fetched _ Hwf) as Hk.
    split; [done|]. apply (Hmoved _ Hk).
    intros q [Hq|Hq]%elem_of_app; apply elem_of_app; [by left | right].
    by apply list_elem_of_delete_inv in Hq.
  - cbn. pose proof (kept_invalidate_balance key _ Hwf) as Hk.
    split; [done|]. by apply (Hmoved _ Hk).
  - cbn. pose proof (kept_invalidate_after_sell key mk _ Hwf) as Hk.
    split; [done|]. by apply (Hmoved _ Hk).
  - cbn. pose proof (kept_batch_writes now answers _ Hwf) as Hk.
    split; [done|]. by apply (Hmoved _ Hk).
Qed.

(** X27.  The references of the wallet cache never dangle and its
    entries never go away.  Under any interleaving of calls of
    [getCachedBalance] and [getCachedTokenAccount], of their
    resumptions with any answers, of the invalidations after buys and
    sells and of the writes of [batchCheckBalances]: every key of [walletCacheMap]
    points to an object of its own, every call that waits for its
    answer holds an object that exists, and a wallet that has an entry
    at some point of the run has one at every later point. *)
Theorem wallet_cache_keeps_its_entries (pre post : list Event) :
  let w := run new_World pre in
  let w' := run w post in
  well_formed (store w') ∧
  Forall (holds_object (store w')) (balance_calls w' ++ token_calls w') ∧
  ∀ key, is_Some (entry_of (store w) key) → is_Some (entry_of (store w') key).
Proof.
  cbn zeta.
  assert (Hrun : ∀ evs w,
    well_formed (store w) →
    Forall (holds_object (store w)) (balance_calls w ++ token_calls w) →
    kept (store w) (store (run w evs)) ∧
    Forall (holds_object (store (run w evs)))
      (balance_calls (run w evs) ++ token_calls (run w evs))).
  { induction evs as [|e evs IH]; intros w Hwf Hcalls.
    { split; [by apply kept_refl | done]. }
    destruct (step_kept w e Hwf Hcalls) as [Hk Hcalls'].
    destruct (IH (step w e) (proj1 Hk) Hcalls') as [Hk' Hcalls''].
    split; [by eapply kept_trans | done]. }
  assert (Hnew : well_formed (store new_World)).
  { split; intros ? ?; cbn; by rewrite lookup_empty. }
  destruct (Hrun pre new_World Hnew) as [Hk1 Hcalls1]; [done|].
  destruct (Hrun post (run new_World pre) (proj1 Hk1) Hcalls1)
    as [(Hwf & _ & Hkeys) Hcalls2].
  split_and!; [done | done |].
  intros key [e He]. apply entry_of_Some in He as (r & Hr & _).
  destruct (Hkeys key) as [r' Hr']; [by eexists|].
  destruct Hwf as [Hvalid _]. specialize (Hvalid key r' Hr').
  apply lookup_lt_is_Some_2 in Hvalid as [e' He'].
  exists e'. apply entry_of_Some. eauto.
Qed.

End WalletCacheLaws.

Section WalletCacheLawsInstances.

Import WalletCache.

Lemma well_formed_new_walletCacheMap : well_formed new_walletCacheMap.
Proof.
  split.
  - intros key r Hr. cbn in Hr. rewrite lookup_empty in Hr. discriminate Hr.
  - intros key1 key2 r Hr. cbn in Hr. rewrite lookup_empty in Hr. discriminate Hr.
Defined.


(** On an instance: the token account of a wallet without entry, read
    again 30 s later. *)
Lemma fetched_token_account_is_served_from_cache_witness :
  let p := mkPending "W1" "M" None 1000000 in
  let r := getCachedTokenAccount_resume p (Some "ATA") new_walletCacheMap in
  well_formed new_walletCacheMap ∧
  getCachedTokenAccount 1000000 "W1" "M" false new_walletCacheMap = inr p ∧
  1030000 - 1000000 < TOKEN_ACCOUNT_CACHE_TTL ∧
  getCachedTokenAccount 1030000 "W1" "M" false r.2 = inl "ATA".
Proof.
  cbn zeta. split; [exact well_formed_new_walletCacheMap|].
  assert (Hcall : getCachedTokenAccount 1000000 "W1" "M" false new_walletCacheMap
                  = inr (mkPending "W1" "M" None 1000000)) by reflexivity.
  assert (Hsoon : 1030000 - 1000000 < TOKEN_ACCOUNT_CACHE_TTL)
    by (unfold TOKEN_ACCOUNT_CACHE_TTL; lia).
  split; [exact Hcall|]. split; [exact Hsoon|].
  destruct (fetched_token_account_is_served_from_cache 1000000 "W1" "M" false "ATA"
              new_walletCacheMap (mkPending "W1" "M" None 1000000)
              well_formed_new_walletCacheMap Hcall)
    as (_ & _ & Hserved & _).
  exact (Hserved 1030000 Hsoon).
Defined.

(** On an instance: two first calls for a wallet, one second apart, and
    a token account stored between their answers. *)
Lemma overlapping_first_fetches_drop_the_earlier_entry_witness :
  let h := new_walletCacheMap in
  let p1 := mkPending "W1" "" None 1000 in
  let p2 := mkPending "W1" "" None 2000 in
  let h1 := (getCachedBalance_resume p1 (Some 5000000000) h).2 in
  let p3 := mkPending "W1" "M" (Some 0%nat) 3000 in
  let h2 := (getCachedTokenAccount_resume p3 (Some "ATA") h1).2 in
  let h3 := (getCachedBalance_resume p2 (Some 4000000000) h2).2 in
  walletCacheMap h !! "W1" = None ∧
  getCachedBalance 1000 "W1" false h = inr p1 ∧
  getCachedBalance 2000 "W1" false h = inr p2 ∧
  getCachedTokenAccount 3000 "W1" "M" false h1 = inr p3 ∧
  getCachedTokenAccount 4000 "W1" "M" false h2 = inl "ATA" ∧
  ∃ p', getCachedTokenAccount 4000 "W1" "M" false h3 = inr p'.
Proof.
  cbn zeta.
  assert (Hnone : walletCacheMap new_walletCacheMap !! "W1" = None) by reflexivity.
  assert (H1 : getCachedBalance 1000 "W1" false new_walletCacheMap
               = inr (mkPending "W1" "" None 1000)) by reflexivity.
  assert (H2 : getCachedBalance 2000 "W1" false new_walletCacheMap
               = inr (mkPending "W1" "" None 2000)) by reflexivity.
  assert (H3 : getCachedTokenAccount 3000 "W1" "M" false
                 (getCachedBalance_resume (mkPending "W1" "" None 1000)
                    (Some 5000000000) new_walletCacheMap).2
               = inr (mkPending "W1" "M" (Some 0%nat) 3000))
    by (vm_compute; reflexivity).
  split; [exact Hnone|]. split; [exact H1|]. split; [exact H2|]. split; [exact H3|].
  destruct (overlapping_first_fetches_drop_the_earlier_entry 1000 2000 3000
              "W1" "M" false false 5000000000 4000000000 "ATA"
              new_walletCacheMap _ _ _
              well_formed_new_walletCacheMap Hnone H1 H2 H3)
    as (Hhit & _ & Hgone & _).
  split; [|exact (Hgone 4000)].
  apply Hhit. unfold TOKEN_ACCOUNT_CACHE_TTL. lia.
Defined.

End WalletCacheLawsInstances.
